(** * Vineapple: a Vine API client for Node.js

    A shallow embedding of the client's request pipeline and session
    state, and the properties of its specification.

    Source files: [vineapple.js] in its later snapshot (callbacks,
    [X-Vine-Client], device token) and the earlier one under [lib/]. *)

From Stdlib Require Import NArith ZArith List String Ascii Bool Lia.
From stdpp Require Import base list.
Import ListNotations.

Local Open Scope N_scope.

(** ** JavaScript strings

    A JavaScript string is a sequence of UTF-16 code units; regular
    expressions without the [u] flag and [JSON.parse] both work on code
    units. *)

Definition jsstring := list N.

(** The code units of an ASCII literal. *)
Definition js (s : string) : jsstring :=
  map N_of_ascii (list_ascii_of_string s).

(** The double quote (code unit 34), and text written with an apostrophe
    wherever the JavaScript text has a double quote: [jq "{'id':1}"] is the
    JSON text of the object whose member id is 1. *)
Definition dq : N := 34.

Definition jq (s : string) : jsstring :=
  map (fun c => if c =? 39 then dq else c) (js s).

Fixpoint jsstring_eqb (a b : jsstring) : bool :=
  match a, b with
  | [], [] => true
  | x :: a', y :: b' => (x =? y) && jsstring_eqb a' b'
  | _, _ => false
  end.

(** ** Regular expressions

    The fragment of ECMAScript patterns that [VINE_ID_SEARCH] is written
    in, with the backtracking semantics of the language: alternatives are
    tried left to right, quantifiers are greedy and give characters back
    when the rest of the pattern fails. *)

Module RegExp.

Inductive regex :=
| Chars (l : jsstring)          (* pattern characters, in sequence *)
| Star (cls : N -> bool)        (* a character class escape under [*] *)
| Seq (r1 r2 : regex)
| Alt (r1 r2 : regex)           (* r1|r2 *)
| Opt (r : regex)               (* r? *)
| Group (n : nat) (r : regex).  (* the n-th capturing parentheses *)

(** [\d] *)
Definition digit (c : N) : bool := (48 <=? c) && (c <=? 57).

(** [\s]: WhiteSpace and LineTerminator code units. *)
Definition space (c : N) : bool :=
  (c =? 9) || (c =? 10) || (c =? 11) || (c =? 12) || (c =? 13) || (c =? 32)
  || (c =? 160) || (c =? 5760) || ((8192 <=? c) && (c <=? 8202))
  || (c =? 8232) || (c =? 8233) || (c =? 8239) || (c =? 8287)
  || (c =? 12288) || (c =? 65279).

(** What the capturing parentheses hold; a group that took no part in the
    match has no entry. *)
Definition captures := list (nat * jsstring).

Fixpoint capture (n : nat) (caps : captures) : option jsstring :=
  match caps with
  | [] => None
  | (m, s) :: caps' => if Nat.eqb n m then Some s else capture n caps'
  end.

(** The input left after the pattern characters [l], if it starts with
    them. *)
Fixpoint chars (l s : jsstring) : option jsstring :=
  match l, s with
  | [], _ => Some s
  | x :: l', c :: s' => if x =? c then chars l' s' else None
  | _ :: _, [] => None
  end.

(** Greedy [cls*] followed by the continuation [k]. *)
Fixpoint star {A} (cls : N -> bool) (s : jsstring)
    (k : jsstring -> option A) : option A :=
  match s with
  | c :: s' =>
      if cls c then
        match star cls s' k with
        | Some r => Some r
        | None => k s
        end
      else k s
  | [] => k s
  end.

(** [exec r s caps k]: match [r] at the start of [s], then go on with
    [k] on the rest of the input and the captures so far. *)
Fixpoint exec {A} (r : regex) (s : jsstring) (caps : captures)
    (k : jsstring -> captures -> option A) : option A :=
  match r with
  | Chars l =>
      match chars l s with
      | Some s' => k s' caps
      | None => None
      end
  | Star cls => star cls s (fun s' => k s' caps)
  | Seq r1 r2 => exec r1 s caps (fun s' caps' => exec r2 s' caps' k)
  | Alt r1 r2 =>
      match exec r1 s caps k with
      | Some x => Some x
      | None => exec r2 s caps k
      end
  | Opt r' =>
      match exec r' s caps k with
      | Some x => Some x
      | None => k s caps
      end
  | Group n r' =>
      exec r' s caps
        (fun s' caps' =>
           k s' ((n, take (length s - length s') s) :: caps'))
  end.

(** A match at the start of [s]: the rest of the input and the
    captures. *)
Definition match_here (r : regex) (s : jsstring)
    : option (jsstring * captures) :=
  exec r s [] (fun s' caps => Some (s', caps)).

(** Replacement text: literal characters and [$n] references ([Dollar n]). *)
Inductive piece :=
| Text (l : jsstring)
| Dollar (n : nat).

Definition template := list piece.

(** [$n] of a group that did not take part is the empty string. *)
Definition expand (tpl : template) (caps : captures) : jsstring :=
  concat (map (fun p =>
                 match p with
                 | Text l => l
                 | Dollar n => default [] (capture n caps)
                 end) tpl).

(** [String.prototype.replace] with a global pattern: matches are looked
    for from left to right, each after the end of the one before; the
    text between matches is copied.  After an empty match the search
    moves one code unit on. *)
Fixpoint replace_from (fuel : nat) (r : regex) (tpl : template)
    (s : jsstring) : jsstring :=
  match fuel with
  | O => s
  | S fuel' =>
      let step :=
        match s with
        | [] => []
        | c :: s' => c :: replace_from fuel' r tpl s'
        end in
      match match_here r s with
      | Some (s', caps) =>
          expand tpl caps ++
          (if (length s' <? length s)%nat then replace_from fuel' r tpl s'
           else step)
      | None => step
      end
  end.

Definition replace (r : regex) (tpl : template) (s : jsstring) : jsstring :=
  replace_from (S (length s)) r tpl s.

End RegExp.

Import RegExp.

(** The pattern of the source, its three groups set apart by blanks and
    the double quote written as an apostrophe:

      /( '(?:(?:(?:comment|like|post|tag|user|venue)I)|i)d':\s* )( \d* )( , )?/g *)
Definition VINE_ID_SEARCH : regex :=
  Seq (Group 1
         (Seq (Chars [dq])
         (Seq (Alt (Seq (Alt (Chars (js "comment"))
                        (Alt (Chars (js "like"))
                        (Alt (Chars (js "post"))
                        (Alt (Chars (js "tag"))
                        (Alt (Chars (js "user"))
                             (Chars (js "venue")))))))
                        (Chars (js "I")))
                   (Chars (js "i")))
         (Seq (Chars (jq "d':"))
              (Star space)))))
 (Seq (Group 2 (Star digit))
      (Opt (Group 3 (Chars (js ","))))).

(** The replacement text of the source: $1, a double quote, $2, a double
    quote, $3. *)
Definition VINE_ID_REPLACE : template :=
  [Dollar 1; Text [dq]; Dollar 2; Text [dq]; Dollar 3].

(** [body.replace(VINE_ID_SEARCH, VINE_ID_REPLACE)] *)
Definition repair (body : jsstring) : jsstring :=
  replace VINE_ID_SEARCH VINE_ID_REPLACE body.

(** *** The match of [VINE_ID_SEARCH] at a position, read off the pattern

    Nothing follows the quantifiers of the pattern but optional parts, so a
    match takes the key, then all the blanks, all the digits and the comma
    if there is one.  [id_match_exec] below proves that this is what the
    backtracking matcher computes. *)

Definition id_keys : list jsstring :=
  map jq ["'commentId':"; "'likeId':"; "'postId':"; "'tagId':";
          "'userId':"; "'venueId':"; "'id':"]%string.

Fixpoint run (cls : N -> bool) (s : jsstring) : jsstring :=
  match s with
  | c :: s' => if cls c then c :: run cls s' else []
  | [] => []
  end.

Fixpoint skip (cls : N -> bool) (s : jsstring) : jsstring :=
  match s with
  | c :: s' => if cls c then skip cls s' else s
  | [] => []
  end.

Fixpoint strip_first (keys : list jsstring) (s : jsstring)
    : option (jsstring * jsstring) :=
  match keys with
  | [] => None
  | key :: keys' =>
      match chars key s with
      | Some s' => Some (key, s')
      | None => strip_first keys' s
      end
  end.

Definition comma : N := 44.

(** After the key: group 1 is the key and the blanks, group 2 the digits,
    group 3 the comma. *)
Definition finish (key s0 : jsstring) : option (jsstring * captures) :=
  let s1 := skip space s0 in
  let s2 := skip digit s1 in
  let caps := [(2%nat, run digit s1); (1%nat, key ++ run space s0)] in
  match chars [comma] s2 with
  | Some s3 => Some (s3, (3%nat, [comma]) :: caps)
  | None => Some (s2, caps)
  end.

Definition id_match (s : jsstring) : option (jsstring * captures) :=
  match strip_first id_keys s with
  | None => None
  | Some (key, s0) => finish key s0
  end.

(** The words a pattern matches, captures and priorities left out. *)
Fixpoint lang (r : regex) (w : jsstring) : Prop :=
  match r with
  | Chars l => w = l
  | Star cls => Forall (fun c => cls c = true) w
  | Seq r1 r2 => exists w1 w2, w = w1 ++ w2 /\ lang r1 w1 /\ lang r2 w2
  | Alt r1 r2 => lang r1 w \/ lang r2 w
  | Opt r' => w = [] \/ lang r' w
  | Group _ r' => lang r' w
  end.

(** Two texts that differ at a position both have. *)
Fixpoint clash (a b : jsstring) : bool :=
  match a, b with
  | x :: a', y :: b' => negb (x =? y) || clash a' b'
  | _, _ => false
  end.

(** A text that is not the beginning of any text made of a double quote, a
    character other than a colon, and more: it begins with something else
    than a double quote, or with a double quote and a colon. *)
Definition stops (r : jsstring) : bool :=
  match r with
  | [] => false
  | x :: r' =>
      if x =? dq then
        match r' with
        | y :: _ => y =? 58
        | [] => false
        end
      else true
  end.

(** [p] holds of every non-empty end of a text. *)
Fixpoint all_tails (p : jsstring -> bool) (l : jsstring) : bool :=
  match l with
  | [] => true
  | _ :: l' => p l && all_tails p l'
  end.

(** No key of [id_keys] occurs in a text. *)
Fixpoint key_free (s : jsstring) : bool :=
  match s with
  | [] => true
  | _ :: s' =>
      match strip_first id_keys s with
      | Some _ => false
      | None => key_free s'
      end
  end.

(** ** JavaScript values

    What [JSON.parse] builds, what callers pass as settings and what
    promises settle with.  The client only reads these values, so objects
    and arrays are kept by value.  A number is kept as the text of its
    literal; how it rounds to a double is left to the engine below. *)

#[warnings="-register-all"]
Inductive jsval :=
| VUndefined
| VNull
| VBool (b : bool)
| VNum (lit : jsstring)
| VStr (s : jsstring)
| VArr (items : list jsval)
| VObj (props : list (jsstring * jsval))
| VError (name message : jsstring).   (* an Error object *)

(** The completion of a call: it returns or it throws. *)
Inductive completion (A : Type) :=
| Return (v : A)
| Throw (e : jsval).
Arguments Return {A} v.
Arguments Throw {A} e.

(** What the model does not compute: the arithmetic of doubles, the texts
    of the engine's own error messages, what [util.format] prints for a
    value that is not a string, and SHA-256. *)
Class Engine := {
  (** ToBoolean of the Number a literal denotes: false for zero *)
  NumberToBoolean : jsstring -> bool;
  (** ToString of the Number a literal denotes *)
  NumberToString : jsstring -> jsstring;
  (** message of the SyntaxError that JSON.parse throws on a text *)
  SyntaxError_message : jsstring -> jsstring;
  (** message of the TypeError thrown when a member of a value that has
      none is read or called *)
  TypeError_message : jsval -> jsstring -> jsstring;
  (** message of the TypeError thrown when a value cannot be converted to
      a primitive value *)
  ToPrimitive_message : jsval -> jsstring;
  (** what [util.format] puts in the place of [%s] for a number, an array,
      an object or an Error object, or what it throws: String(x) on the
      versions of Node of the time of the client; later versions print -0
      with its sign and inspect arrays and objects *)
  util_format_s : jsval -> completion jsstring;
  (** crypto.createHash('sha256').update(token).digest('hex') *)
  sha256_hex : jsstring -> jsstring
}.

(** The own properties of an object are kept in the order they were
    added. *)
Fixpoint lookup_prop {V} (name : jsstring) (props : list (jsstring * V))
    : option V :=
  match props with
  | [] => None
  | (k, v) :: props' =>
      if jsstring_eqb name k then Some v else lookup_prop name props'
  end.

(** [o[name] = v]: an existing property keeps its place. *)
Fixpoint set_prop {V} (name : jsstring) (v : V)
    (props : list (jsstring * V)) : list (jsstring * V) :=
  match props with
  | [] => [(name, v)]
  | (k, x) :: props' =>
      if jsstring_eqb name k then (k, v) :: props'
      else (k, x) :: set_prop name v props'
  end.

(** [v.name] for a value other than undefined and null, for the names the
    client reads (error, data, key, userId, username): none of them is an
    index or the length of a string or array, or a member of a prototype;
    an Error object answers for its name and message. *)
Definition get_prop (v : jsval) (name : jsstring) : jsval :=
  match v with
  | VObj props => default VUndefined (lookup_prop name props)
  | VError n m =>
      if jsstring_eqb name (js "message") then VStr m
      else if jsstring_eqb name (js "name") then VStr n
      else VUndefined
  | _ => VUndefined
  end.

Section Values.
Context `{Engine}.

Definition ToBoolean (v : jsval) : bool :=
  match v with
  | VUndefined | VNull => false
  | VBool b => b
  | VNum lit => NumberToBoolean lit
  | VStr s => match s with [] => false | _ => true end
  | VArr _ | VObj _ | VError _ _ => true
  end.

(** Error.prototype.toString *)
Definition Error_toString (name message : jsstring) : jsstring :=
  match name, message with
  | [], _ => message
  | _, [] => name
  | _, _ => name ++ js ": " ++ message
  end.

(** Whether the conversion of a value to a string returns.  An object is
    converted by its method toString; an own property of that name hides
    the method of Object.prototype, and as no value here is a function, the
    conversion then throws a TypeError (the method valueOf, own or
    inherited, gives no primitive value either).  An array converts its
    elements, undefined and null apart; an Error object has the method of
    Error.prototype. *)
Fixpoint converts (v : jsval) : bool :=
  match v with
  | VObj props =>
      negb (existsb (fun p => jsstring_eqb (fst p) (js "toString")) props)
  | VArr items =>
      (fix all (l : list jsval) : bool :=
         match l with
         | [] => true
         | x :: l' => converts x && all l'
         end) items
  | _ => true
  end.

(** ToString of a value that [converts].  The url of a request and the
    credentials of a login, which callers give as strings, are converted
    by it as they are; where a value of a response is converted,
    [try_new_Error] asks first whether it converts. *)
Fixpoint ToString (v : jsval) : jsstring :=
  match v with
  | VUndefined => js "undefined"
  | VNull => js "null"
  | VBool true => js "true"
  | VBool false => js "false"
  | VNum lit => NumberToString lit
  | VStr s => s
  | VArr items =>
      (* Array.prototype.join: undefined and null give the empty string *)
      (fix join (l : list jsval) : jsstring :=
         match l with
         | [] => []
         | x :: l' =>
             match x with VUndefined | VNull => [] | _ => ToString x end
             ++ match l' with [] => [] | _ => comma :: join l' end
         end) items
  | VObj _ => js "[object Object]"
  | VError name message => Error_toString name message
  end.

(** [new Error(v)] for a value that [converts]: the message is
    ToString(v), and is left empty when [v] is undefined. *)
Definition new_Error (v : jsval) : jsval :=
  VError (js "Error")
         match v with VUndefined => [] | _ => ToString v end.

(** [new Error(v)] for any value: the conversion of [v] can throw. *)
Definition try_new_Error (v : jsval) : completion jsval :=
  if converts v then Return (new_Error v)
  else Throw (VError (js "TypeError") (ToPrimitive_message v)).

Definition new_TypeError (v : jsval) (member : jsstring) : jsval :=
  VError (js "TypeError") (TypeError_message v member).

(** [v.name] *)
Definition Get (v : jsval) (name : jsstring) : completion jsval :=
  match v with
  | VUndefined | VNull => Throw (new_TypeError v name)
  | _ => Return (get_prop v name)
  end.

End Values.

(** ** JSON.parse

    A recursive-descent reader of the JSON grammar (ECMA-404) over code
    units.  The fuel bounds the number of nested calls; [parse] gives more
    than a text can use ([parse_value_enough] below). *)

Module JSON.

Inductive parsed (A : Type) :=
| Parsed (v : A) (rest : jsstring)
| Malformed
| Exhausted.
Arguments Parsed {A} v rest.
Arguments Malformed {A}.
Arguments Exhausted {A}.

(** JSON whitespace: tab, line feed, carriage return, space. *)
Definition ws (c : N) : bool :=
  (c =? 9) || (c =? 10) || (c =? 13) || (c =? 32).

Definition hex (c : N) : option N :=
  if (48 <=? c) && (c <=? 57) then Some (c - 48)
  else if (97 <=? c) && (c <=? 102) then Some (c - 87)
  else if (65 <=? c) && (c <=? 70) then Some (c - 55)
  else None.

Definition hex4 (a b c d : N) : option N :=
  match hex a, hex b, hex c, hex d with
  | Some x, Some y, Some z, Some t => Some (((x * 16 + y) * 16 + z) * 16 + t)
  | _, _, _, _ => None
  end.

(** The character a one-letter escape stands for. *)
Definition escape (c : N) : option N :=
  if c =? 34 then Some 34          (* the double quote *)
  else if c =? 92 then Some 92     (* \ *)
  else if c =? 47 then Some 47     (* / *)
  else if c =? 98 then Some 8      (* b *)
  else if c =? 102 then Some 12    (* f *)
  else if c =? 110 then Some 10    (* n *)
  else if c =? 114 then Some 13    (* r *)
  else if c =? 116 then Some 9     (* t *)
  else None.

Definition cons_parsed (c : N) (r : parsed jsstring) : parsed jsstring :=
  match r with
  | Parsed l rest => Parsed (c :: l) rest
  | Malformed => Malformed
  | Exhausted => Exhausted
  end.

(** A string, after its opening quote. *)
Fixpoint parse_string (s : jsstring) : parsed jsstring :=
  match s with
  | [] => Malformed
  | c :: s' =>
      if c =? 34 then Parsed [] s'
      else if c =? 92 then
        match s' with
        | [] => Malformed
        | e :: s'' =>
            if e =? 117 then            (* \uXXXX *)
              match s'' with
              | h1 :: h2 :: h3 :: h4 :: s5 =>
                  match hex4 h1 h2 h3 h4 with
                  | Some u => cons_parsed u (parse_string s5)
                  | None => Malformed
                  end
              | _ => Malformed
              end
            else
              match escape e with
              | Some u => cons_parsed u (parse_string s'')
              | None => Malformed
              end
        end
      else if c <? 32 then Malformed
      else cons_parsed c (parse_string s')
  end.

(** Digits, one at least. *)
Definition digits1 (s : jsstring) : option jsstring :=
  match run digit s with
  | [] => None
  | _ => Some (skip digit s)
  end.

(** A number: an optional minus sign; then 0, or a digit from 1 to 9 and
    any digits; then, optionally, a point and digits; then, optionally, e or
    E, an optional sign and digits.  Its value is kept as the text read. *)
Definition parse_number (s : jsstring) : parsed jsstring :=
  let s1 := match s with c :: s' => if c =? 45 then s' else s | [] => s end in
  let after_int :=
    match s1 with
    | c :: s' => if c =? 48 then Some s' else digits1 s1
    | [] => None
    end in
  match after_int with
  | None => Malformed
  | Some s2 =>
      let after_frac :=
        match s2 with
        | c :: s' => if c =? 46 then digits1 s' else Some s2
        | [] => Some s2
        end in
      match after_frac with
      | None => Malformed
      | Some s3 =>
          let after_exp :=
            match s3 with
            | c :: s' =>
                if (c =? 101) || (c =? 69) then
                  match s' with
                  | g :: s'' =>
                      if (g =? 43) || (g =? 45) then digits1 s''
                      else digits1 s'
                  | [] => None
                  end
                else Some s3
            | [] => Some s3
            end in
          match after_exp with
          | None => Malformed
          | Some s4 => Parsed (take (length s - length s4) s) s4
          end
      end
  end.

Definition keyword (word : string) (v : jsval) (s : jsstring)
    : parsed jsval :=
  match chars (js word) s with
  | Some rest => Parsed v rest
  | None => Malformed
  end.

Fixpoint parse_value (fuel : nat) (s : jsstring) : parsed jsval :=
  match fuel with
  | O => Exhausted
  | S fuel' =>
      match s with
      | [] => Malformed
      | c :: s' =>
          if c =? 123 then                        (* { *)
            match skip ws s' with
            | [] => Malformed
            | c1 :: s1 =>
                if c1 =? 125 then Parsed (VObj []) s1
                else parse_members fuel' (c1 :: s1) []
            end
          else if c =? 91 then                    (* [ *)
            match skip ws s' with
            | [] => Malformed
            | c1 :: s1 =>
                if c1 =? 93 then Parsed (VArr []) s1
                else parse_elements fuel' (c1 :: s1) []
            end
          else if c =? 34 then
            match parse_string s' with
            | Parsed l rest => Parsed (VStr l) rest
            | Malformed => Malformed
            | Exhausted => Exhausted
            end
          else if c =? 116 then keyword "true" (VBool true) s
          else if c =? 102 then keyword "false" (VBool false) s
          else if c =? 110 then keyword "null" VNull s
          else
            match parse_number s with
            | Parsed lit rest => Parsed (VNum lit) rest
            | Malformed => Malformed
            | Exhausted => Exhausted
            end
      end
  end

(** The members of an object, from the first name on; [acc] holds the
    members read so far.  A name read twice keeps its place and takes the
    later value. *)
with parse_members (fuel : nat) (s : jsstring)
    (acc : list (jsstring * jsval)) : parsed jsval :=
  match fuel with
  | O => Exhausted
  | S fuel' =>
      match s with
      | [] => Malformed
      | c :: s' =>
          if c =? 34 then
            match parse_string s' with
            | Parsed name s1 =>
                match skip ws s1 with
                | [] => Malformed
                | c2 :: s2 =>
                    if c2 =? 58 then
                      match parse_value fuel' (skip ws s2) with
                      | Parsed v s3 =>
                          let acc' := set_prop name v acc in
                          match skip ws s3 with
                          | [] => Malformed
                          | c4 :: s4 =>
                              if c4 =? 44 then
                                parse_members fuel' (skip ws s4) acc'
                              else if c4 =? 125 then Parsed (VObj acc') s4
                              else Malformed
                          end
                      | Malformed => Malformed
                      | Exhausted => Exhausted
                      end
                    else Malformed
                end
            | Malformed => Malformed
            | Exhausted => Exhausted
            end
          else Malformed
      end
  end

(** The elements of an array, from the first one on. *)
with parse_elements (fuel : nat) (s : jsstring)
    (acc : list jsval) : parsed jsval :=
  match fuel with
  | O => Exhausted
  | S fuel' =>
      match parse_value fuel' s with
      | Parsed v s1 =>
          match skip ws s1 with
          | [] => Malformed
          | c2 :: s2 =>
              if c2 =? 44 then parse_elements fuel' (skip ws s2) (acc ++ [v])
              else if c2 =? 93 then Parsed (VArr (acc ++ [v])) s2
              else Malformed
          end
      | Malformed => Malformed
      | Exhausted => Exhausted
      end
  end.

(** [JSON.parse(text)]: one value, blanks allowed around it, nothing
    else; a SyntaxError otherwise. *)
Definition parse `{Engine} (text : jsstring) : completion jsval :=
  match parse_value (S (2 * length text)) (skip ws text) with
  | Parsed v rest =>
      match skip ws rest with
      | [] => Return v
      | _ => Throw (VError (js "SyntaxError") (SyntaxError_message text))
      end
  | _ => Throw (VError (js "SyntaxError") (SyntaxError_message text))
  end.

(** What is left after a value is shorter than the text it was read
    from. *)
Definition shorter (s : jsstring) (r : parsed jsval) : Prop :=
  match r with
  | Parsed _ rest => (length rest < length s)%nat
  | _ => True
  end.

End JSON.

(** ** The store of request descriptors

    A descriptor and its headers are objects that [request] copies and
    writes to, so they live in a store and are passed by reference.  A
    property holds a value or a reference to another object of the
    store. *)

Abbreviation loc := nat.

Inductive slot :=
| Val (v : jsval)
| Ref (l : loc).

Definition object := list (jsstring * slot).
Abbreviation store := (list object).

Definition alloc (o : object) (h : store) : loc * store :=
  (length h, h ++ [o]).

Definition read (h : store) (l : loc) : object :=
  default [] (h !! l).

(** The own property [name] of an object, undefined when it has none. *)
Definition get_own (o : object) (name : jsstring) : slot :=
  default (Val VUndefined) (lookup_prop name o).

(** [l[name] = x] *)
Definition write (h : store) (l : loc) (name : jsstring) (x : slot) : store :=
  <[l := set_prop name x (read h l)]> h.

Definition is_undefined (x : slot) : bool :=
  match x with
  | Val VUndefined => true
  | _ => false
  end.

(** The names of the properties of Object.prototype, which every object
    made by an object literal inherits (those of Annex B of ECMAScript
    included). *)
Definition Object_prototype : list jsstring :=
  map js ["constructor"; "toString"; "toLocaleString"; "valueOf";
          "hasOwnProperty"; "isPrototypeOf"; "propertyIsEnumerable";
          "__proto__"; "__defineGetter__"; "__defineSetter__";
          "__lookupGetter__"; "__lookupSetter__"]%string.

Definition inherited (name : jsstring) : bool :=
  existsb (jsstring_eqb name) Object_prototype.

(** [typeof result[name] == 'undefined'], the test of [_.defaults], for a
    destination made by an object literal: the own property is looked at
    if there is one, the property of Object.prototype otherwise, and none
    of these is undefined. *)
Definition resolves_undefined (d : object) (name : jsstring) : bool :=
  match lookup_prop name d with
  | Some x => is_undefined x
  | None => negb (inherited name)
  end.

(** One source of [_.defaults]: each own property of the source is
    assigned to the destination when the destination resolves to undefined
    at that name. *)
Definition defaults_from (dst src : object) : object :=
  fold_left
    (fun d p => if resolves_undefined d (fst p)
                then set_prop (fst p) (snd p) d else d)
    src dst.

(** The decimal numeral of a number, the name of an index of an array. *)
Fixpoint decimal_from (fuel n : nat) (acc : jsstring) : jsstring :=
  match fuel with
  | O => acc
  | S fuel' =>
      let d := (N.of_nat (n mod 10)%nat + 48)%N in
      if (n <? 10)%nat then d :: acc
      else decimal_from fuel' (n / 10)%nat (d :: acc)
  end.

Definition index_name (n : nat) : jsstring := decimal_from (S n) n [].

(** The elements of an array as properties, from the index [n] on. *)
Fixpoint elements_from (n : nat) (items : list jsval) : object :=
  match items with
  | [] => []
  | x :: items' => (index_name n, Val x) :: elements_from (S n) items'
  end.

(** The enumerable own properties of a source of [_.defaults]: those of an
    object, the elements of an array, none for an Error object; a source
    that is not an object is passed over. *)
Definition source_object (h : store) (x : slot) : object :=
  match x with
  | Ref l => read h l
  | Val (VObj props) => map (fun p => (fst p, Val (snd p))) props
  | Val (VArr items) => elements_from 0 items
  | Val _ => []
  end.

(** ** Promises and callbacks

    A promise is modelled by the state it settles in.  Handlers run once
    the promise has settled, in the order the code attaches them; what a
    handler or a callback does is a function of its arguments, and a
    callback reaches neither the client nor the store. *)

Inductive settled :=
| Fulfilled (v : jsval)
| Rejected (e : jsval).

(** What a callback does with its arguments. *)
Definition callback := list jsval -> completion jsval.

Record session := {
  key : jsval;
  userId : jsval;
  username : jsval
}.

(** The transport answers a dispatched options object by calling back with
    [(error, response, body)]; the client does not read the response. *)
Record reply := {
  error : jsval;
  body : jsval
}.

Definition transport := store -> loc -> reply.

(** The client, the store, the options objects handed to the transport
    and the calls made to callbacks, both in order. *)
Record world := {
  this : session;
  heap : store;
  sent : list loc;
  calls : list (list jsval)
}.

Definition with_this (c : session) (w : world) : world :=
  {| this := c; heap := heap w; sent := sent w; calls := calls w |}.

Definition with_heap (h : store) (w : world) : world :=
  {| this := this w; heap := h; sent := sent w; calls := calls w |}.

(** The client as a value: its own properties. *)
Definition client_value (c : session) : jsval :=
  VObj [(js "key", key c); (js "userId", userId c);
        (js "username", username c)].

(** A handler of [then] or [fail]. *)
Definition handler := jsval -> world -> completion jsval * world.

(** [promise.then(f)] of Q: [f] runs on fulfilment, what it returns
    fulfils the new promise and what it throws rejects it; a rejection
    passes through. *)
Definition q_then (p : settled) (f : handler) (w : world) : settled * world :=
  match p with
  | Fulfilled v =>
      match f v w with
      | (Return r, w') => (Fulfilled r, w')
      | (Throw e, w') => (Rejected e, w')
      end
  | Rejected e => (Rejected e, w)
  end.

(** [promise.fail(f)] of Q: [f] runs on rejection; a fulfilment passes
    through. *)
Definition q_fail (p : settled) (f : handler) (w : world) : settled * world :=
  match p with
  | Fulfilled v => (Fulfilled v, w)
  | Rejected e =>
      match f e w with
      | (Return r, w') => (Fulfilled r, w')
      | (Throw e', w') => (Rejected e', w')
      end
  end.

(** A call of the callback, recorded. *)
Definition call (cb : callback) (args : list jsval) (w : world)
    : completion jsval * world :=
  (cb args,
   {| this := this w; heap := heap w; sent := sent w;
      calls := calls w ++ [args] |}).

(** [if (callback) promise.then(callback.bind(null, null)).fail(callback)] *)
Definition then_fail (p : settled) (cb : option callback) (w : world) : world :=
  match cb with
  | None => w
  | Some f =>
      let (p1, w1) := q_then p (fun v => call f [VNull; v]) w in
      snd (q_fail p1 (fun e => call f [e]) w1)
  end.

(** ** The client (later snapshot) *)

Definition API_ORIGIN : jsstring := js "https://api.vineapp.com/".

Definition ACCEPT_LANGUAGE : jsstring :=
  js "en;q=1, fr;q=0.9, de;q=0.8, ja;q=0.7, nl;q=0.6, it;q=0.5".

Definition USER_AGENT : jsstring :=
  js "iphone/1.3.1 (iPhone; iOS 6.1.3; Scale/2.00)".

Definition X_VINE_CLIENT : jsstring := js "ios/1.3.1".

(** The empty string. *)
Definition DEVICE_TOKEN : jsstring := [].

Definition DEVICE_TOKEN_SEED : jsstring := js "Ananas comosus".

(** [request] takes a path or a descriptor object. *)
Inductive options_arg :=
| Path (url : jsstring)
| Descriptor (l : loc).

Section Client.
Context `{Engine}.

(** [settings && settings.name] *)
Definition and_get (settings : jsval) (name : jsstring) : jsval :=
  if ToBoolean settings then get_prop settings name else settings.

Definition authorize (settings : jsval) : session :=
  {| key := and_get settings (js "key");
     userId := and_get settings (js "userId");
     username := and_get settings (js "username") |}.

(** [new Vineapple(settings)]; without an argument [settings] is
    undefined. *)
Definition Vineapple (settings : jsval) : session := authorize settings.

(** [this.authorize.bind(this)] as a handler: it returns the client. *)
Definition authorize_bound : handler :=
  fun settings w =>
    let c := authorize settings in (Return (client_value c), with_this c w).

(** The string that [+] appends for a property. *)
Definition slot_ToString (x : slot) : jsstring :=
  match x with
  | Val v => ToString v
  | Ref _ => js "[object Object]"
  end.

(** The first part of [request], up to the call of the transport: the
    options object it builds in the store. *)
Definition prepare (c : session) (options : options_arg) (h : store)
    : loc * store :=
  (* typeof options === 'string' ? { url: options } : _.clone(options) *)
  let (o, h1) :=
    match options with
    | Path url => alloc [(js "url", Val (VStr url))] h
    | Descriptor l => alloc (read h l) h
    end in
  (* options.url = Vineapple.API_ORIGIN + options.url *)
  let h2 :=
    write h1 o (js "url")
      (Val (VStr (API_ORIGIN
                  ++ slot_ToString (get_own (read h1 o) (js "url"))))) in
  (* _.defaults({}, options.headers, { headers: { ... } }) *)
  let (d, h3) := alloc [] h2 in
  let overrides := get_own (read h3 o) (js "headers") in
  let (outer, h4) := alloc [] h3 in
  let (inner, h5) :=
    alloc [(js "X-Vine-Client", Val (VStr X_VINE_CLIENT));
           (js "Accept-Language", Val (VStr ACCEPT_LANGUAGE));
           (js "User-Agent", Val (VStr USER_AGENT))] h4 in
  let h6 := write h5 outer (js "headers") (Ref inner) in
  let merged :=
    defaults_from (defaults_from (read h6 d) (source_object h6 overrides))
                  (source_object h6 (Ref outer)) in
  let h7 := <[d := merged]> h6 in
  (* options.headers = ... *)
  let h8 := write h7 o (js "headers") (Ref d) in
  (* if (this.key) options.headers['vine-session-id'] = this.key *)
  if ToBoolean (key c)
  then (o, write h8 d (js "vine-session-id") (Val (key c)))
  else (o, h8).

(** [body.replace(VINE_ID_SEARCH, VINE_ID_REPLACE)]: only a string has
    the method. *)
Definition body_replace (b : jsval) : completion jsstring :=
  match b with
  | VStr s => Return (repair s)
  | _ => Throw (new_TypeError b (js "replace"))
  end.

(** The try block from [JSON.parse] on, with its catch clause: what is
    thrown there, by [JSON.parse], by reading a property of null or by
    [new Error(data.error)] when the error does not convert to a string, is
    an Error object, and the promise is rejected with a new Error made of
    it. *)
Definition unwrap (text : jsstring) : settled :=
  match JSON.parse text with
  | Throw e => Rejected (new_Error e)
  | Return data =>
      match Get data (js "error") with
      | Throw e => Rejected (new_Error e)
      | Return err =>
          if ToBoolean err then
            match try_new_Error err with
            | Return e => Rejected e
            | Throw e => Rejected (new_Error e)
            end
          else
            match Get data (js "data") with
            | Throw e => Rejected (new_Error e)
            | Return v => Fulfilled v
            end
      end
  end.

(** The function [request] hands to the transport.  What the transport
    reports as an error is an Error object or a string, which converts. *)
Definition respond (r : reply) : settled :=
  if ToBoolean (error r) then Rejected (new_Error (error r))
  else
    (* try *)
    match body_replace (body r) with
    | Throw e => Rejected (new_Error e)
    | Return text => unwrap text
    end.

Definition request (net : transport) (options : options_arg)
    (cb : option callback) (w : world) : settled * world :=
  let (o, h) := prepare (this w) options (heap w) in
  let w1 := {| this := this w; heap := h; sent := sent w ++ [o];
               calls := calls w |} in
  let promise := respond (net h o) in
  (promise, then_fail promise cb w1).

Definition createDeviceToken (token : jsstring) : jsstring :=
  sha256_hex token.

(** [[a, b, c].join(':')]; the text [join] gives for one item is the
    ToString of the array of that item. *)
Definition join3 (a b c : jsval) : jsstring :=
  ToString (VArr [a]) ++ js ":" ++ ToString (VArr [b]) ++ js ":"
  ++ ToString (VArr [c]).

Definition login (net : transport) (user password : jsval)
    (cb : option callback) (w : world) : completion settled * world :=
  if negb (ToBoolean user) then
    (Throw (new_Error (VStr (js "Invalid credentials. Missing username."))), w)
  else if negb (ToBoolean password) then
    (Throw (new_Error (VStr (js "Invalid credentials. Missing password."))), w)
  else
    let (d, h1) :=
      alloc [(js "method", Val (VStr (js "post")));
             (js "url", Val (VStr (js "users/authenticate")))] (heap w) in
    let token :=
      if ToBoolean (VStr DEVICE_TOKEN) then DEVICE_TOKEN
      else createDeviceToken (join3 (VStr DEVICE_TOKEN_SEED) user password) in
    let (f, h2) :=
      alloc [(js "deviceToken", Val (VStr token));
             (js "username", Val user);
             (js "password", Val password)] h1 in
    let h3 := write h2 d (js "form") (Ref f) in
    let (req, w1) := request net (Descriptor d) None (with_heap h3 w) in
    let (promise, w2) := q_then req authorize_bound w1 in
    (Return promise, then_fail promise cb w2).

Definition logout (net : transport) (cb : option callback) (w : world)
    : settled * world :=
  let (d, h1) :=
    alloc [(js "method", Val (VStr (js "delete")));
           (js "url", Val (VStr (js "users/authenticate")))] (heap w) in
  let (req, w1) := request net (Descriptor d) None (with_heap h1 w) in
  let (promise, w2) := q_then req authorize_bound w1 in
  (promise, then_fail promise cb w2).

End Client.

(** ** The client (earlier snapshot, [lib/vineapple.js])

    Two default headers, a repair for userId only, no callbacks; the session
    is cleared by [initialize]. *)

Module Legacy.

Definition USER_AGENT : jsstring :=
  js "com.vine.iphone/1.0.3 (unknown, iPhone OS 6.0.1, iPhone, Scale/2.000000)".

Definition ACCEPT_LANGUAGE : jsstring :=
  js "en, sv, fr, de, ja, nl, it, es, pt, pt-PT, da, fi, nb, ko, zh-Hans, zh-Hant, ru, pl, tr, uk, ar, hr, cs, el, he, ro, sk, th, id, ms, en-GB, ca, hu, vi, en-us;q=0.8".

(** The pattern of this snapshot, the double quote written as an
    apostrophe: /'userId':( \s* )( \d* )/g, and its replacement: the key,
    $1, a double quote, $2, a double quote. *)
Definition USER_ID_SEARCH : regex :=
  Seq (Chars (jq "'userId':"))
 (Seq (Group 1 (Star space))
      (Group 2 (Star digit))).

Definition USER_ID_REPLACE : template :=
  [Text (jq "'userId':"); Dollar 1; Text [dq]; Dollar 2; Text [dq]].

Section Client.
Context `{Engine}.

Definition initialize : session :=
  {| key := VNull; userId := VNull; username := VNull |}.

(** [this.initialize.bind(this)] as a handler. *)
Definition initialize_bound : handler :=
  fun _ w => (Return (client_value initialize), with_this initialize w).

(** [this.authorize.bind(this)] as a handler: reading [data.key] throws
    when [data] is undefined or null, before anything is assigned. *)
Definition authorize_bound : handler :=
  fun data w =>
    match Get data (js "key") with
    | Throw e => (Throw e, w)
    | Return _ =>
        let c := {| key := get_prop data (js "key");
                    userId := get_prop data (js "userId");
                    username := get_prop data (js "username") |} in
        (Return (client_value c), with_this c w)
    end.

Definition prepare (c : session) (options : options_arg) (h : store)
    : loc * store :=
  let (o, h1) :=
    match options with
    | Path url => alloc [(js "url", Val (VStr url))] h
    | Descriptor l => alloc (read h l) h
    end in
  let h2 :=
    write h1 o (js "url")
      (Val (VStr (API_ORIGIN
                  ++ slot_ToString (get_own (read h1 o) (js "url"))))) in
  let (d, h3) := alloc [] h2 in
  let overrides := get_own (read h3 o) (js "headers") in
  let (outer, h4) := alloc [] h3 in
  let (inner, h5) :=
    alloc [(js "User-Agent", Val (VStr USER_AGENT));
           (js "Accept-Language", Val (VStr ACCEPT_LANGUAGE))] h4 in
  let h6 := write h5 outer (js "headers") (Ref inner) in
  let merged :=
    defaults_from (defaults_from (read h6 d) (source_object h6 overrides))
                  (source_object h6 (Ref outer)) in
  let h7 := <[d := merged]> h6 in
  let h8 := write h7 o (js "headers") (Ref d) in
  if ToBoolean (key c)
  then (o, write h8 d (js "vine-session-id") (Val (key c)))
  else (o, h8).

Definition respond (r : reply) : settled :=
  if ToBoolean (error r) then Rejected (new_Error (error r))
  else
    match
      match body r with
      | VStr s => Return (replace USER_ID_SEARCH USER_ID_REPLACE s)
      | b => Throw (new_TypeError b (js "replace"))
      end
    with
    | Throw e => Rejected (new_Error e)
    | Return text => unwrap text
    end.

Definition request (net : transport) (options : options_arg) (w : world)
    : settled * world :=
  let (o, h) := prepare (this w) options (heap w) in
  (respond (net h o),
   {| this := this w; heap := h; sent := sent w ++ [o]; calls := calls w |}).

Definition login (net : transport) (user password : jsval) (w : world)
    : completion settled * world :=
  if negb (ToBoolean user) then
    (Throw (new_Error (VStr (js "Invalid credentials. Missing username."))), w)
  else if negb (ToBoolean password) then
    (Throw (new_Error (VStr (js "Invalid credentials. Missing password."))), w)
  else
    (* this.initialize() *)
    let w0 := with_this initialize w in
    let (d, h1) :=
      alloc [(js "method", Val (VStr (js "post")));
             (js "url", Val (VStr (js "users/authenticate")))] (heap w0) in
    let (f, h2) :=
      alloc [(js "username", Val user); (js "password", Val password)] h1 in
    let h3 := write h2 d (js "form") (Ref f) in
    let (req, w1) := request net (Descriptor d) (with_heap h3 w0) in
    let (promise, w2) := q_then req authorize_bound w1 in
    (Return promise, w2).

Definition logout (net : transport) (w : world) : settled * world :=
  let (d, h1) :=
    alloc [(js "method", Val (VStr (js "delete")));
           (js "url", Val (VStr (js "users/authenticate")))] (heap w) in
  let (req, w1) := request net (Descriptor d) (with_heap h1 w) in
  q_then req initialize_bound w1.

End Client.

End Legacy.

(** ** An engine to run examples with

    A literal is zero when its digits before the exponent are all 0, and
    prints as it was read; the messages are fixed texts; the hash is not
    computed, its input stands for it. *)

#[export] Instance example_engine : Engine := {|
  NumberToBoolean lit :=
    existsb (fun c => (49 <=? c) && (c <=? 57))
            (run (fun c => negb ((c =? 101) || (c =? 69))) lit);
  NumberToString lit := lit;
  SyntaxError_message _ := js "Unexpected token in JSON";
  TypeError_message _ member := js "Cannot read property " ++ member;
  ToPrimitive_message _ := js "Cannot convert object to primitive value";
  util_format_s v :=
    match v with
    | VNum lit => Return lit
    | _ => Return (js "[object Object]")
    end;
  sha256_hex token := token
|}.

(** A transport that answers every request with the same text and no
    error. *)
Definition answers (text : jsstring) : transport :=
  fun _ _ => {| error := VNull; body := VStr text |}.

(** A transport whose exchange fails. *)
Definition fails (e : jsval) : transport :=
  fun _ _ => {| error := e; body := VUndefined |}.

(** A client that was never authorized, and nothing else. *)
Definition fresh_world `{Engine} : world :=
  {| this := Vineapple VUndefined; heap := []; sent := []; calls := [] |}.

(** A client built from cached settings. *)
Definition signed_in `{Engine} : world :=
  {| this := Vineapple (VObj [(js "key", VStr (js "k1"));
                             (js "userId", VStr (js "1"));
                             (js "username", VStr (js "ananas"))]);
     heap := []; sent := []; calls := [] |}.

(** A callback that throws when it is handed a result. *)
Definition throws_on_success : callback :=
  fun args =>
    match args with
    | [VNull; _] => Throw (VStr (js "boom"))
    | _ => Return VUndefined
    end.

(** ** The session invariant of the specification

    A field is present when it is truthy, which is how [request] tests the
    credential. *)




(** ** The methods of the Vine API (later snapshot)

    Every method builds a path or a descriptor and hands it to [request].
    The methods with options are all written in one shape, [listing]; those
    that set the HTTP method in another, [with_method].  A method throws
    what [util.format] throws. *)

(** What [util.format] puts in the place of [%s]: String(x) for a string,
    undefined, null and a boolean on every version of Node; for the other
    values it is left to the engine. *)
Definition percent_s `{Engine} (x : jsval) : completion jsstring :=
  match x with
  | VStr s => Return s
  | VUndefined => Return (js "undefined")
  | VNull => Return (js "null")
  | VBool true => Return (js "true")
  | VBool false => Return (js "false")
  | VNum _ | VArr _ | VObj _ | VError _ _ => util_format_s x
  end.

(** [util.format(pre + '%s' + post, x)] *)
Definition format `{Engine} (pre post : jsstring) (x : jsval)
    : completion jsstring :=
  match percent_s x with
  | Return s => Return (pre ++ s ++ post)
  | Throw e => Throw e
  end.

(** What stands in the place of the options of a method: a function, which
    the method takes for its callback, or anything else. *)
Inductive options_or_callback :=
| IsFunction (f : callback)
| NotFunction (x : slot).

Module Api.

Section Methods.
Context `{Engine}.

(** [if (typeof options === 'function') { callback = options;
    options = {}; }] *)
Definition shift (options : options_or_callback) (cb : option callback)
    (h : store) : slot * option callback * store :=
  match options with
  | IsFunction f => let (l, h') := alloc [] h in (Ref l, Some f, h')
  | NotFunction x => (x, cb, h)
  end.

(** [return this.request(...)] *)
Definition returned (r : settled * world) : completion settled * world :=
  (Return (fst r), snd r).

(** The shift, then [this.request({ url: url, qs: options }, callback)],
    where [url] is a text or what [util.format] gives. *)
Definition listing (url : completion jsstring) (net : transport)
    (options : options_or_callback) (cb : option callback) (w : world)
    : completion settled * world :=
  let '(qs, cb', h1) := shift options cb (heap w) in
  match url with
  | Throw e => (Throw e, with_heap h1 w)
  | Return u =>
      let (d, h2) := alloc [(js "url", Val (VStr u)); (js "qs", qs)] h1 in
      returned (request net (Descriptor d) cb' (with_heap h2 w))
  end.

(** [this.request({ method: method, url: url }, callback)] *)
Definition with_method (method : jsstring) (url : completion jsstring)
    (net : transport) (cb : option callback) (w : world)
    : completion settled * world :=
  match url with
  | Throw e => (Throw e, w)
  | Return u =>
      let (d, h1) :=
        alloc [(js "method", Val (VStr method)); (js "url", Val (VStr u))]
              (heap w) in
      returned (request net (Descriptor d) cb (with_heap h1 w))
  end.

(** [this.request(url, callback)] *)
Definition at_path (url : completion jsstring) (net : transport)
    (cb : option callback) (w : world) : completion settled * world :=
  match url with
  | Throw e => (Throw e, w)
  | Return u => returned (request net (Path u) cb w)
  end.

Definition me := at_path (Return (js "users/me")).

Definition graph := listing (Return (js "timelines/graph")).

Definition notifications (net : transport) (cb : option callback) (w : world)
    : completion settled * world :=
  at_path (format (js "users/") (js "/pendingNotificationsCount")
                  (userId (this w)))
          net cb w.

Definition profile (net : transport) (user_id : jsval) :=
  at_path (format (js "users/profiles/") [] user_id) net.

Definition user (net : transport) (user_id : jsval) :=
  listing (format (js "timelines/users/") [] user_id) net.

Definition likes (net : transport) (user_id : jsval) :=
  listing (format (js "timelines/users/") (js "/likes") user_id) net.

Definition like (net : transport) (post_id : jsval) :=
  with_method (js "post") (format (js "posts/") (js "/likes") post_id) net.

Definition unlike (net : transport) (post_id : jsval) :=
  with_method (js "delete") (format (js "posts/") (js "/likes") post_id) net.

Definition twitter (net : transport) (user_id : jsval) :=
  at_path (format (js "users/") (js "/following/suggested/twitter") user_id)
          net.

Definition followers (net : transport) (user_id : jsval) :=
  listing (format (js "users/") (js "/followers") user_id) net.

Definition following (net : transport) (user_id : jsval) :=
  listing (format (js "users/") (js "/following") user_id) net.

Definition searchTags (net : transport) (query : jsval) :=
  listing (format (js "tags/search/") [] query) net.

Definition searchUsers (net : transport) (query : jsval) :=
  listing (format (js "users/search/") [] query) net.

Definition popular := listing (Return (js "timelines/popular")).

Definition promoted := listing (Return (js "timelines/promoted")).

Definition tag (net : transport) (name : jsval) :=
  listing (format (js "timelines/tags/") [] name) net.

Definition venue (net : transport) (id : jsval) :=
  listing (format (js "timelines/venues/") [] id) net.

(** [Vineapple.create(settings)] *)
Definition create (settings : jsval) : session := Vineapple settings.

(** [Vineapple.login(username, password, callback)]: a new client, without
    settings, logs in. *)
Definition static_login (net : transport) (user_name password : jsval)
    (cb : option callback) (w : world) : completion settled * world :=
  login net user_name password cb (with_this (Vineapple VUndefined) w).

End Methods.

End Api.

(** ** Auxiliary notions for the further properties *)

(** The seven identifier names. *)
Definition id_names : list jsstring :=
  map js ["commentId"; "likeId"; "postId"; "tagId"; "userId"; "venueId";
          "id"]%string.

(** A text without its double quotes. *)
Definition unquoted (s : jsstring) : jsstring :=
  filter (fun c => c <> dq) s.

(** A character that stands for itself in a JSON string. *)
Definition plain (c : N) : bool :=
  negb (c =? 34) && negb (c =? 92) && negb (c <? 32).

(** The names of the properties of an object. *)
Definition names (o : object) : list jsstring := map fst o.

(** * Properties *)

(** ** The pattern matcher *)

Lemma chars_Some l s s' : chars l s = Some s' <-> s = l ++ s'.
Proof.
  revert s; induction l as [|x l IH]; intros s; simpl.
  - split; congruence.
  - destruct s as [|c s]; [split; discriminate|].
    destruct (N.eqb_spec x c) as [->|Hne].
    + rewrite IH. split; congruence.
    + split; [discriminate | intros [= ? ?]; congruence].
Qed.

Lemma chars_same l s : chars l (l ++ s) = Some s.
Proof. apply chars_Some. reflexivity. Qed.

Lemma chars_clash a b s : clash a b = true -> chars a (b ++ s) = None.
Proof.
  revert b; induction a as [|x a IH]; intros [|y b]; simpl; try discriminate.
  destruct (N.eqb_spec x y) as [->|Hne]; simpl; [apply IH | reflexivity].
Qed.

Lemma run_skip cls s : run cls s ++ skip cls s = s.
Proof.
  induction s as [|c s IH]; simpl; [reflexivity|].
  destruct (cls c); simpl; congruence.
Qed.

Lemma skip_length cls s : (length (skip cls s) <= length s)%nat.
Proof.
  induction s as [|c s IH]; simpl; [lia|].
  destruct (cls c); simpl; lia.
Qed.

Lemma star_total {A} cls s (k : jsstring -> option A) :
  (forall s', is_Some (k s')) -> star cls s k = k (skip cls s).
Proof.
  intros Hk. induction s as [|c s IH]; simpl; [reflexivity|].
  destruct (cls c); [|reflexivity].
  rewrite IH. destruct (Hk (skip cls s)) as [r ->]. reflexivity.
Qed.

Lemma take_prefix (a b : jsstring) :
  take (length (a ++ b) - length b) (a ++ b) = a.
Proof.
  rewrite length_app.
  replace (length a + length b - length b)%nat with (length a) by lia.
  apply take_app_length.
Qed.

Lemma take_run cls (a s : jsstring) :
  take (length (a ++ s) - length (skip cls s)) (a ++ s) = a ++ run cls s.
Proof.
  rewrite <- (run_skip cls s) at 1 3.
  rewrite app_assoc. apply take_prefix.
Qed.

Lemma finish_is_Some k s0 : is_Some (finish k s0).
Proof. unfold finish. destruct (chars _ _); eauto. Qed.

Lemma finish_exec s k s0 :
  s = k ++ s0 ->
  star space s0
    (fun s3 => star digit s3
      (fun s4 =>
         match
           match chars (js ",") s4 with
           | Some s5 =>
               Some (s5, [(3%nat, take (length s4 - length s5) s4);
                          (2%nat, take (length s3 - length s4) s3);
                          (1%nat, take (length s - length s3) s)])
           | None => None
           end
         with
         | Some x => Some x
         | None => Some (s4, [(2%nat, take (length s3 - length s4) s3);
                              (1%nat, take (length s - length s3) s)])
         end))
  = finish k s0.
Proof.
  intros ->. unfold finish.
  rewrite star_total.
  2:{ intros s3. rewrite star_total.
      - destruct (chars (js ",") (skip digit s3)); eauto.
      - intros s4. destruct (chars (js ",") s4); eauto. }
  rewrite star_total.
  2:{ intros s4. destruct (chars (js ",") s4); eauto. }
  rewrite take_run.
  pose proof (take_run digit [] (skip space s0)) as Hd. simpl in Hd. rewrite Hd.
  change (js ",") with [comma].
  destruct (chars [comma] (skip digit (skip space s0))) as [s5|] eqn:Hc;
    [|reflexivity].
  apply chars_Some in Hc. rewrite Hc.
  rewrite (take_prefix [comma] s5). reflexivity.
Qed.

Ltac step_chars :=
  match goal with
  | |- context [chars ?a (?b ++ ?t)] =>
      first [ change (chars a (b ++ t)) with (chars a (a ++ t));
              rewrite (chars_same a t)
            | rewrite (chars_clash a b t) by reflexivity ]
  end; cbn beta iota.


Ltac split_key s0 :=
  match goal with
  | |- context [jq "'id':" ++ s0] =>
      change (jq "'id':" ++ s0)
        with ([dq] ++ (js "i" ++ (jq "d':" ++ s0)))
  | |- context [jq ?k ++ s0] =>
      let name := eval vm_compute in (take (length (jq k) - 5) (drop 1 (jq k))) in
      change (jq k ++ s0)
        with ([dq] ++ (name ++ (js "I" ++ (jq "d':" ++ s0))))
  end.

Lemma match_here_key k s0 :
  In k id_keys -> match_here VINE_ID_SEARCH (k ++ s0) = finish k s0.
Proof.
  intros Hin. unfold match_here, VINE_ID_SEARCH. cbn [exec].
  pose proof (finish_exec (k ++ s0) k s0 eq_refl) as Hf.
  destruct (finish_is_Some k s0) as [r Hr]. rewrite Hr in Hf |- *.
  unfold id_keys in Hin. cbn [map In] in Hin.
  repeat (destruct Hin as [<-|Hin]; [
    split_key s0; repeat step_chars;
    match goal with
    | |- context [star space s0 ?K] =>
        replace (star space s0 K) with (Some r) by (symmetry; exact Hf)
    end; reflexivity |]).
  destruct Hin.
Qed.

Lemma star_sound {A} cls s (k : jsstring -> option A) x :
  star cls s k = Some x ->
  exists w s', Forall (fun c => cls c = true) w /\ s = w ++ s' /\ k s' = Some x.
Proof.
  induction s as [|c s IH]; simpl; intros Hx.
  - exists [], []. auto.
  - destruct (cls c) eqn:Hc.
    + destruct (star cls s k) as [y|] eqn:Hs.
      * injection Hx as ->. destruct (IH eq_refl) as (w & s' & Hw & -> & Hk).
        exists (c :: w), s'. auto.
      * exists [], (c :: s). auto.
    + exists [], (c :: s). auto.
Qed.

Lemma exec_sound {A} r : forall s caps (k : jsstring -> captures -> option A) x,
  exec r s caps k = Some x ->
  exists w s' caps', lang r w /\ s = w ++ s' /\ k s' caps' = Some x.
Proof.
  induction r as [l|cls|r1 IH1 r2 IH2|r1 IH1 r2 IH2|r IH|n r IH];
    intros s caps k x; cbn [exec lang]; intros Hx.
  - destruct (chars l s) as [s'|] eqn:Hl; [|discriminate].
    apply chars_Some in Hl. eauto 6.
  - apply star_sound in Hx as (w & s' & Hw & -> & Hk). eauto 6.
  - apply IH1 in Hx as (w1 & s1 & caps1 & H1 & -> & Hx).
    apply IH2 in Hx as (w2 & s2 & caps2 & H2 & -> & Hx).
    exists (w1 ++ w2), s2, caps2. rewrite <- app_assoc. eauto 8.
  - destruct (exec r1 s caps k) as [y|] eqn:E1.
    + injection Hx as ->. apply IH1 in E1 as (w & s' & caps' & ? & ? & ?).
      eauto 8.
    + apply IH2 in Hx as (w & s' & caps' & ? & ? & ?). eauto 8.
  - destruct (exec r s caps k) as [y|] eqn:E1.
    + injection Hx as ->. apply IH in E1 as (w & s' & caps' & ? & ? & ?).
      eauto 8.
    + exists [], s, caps. auto.
  - apply IH in Hx as (w & s' & caps' & ? & ? & ?). eauto 8.
Qed.

Lemma lang_id_search w :
  lang VINE_ID_SEARCH w -> exists k t, In k id_keys /\ w = k ++ t.
Proof.
  unfold VINE_ID_SEARCH. cbn [lang].
  intros (w1 & w2 & -> & (q & w3 & -> & -> & (nm & w4 & -> & Hnm & (d & sp & -> & -> & _))) & _).
  assert (Hk : In ([dq] ++ nm ++ jq "d':") id_keys).
  { destruct Hnm as [(a & b & -> & Ha & ->)| ->].
    - unfold id_keys. cbn [map In].
      repeat (destruct Ha as [->|Ha]; [auto 10|]). subst a. auto 10.
    - unfold id_keys. cbn [map In]. auto 10. }
  eexists _, (sp ++ w2). split; [exact Hk|].
  rewrite <- !app_assoc. reflexivity.
Qed.

Lemma strip_first_Some keys s k s0 :
  strip_first keys s = Some (k, s0) -> In k keys /\ s = k ++ s0.
Proof.
  induction keys as [|k' keys IH]; simpl; [discriminate|].
  destruct (chars k' s) as [s'|] eqn:Hk.
  - intros [= <- <-]. apply chars_Some in Hk. auto.
  - intros Hs. apply IH in Hs as []. auto.
Qed.

Lemma strip_first_None keys s k s0 :
  strip_first keys s = None -> In k keys -> s <> k ++ s0.
Proof.
  induction keys as [|k' keys IH]; simpl; [tauto|].
  destruct (chars k' s) as [s'|] eqn:Hk; [discriminate|].
  intros Hs [->|Hin] ->; [|eapply IH; eauto].
  rewrite chars_same in Hk. discriminate.
Qed.

Lemma id_match_exec s : match_here VINE_ID_SEARCH s = id_match s.
Proof.
  unfold id_match. destruct (strip_first id_keys s) as [[k s0]|] eqn:Hs.
  - apply strip_first_Some in Hs as [Hin ->]. apply match_here_key, Hin.
  - destruct (match_here VINE_ID_SEARCH s) as [x|] eqn:Hm; [|reflexivity].
    apply exec_sound in Hm as (w & s' & _ & Hw & -> & _).
    apply lang_id_search in Hw as (k & t & Hin & ->).
    exfalso. eapply strip_first_None; [exact Hs | exact Hin |].
    rewrite <- app_assoc. reflexivity.
Qed.

Lemma replace_from_S fuel r tpl s :
  replace_from (S fuel) r tpl s =
  match match_here r s with
  | Some (s', caps) =>
      expand tpl caps ++
      (if (length s' <? length s)%nat then replace_from fuel r tpl s'
       else match s with
            | [] => []
            | c :: s0 => c :: replace_from fuel r tpl s0
            end)
  | None => match s with
            | [] => []
            | c :: s0 => c :: replace_from fuel r tpl s0
            end
  end.
Proof. reflexivity. Qed.

Lemma replace_from_fuel r tpl : forall f1 f2 s,
  (length s < f1)%nat -> (length s < f2)%nat ->
  replace_from f1 r tpl s = replace_from f2 r tpl s.
Proof.
  induction f1 as [|f1 IH]; intros [|f2] s H1 H2; try lia.
  cbn [replace_from].
  assert (Hstep : match s with [] => [] | c :: s' => c :: replace_from f1 r tpl s' end
                = match s with [] => [] | c :: s' => c :: replace_from f2 r tpl s' end).
  { destruct s as [|c s']; [reflexivity|]. simpl in H1, H2.
    f_equal. apply IH; lia. }
  rewrite Hstep.
  destruct (match_here r s) as [[s' caps]|]; [|reflexivity].
  destruct (Nat.ltb_spec (length s') (length s)); [|reflexivity].
  f_equal. apply IH; lia.
Qed.

Lemma finish_shorter k s0 t caps :
  finish k s0 = Some (t, caps) -> (length t <= length s0)%nat.
Proof.
  unfold finish. pose proof (skip_length space s0).
  pose proof (skip_length digit (skip space s0)).
  destruct (chars _ _) as [s3|] eqn:Hc; intros [= <- <-]; [|lia].
  apply chars_Some in Hc. rewrite Hc in *. simpl in *. lia.
Qed.

Lemma id_keys_nonempty k : In k id_keys -> k <> [].
Proof.
  unfold id_keys. cbn [map In].
  intros Hin ->. repeat (destruct Hin as [Hin|Hin]; [discriminate Hin|]).
  destruct Hin.
Qed.

Lemma id_match_shorter s t caps :
  id_match s = Some (t, caps) -> (length t < length s)%nat.
Proof.
  unfold id_match. destruct (strip_first id_keys s) as [[k s0]|] eqn:Hs;
    [|discriminate].
  apply strip_first_Some in Hs as [Hin ->]. intros Hf.
  apply finish_shorter in Hf. apply id_keys_nonempty in Hin.
  rewrite length_app. destruct k; [congruence | simpl; lia].
Qed.

(** The rewrite, one match at a time. *)
Lemma repair_step s :
  repair s =
  match id_match s with
  | Some (t, caps) => expand VINE_ID_REPLACE caps ++ repair t
  | None => match s with [] => [] | c :: s' => c :: repair s' end
  end.
Proof.
  assert (E : forall x, repair x
              = replace_from (S (length x)) VINE_ID_SEARCH VINE_ID_REPLACE x)
    by reflexivity.
  rewrite (E s), replace_from_S, id_match_exec.
  destruct (id_match s) as [[t caps]|] eqn:Hm.
  - pose proof (id_match_shorter _ _ _ Hm) as Hlt.
    destruct (Nat.ltb_spec (length t) (length s)); [|lia].
    f_equal. rewrite E. apply replace_from_fuel; lia.
  - destruct s as [|c s']; reflexivity.
Qed.

Lemma chars_tail k pre s :
  all_tails stops k = true ->
  (forall r, stops r = true -> chars r s = None) ->
  chars k (pre ++ s) =
  match chars k pre with Some x => Some (x ++ s) | None => None end.
Proof.
  intros Hk Hs. revert pre Hk.
  induction k as [|x k IH]; intros pre Hk; [reflexivity|].
  cbn [all_tails] in Hk. apply andb_true_iff in Hk as [Hx Hk].
  destruct pre as [|p pre]; simpl.
  - apply (Hs (x :: k) Hx).
  - destruct (x =? p); [apply IH, Hk | reflexivity].
Qed.

Lemma stops_quote r c t : stops r = true -> c <> 58 -> chars r (dq :: c :: t) = None.
Proof.
  destruct r as [|x r]; [discriminate|]. simpl.
  destruct (N.eqb_spec x dq) as [->|Hx]; [|reflexivity].
  simpl. destruct r as [|y r]; [discriminate|].
  intros Hy%N.eqb_eq Hc. subst y. cbn [chars].
  destruct (N.eqb_spec 58 c); [congruence | reflexivity].
Qed.

Lemma chars_key_pre k p pre c t :
  In k id_keys -> c <> 58 ->
  chars k ((p :: pre) ++ dq :: c :: t) =
  match chars k (p :: pre) with
  | Some x => Some (x ++ dq :: c :: t)
  | None => None
  end.
Proof.
  intros Hin Hc.
  assert (Hk : exists x k', k = x :: k' /\ all_tails stops k' = true).
  { unfold id_keys in Hin. cbn [map In] in Hin.
    repeat (destruct Hin as [<-|Hin]; [eexists _, _; split; reflexivity|]).
    destruct Hin. }
  destruct Hk as (x & k' & -> & Hk). simpl.
  destruct (x =? p); [|reflexivity].
  apply chars_tail; [exact Hk|]. intros r Hr. apply stops_quote; assumption.
Qed.

Lemma skip_app_stop cls a c t :
  cls c = false -> skip cls (a ++ c :: t) = skip cls a ++ c :: t.
Proof.
  intros Hc. induction a as [|x a IH]; simpl; [rewrite Hc; reflexivity|].
  destruct (cls x); [exact IH | reflexivity].
Qed.

Lemma run_app_stop cls a c t :
  cls c = false -> run cls (a ++ c :: t) = run cls a.
Proof.
  intros Hc. induction a as [|x a IH]; simpl; [rewrite Hc; reflexivity|].
  destruct (cls x); [f_equal; exact IH | reflexivity].
Qed.

Lemma finish_app k s0 t :
  finish k (s0 ++ dq :: t) =
  match finish k s0 with
  | Some (r, caps) => Some (r ++ dq :: t, caps)
  | None => None
  end.
Proof.
  unfold finish.
  rewrite (skip_app_stop space), (run_app_stop space) by reflexivity.
  rewrite (skip_app_stop digit), (run_app_stop digit) by reflexivity.
  destruct (skip digit (skip space s0)) as [|x r]; [reflexivity|].
  cbn [chars app]. destruct (comma =? x); reflexivity.
Qed.

Lemma strip_first_app keys p pre c t :
  (forall k, In k keys -> In k id_keys) -> c <> 58 ->
  strip_first keys ((p :: pre) ++ dq :: c :: t) =
  match strip_first keys (p :: pre) with
  | Some (k, x) => Some (k, x ++ dq :: c :: t)
  | None => None
  end.
Proof.
  intros Hsub Hc. induction keys as [|k keys IH]; [reflexivity|].
  cbn [strip_first]. rewrite chars_key_pre by (auto using in_eq).
  destruct (chars k (p :: pre)); [reflexivity|].
  apply IH. intros k' Hk'. apply Hsub. right. exact Hk'.
Qed.

Lemma id_match_app p pre c t :
  c <> 58 ->
  id_match ((p :: pre) ++ dq :: c :: t) =
  match id_match (p :: pre) with
  | Some (r, caps) => Some (r ++ dq :: c :: t, caps)
  | None => None
  end.
Proof.
  intros Hc. unfold id_match. rewrite strip_first_app by auto.
  destruct (strip_first id_keys (p :: pre)) as [[k x]|]; [|reflexivity].
  apply finish_app.
Qed.

(** A match never runs into a following double quote: the text before it
    is rewritten on its own. *)
Lemma repair_app pre c t :
  c <> 58 -> repair (pre ++ dq :: c :: t) = repair pre ++ repair (dq :: c :: t).
Proof.
  intros Hc. remember (length pre) as n eqn:Hn. revert pre Hn.
  induction n as [n IH] using lt_wf_ind. intros pre Hn.
  destruct pre as [|p pre].
  - rewrite (repair_step []). reflexivity.
  - rewrite (repair_step ((p :: pre) ++ _)), (repair_step (p :: pre)).
    rewrite id_match_app by exact Hc.
    destruct (id_match (p :: pre)) as [[r caps]|] eqn:Hm.
    + apply id_match_shorter in Hm.
      rewrite (IH (length r)) by (auto; lia). rewrite app_assoc. reflexivity.
    + simpl. f_equal. apply (IH (length pre)); [simpl in Hn; lia | reflexivity].
Qed.

Lemma run_all cls a b :
  forallb cls a = true -> run cls (a ++ b) = a ++ run cls b.
Proof.
  induction a as [|x a IH]; simpl; [reflexivity|].
  intros [-> Ha]%andb_true_iff. f_equal. exact (IH Ha).
Qed.

Lemma skip_all cls a b :
  forallb cls a = true -> skip cls (a ++ b) = skip cls b.
Proof.
  induction a as [|x a IH]; simpl; [reflexivity|].
  intros [-> Ha]%andb_true_iff. exact (IH Ha).
Qed.

Lemma skip_none cls b : run cls b = [] -> skip cls b = b.
Proof. intros Hb. rewrite <- (run_skip cls b) at 2. rewrite Hb. reflexivity. Qed.

Lemma digit_not_space c : digit c = true -> space c = false.
Proof.
  unfold digit, space. intros [H1%N.leb_le H2%N.leb_le]%andb_true_iff.
  repeat (apply orb_false_iff; split);
    try (apply N.eqb_neq; lia).
  apply andb_false_iff. left. apply N.leb_gt. lia.
Qed.

Lemma id_keys_quote k :
  In k id_keys -> exists c t, k = dq :: c :: t /\ c <> 58.
Proof.
  unfold id_keys. cbn [map In]. intros Hin.
  repeat (destruct Hin as [<-|Hin];
          [eexists _, _; split; [reflexivity | discriminate]|]).
  destruct Hin.
Qed.

Lemma id_match_key k s0 : In k id_keys -> id_match (k ++ s0) = finish k s0.
Proof. intros Hin. rewrite <- id_match_exec. apply match_here_key, Hin. Qed.

Lemma repair_comma t : repair (comma :: t) = comma :: repair t.
Proof. rewrite repair_step. reflexivity. Qed.

Lemma repair_key_free s : key_free s = true -> repair s = s.
Proof.
  induction s as [|c s IH]; intros Hs; rewrite repair_step.
  - reflexivity.
  - cbn [key_free] in Hs. unfold id_match.
    destruct (strip_first id_keys (c :: s)); [discriminate|].
    f_equal. exact (IH Hs).
Qed.

Lemma key_free_spec s :
  key_free s = true <->
  forall k a b, In k id_keys -> s <> a ++ k ++ b.
Proof.
  induction s as [|c s IH]; cbn [key_free].
  - split; [|reflexivity]. intros _ k a b Hin Hs.
    apply id_keys_nonempty in Hin.
    destruct a; [destruct k|]; simpl in Hs; congruence.
  - destruct (strip_first id_keys (c :: s)) as [[k s0]|] eqn:Hk.
    + split; [discriminate|]. intros Hno. exfalso.
      apply strip_first_Some in Hk as [Hin Hs].
      apply (Hno k [] s0 Hin Hs).
    + rewrite IH. split.
      * intros Hno k [|x a] b Hin Hs.
        -- eapply strip_first_None; [exact Hk | exact Hin | exact Hs].
        -- injection Hs as -> Hs. eapply Hno; eauto.
      * intros Hno k a b Hin ->. apply (Hno k (c :: a) b Hin). reflexivity.
Qed.

(** ** JSON.parse never runs out of fuel *)

Section JSONFacts.
Import JSON.


Lemma digits1_shorter s s' : digits1 s = Some s' -> (length s' < length s)%nat.
Proof.
  unfold digits1. pose proof (run_skip digit s) as E.
  destruct (run digit s) as [|d ds]; [discriminate|].
  intros [= <-]. rewrite <- E at 2. rewrite length_app. simpl. lia.
Qed.

Lemma parse_string_shorter s l rest :
  parse_string s = Parsed l rest -> (length rest < length s)%nat.
Proof.
  remember (length s) as n eqn:Hn. revert s l rest Hn.
  induction n as [n IH] using lt_wf_ind. intros s l rest Hn.
  destruct s as [|c s]; [discriminate|]. cbn [parse_string].
  destruct (c =? 34); [intros [= <- <-]; simpl in *; lia|].
  assert (Hgo : forall u t, (length t < n)%nat ->
            cons_parsed u (parse_string t) = Parsed l rest ->
            (length rest < length t)%nat).
  { intros u t Ht. destruct (parse_string t) as [l' r'| |] eqn:Hp;
      try discriminate. intros [= <- <-]. eapply IH; eauto. }
  destruct (c =? 92).
  - destruct s as [|e s]; [discriminate|].
    destruct (e =? 117).
    + destruct s as [|h1 [|h2 [|h3 [|h4 s]]]]; try discriminate.
      destruct (hex4 h1 h2 h3 h4); [|discriminate].
      intros Hp%Hgo; subst n; simpl in *; lia.
    + destruct (escape e); [|discriminate].
      intros Hp%Hgo; subst n; simpl in *; lia.
  - destruct (c <? 32); [discriminate|].
    intros Hp%Hgo; subst n; simpl in *; lia.
Qed.

Lemma parse_string_total s : parse_string s <> Exhausted.
Proof.
  remember (length s) as n eqn:Hn. revert s Hn.
  induction n as [n IH] using lt_wf_ind. intros s Hn.
  destruct s as [|c s]; [discriminate|]. cbn [parse_string].
  assert (Hgo : forall u t, (length t < n)%nat ->
            cons_parsed u (parse_string t) <> Exhausted).
  { intros u t Ht. pose proof (IH _ Ht t eq_refl).
    destruct (parse_string t); simpl; congruence. }
  destruct (c =? 34); [discriminate|].
  destruct (c =? 92).
  - destruct s as [|e s]; [discriminate|].
    destruct (e =? 117).
    + destruct s as [|h1 [|h2 [|h3 [|h4 s]]]]; try discriminate.
      destruct (hex4 h1 h2 h3 h4); [|discriminate].
      apply Hgo. subst n; simpl; lia.
    + destruct (escape e); [|discriminate]. apply Hgo. subst n; simpl; lia.
  - destruct (c <? 32); [discriminate|]. apply Hgo. subst n; simpl; lia.
Qed.

Lemma parse_number_shorter s lit rest :
  parse_number s = Parsed lit rest -> (length rest < length s)%nat.
Proof.
  unfold parse_number.
  set (s1 := match s with c :: s' => if c =? 45 then s' else s | [] => s end).
  assert (H1 : (length s1 <= length s)%nat).
  { subst s1. destruct s as [|c s]; [lia|]. destruct (c =? 45); simpl; lia. }
  destruct (match s1 with
            | c :: s' => if c =? 48 then Some s' else digits1 s1
            | [] => None end) as [s2|] eqn:H2; [|discriminate].
  assert (H2' : (length s2 < length s1)%nat).
  { destruct s1 as [|c s']; [discriminate|].
    destruct (c =? 48); [injection H2 as <-; simpl; lia|].
    apply digits1_shorter in H2. exact H2. }
  destruct (match s2 with
            | c :: s' => if c =? 46 then digits1 s' else Some s2
            | [] => Some s2 end) as [s3|] eqn:H3; [|discriminate].
  assert (H3' : (length s3 <= length s2)%nat).
  { destruct s2 as [|c s']; [injection H3 as <-; lia|].
    destruct (c =? 46); [|injection H3 as <-; lia].
    apply digits1_shorter in H3. simpl. lia. }
  match goal with
  | |- match ?e with _ => _ end = _ -> _ =>
      destruct e as [s4|] eqn:H4; [|discriminate]
  end.
  assert (H4' : (length s4 <= length s3)%nat).
  { destruct s3 as [|c s']; [injection H4 as <-; lia|].
    destruct ((c =? 101) || (c =? 69)); [|injection H4 as <-; lia].
    destruct s' as [|g s'']; [discriminate|].
    destruct ((g =? 43) || (g =? 45));
      apply digits1_shorter in H4; simpl in *; lia. }
  intros [= <- <-]. lia.
Qed.

Lemma parse_number_total s : parse_number s <> Exhausted.
Proof.
  unfold parse_number.
  repeat match goal with
  | |- context [match ?e with Some _ => _ | None => _ end] =>
      destruct e; try discriminate
  end.
Qed.

Lemma keyword_shorter word v s x rest :
  js word <> [] -> keyword word v s = Parsed x rest ->
  (length rest < length s)%nat.
Proof.
  unfold keyword. intros Hw. destruct (chars (js word) s) as [r|] eqn:Hc;
    [|discriminate].
  intros [= <- <-]. apply chars_Some in Hc. subst s. rewrite length_app.
  destruct (js word); [congruence | simpl; lia].
Qed.

Lemma keyword_total word v s : keyword word v s <> Exhausted.
Proof. unfold keyword. destruct (chars _ _); discriminate. Qed.

Lemma parse_shorter fuel :
  (forall s, shorter s (parse_value fuel s))
  /\ (forall s acc, shorter s (parse_members fuel s acc))
  /\ (forall s acc, shorter s (parse_elements fuel s acc)).
Proof.
  induction fuel as [|fuel (IHv & IHm & IHe)]; [repeat split|].
  pose proof (skip_length ws) as Hws.
  split; [|split].
  - intros [|c s]; cbn [parse_value]; [exact I|].
    destruct (c =? 123).
    { pose proof (Hws s). destruct (skip ws s) as [|c1 s1]; [exact I|].
      destruct (c1 =? 125); [simpl in *; lia|].
      specialize (IHm (c1 :: s1) []).
      destruct (parse_members fuel (c1 :: s1) []); simpl in *; auto; lia. }
    destruct (c =? 91).
    { pose proof (Hws s). destruct (skip ws s) as [|c1 s1]; [exact I|].
      destruct (c1 =? 93); [simpl in *; lia|].
      specialize (IHe (c1 :: s1) []).
      destruct (parse_elements fuel (c1 :: s1) []); simpl in *; auto; lia. }
    destruct (c =? 34).
    { destruct (parse_string s) as [l rest| |] eqn:Hp; try exact I.
      apply parse_string_shorter in Hp. simpl. lia. }
    destruct (c =? 116).
    { destruct (keyword "true" (VBool true) (c :: s)) eqn:Hk; try exact I.
      apply keyword_shorter in Hk; [exact Hk | discriminate]. }
    destruct (c =? 102).
    { destruct (keyword "false" (VBool false) (c :: s)) eqn:Hk; try exact I.
      apply keyword_shorter in Hk; [exact Hk | discriminate]. }
    destruct (c =? 110).
    { destruct (keyword "null" VNull (c :: s)) eqn:Hk; try exact I.
      apply keyword_shorter in Hk; [exact Hk | discriminate]. }
    destruct (parse_number (c :: s)) as [lit rest| |] eqn:Hp; try exact I.
    apply parse_number_shorter in Hp. exact Hp.
  - intros [|c s] acc; cbn [parse_members]; [exact I|].
    destruct (c =? 34); [|exact I].
    destruct (parse_string s) as [name s1| |] eqn:Hp; try exact I.
    apply parse_string_shorter in Hp.
    pose proof (Hws s1). destruct (skip ws s1) as [|c2 s2]; [exact I|].
    destruct (c2 =? 58); [|exact I].
    pose proof (Hws s2). specialize (IHv (skip ws s2)).
    destruct (parse_value fuel (skip ws s2)) as [v s3| |]; try exact I.
    pose proof (Hws s3). destruct (skip ws s3) as [|c4 s4]; [exact I|].
    destruct (c4 =? 44).
    { pose proof (Hws s4). specialize (IHm (skip ws s4) (set_prop name v acc)).
      destruct (parse_members fuel (skip ws s4) _); simpl in *; auto; lia. }
    destruct (c4 =? 125); simpl in *; [lia | exact I].
  - intros s acc; cbn [parse_elements].
    specialize (IHv s).
    destruct (parse_value fuel s) as [v s1| |]; try exact I.
    pose proof (Hws s1). destruct (skip ws s1) as [|c2 s2]; [exact I|].
    destruct (c2 =? 44).
    { pose proof (Hws s2). specialize (IHe (skip ws s2) (acc ++ [v])).
      destruct (parse_elements fuel (skip ws s2) _); simpl in *; auto; lia. }
    destruct (c2 =? 93); simpl in *; [lia | exact I].
Qed.

Lemma parse_enough fuel :
  (forall s, (2 * length s < fuel)%nat -> parse_value fuel s <> Exhausted)
  /\ (forall s acc, (2 * length s + 1 < fuel)%nat ->
        parse_members fuel s acc <> Exhausted)
  /\ (forall s acc, (2 * length s + 1 < fuel)%nat ->
        parse_elements fuel s acc <> Exhausted).
Proof.
  induction fuel as [|fuel (IHv & IHm & IHe)]; [repeat split; intros; lia|].
  pose proof (skip_length ws) as Hws.
  destruct (parse_shorter fuel) as (Sv & _ & _).
  split; [|split].
  - intros [|c s] Hf; cbn [parse_value]; [discriminate|]. simpl in Hf.
    destruct (c =? 123).
    { pose proof (Hws s). destruct (skip ws s) as [|c1 s1]; [discriminate|].
      destruct (c1 =? 125); [discriminate|]. apply IHm. simpl in *. lia. }
    destruct (c =? 91).
    { pose proof (Hws s). destruct (skip ws s) as [|c1 s1]; [discriminate|].
      destruct (c1 =? 93); [discriminate|]. apply IHe. simpl in *. lia. }
    destruct (c =? 34).
    { pose proof (parse_string_total s).
      destruct (parse_string s); congruence. }
    destruct (c =? 116); [apply keyword_total|].
    destruct (c =? 102); [apply keyword_total|].
    destruct (c =? 110); [apply keyword_total|].
    pose proof (parse_number_total (c :: s)).
    destruct (parse_number (c :: s)); congruence.
  - intros [|c s] acc Hf; cbn [parse_members]; [discriminate|]. simpl in Hf.
    destruct (c =? 34); [|discriminate].
    pose proof (parse_string_total s) as Ht.
    destruct (parse_string s) as [name s1| |] eqn:Hp; try congruence.
    apply parse_string_shorter in Hp.
    pose proof (Hws s1). destruct (skip ws s1) as [|c2 s2]; [discriminate|].
    destruct (c2 =? 58); [|discriminate].
    pose proof (Hws s2). pose proof (Sv (skip ws s2)) as Hs.
    assert (Hv : parse_value fuel (skip ws s2) <> Exhausted)
      by (apply IHv; simpl in *; lia).
    destruct (parse_value fuel (skip ws s2)) as [v s3| |]; try congruence.
    pose proof (Hws s3). destruct (skip ws s3) as [|c4 s4]; [discriminate|].
    pose proof (Hws s4).
    destruct (c4 =? 44); [apply IHm; simpl in *; lia|].
    destruct (c4 =? 125); discriminate.
  - intros s acc Hf; cbn [parse_elements].
    pose proof (Sv s) as Hs.
    assert (Hv : parse_value fuel s <> Exhausted) by (apply IHv; lia).
    destruct (parse_value fuel s) as [v s1| |]; try congruence.
    pose proof (Hws s1). destruct (skip ws s1) as [|c2 s2]; [discriminate|].
    pose proof (Hws s2).
    destruct (c2 =? 44); [apply IHe; simpl in *; lia|].
    destruct (c2 =? 93); discriminate.
Qed.

Lemma parse_value_enough text :
  parse_value (S (2 * length text)) (skip ws text) <> Exhausted.
Proof.
  apply parse_enough. pose proof (skip_length ws text). lia.
Qed.

End JSONFacts.

(** ** Objects and the store *)

Lemma jsstring_eqb_refl a : jsstring_eqb a a = true.
Proof.
  induction a as [|x a IH]; simpl; [reflexivity|].
  rewrite N.eqb_refl. exact IH.
Qed.

Lemma lookup_set_prop {V} name (v : V) props :
  lookup_prop name (set_prop name v props) = Some v.
Proof.
  induction props as [|[k x] props IH]; simpl.
  - rewrite jsstring_eqb_refl. reflexivity.
  - destruct (jsstring_eqb name k) eqn:E; simpl; rewrite E;
      [reflexivity | exact IH].
Qed.

Lemma read_write h l name x :
  (l < length h)%nat -> read (write h l name x) l = set_prop name x (read h l).
Proof.
  intros Hl. unfold write. unfold read at 1.
  rewrite list_lookup_insert_eq by exact Hl. reflexivity.
Qed.

Lemma read_write_ne h l l' name x :
  l <> l' -> read (write h l name x) l' = read h l'.
Proof.
  intros Hl. unfold read, write. rewrite list_lookup_insert_ne by exact Hl.
  reflexivity.
Qed.

Lemma write_length h l name x : length (write h l name x) = length h.
Proof. apply length_insert. Qed.

Lemma write_lookup_ne h l l' name x :
  l <> l' -> write h l name x !! l' = h !! l'.
Proof. intros Hl. unfold write. apply list_lookup_insert_ne, Hl. Qed.

Ltac store_lengths :=
  repeat first [ rewrite write_length | rewrite length_insert
               | rewrite length_app ];
  cbn [length]; lia.

Ltac store_lookup :=
  repeat first
    [ rewrite write_lookup_ne by store_lengths
    | rewrite list_lookup_insert_ne by store_lengths
    | rewrite lookup_app_l by store_lengths ].

Lemma jsstring_eqb_eq a b : jsstring_eqb a b = true <-> a = b.
Proof.
  split; [|intros ->; apply jsstring_eqb_refl].
  revert b; induction a as [|x a IH]; intros [|y b]; simpl; try discriminate;
    [reflexivity|].
  intros [->%N.eqb_eq Hb%IH]%andb_true_iff. congruence.
Qed.

Lemma lookup_set_prop_ne {V} name name' (v : V) props :
  jsstring_eqb name' name = false ->
  lookup_prop name' (set_prop name v props) = lookup_prop name' props.
Proof.
  intros Hne. induction props as [|[k x] props IH]; simpl.
  - rewrite Hne. reflexivity.
  - destruct (jsstring_eqb name k) eqn:E; simpl.
    + apply jsstring_eqb_eq in E. subst k. rewrite Hne. reflexivity.
    + rewrite IH. reflexivity.
Qed.

Lemma read_app_l h o l : (l < length h)%nat -> read (h ++ [o]) l = read h l.
Proof. intros Hl. unfold read. rewrite lookup_app_l by exact Hl. reflexivity. Qed. 

Lemma read_app_new h o : read (h ++ [o]) (length h) = o.
Proof.
  unfold read. rewrite (list_lookup_middle h [] o) by reflexivity. reflexivity.
Qed.

Lemma read_insert h l o : (l < length h)%nat -> read (<[l := o]> h) l = o.
Proof. intros Hl. unfold read. rewrite list_lookup_insert_eq by exact Hl. reflexivity. Qed.

Lemma read_insert_ne h l l' o : l <> l' -> read (<[l := o]> h) l' = read h l'.
Proof. intros Hl. unfold read. rewrite list_lookup_insert_ne by exact Hl. reflexivity. Qed.

Ltac store_read :=
  repeat first
    [ rewrite read_write_ne by store_lengths
    | rewrite read_insert_ne by store_lengths
    | rewrite read_write by store_lengths
    | rewrite read_insert by store_lengths
    | rewrite read_app_l by store_lengths ].

(** ** The client *)

Section ClientFacts.
Context `{Engine}.

Lemma new_Error_truthy e :
  ToBoolean e = true -> new_Error e = VError (js "Error") (ToString e).
Proof. destruct e; try discriminate; reflexivity. Qed.

(** Callbacks touch neither the client nor the store nor the transport. *)
Lemma then_fail_this p cb w : this (then_fail p cb w) = this w.
Proof.
  unfold then_fail, q_then, q_fail, call. destruct cb as [f|]; [|reflexivity].
  destruct p as [v|e]; cbn.
  - destruct (f [VNull; v]); cbn; [reflexivity|].
    destruct (f [e]); reflexivity.
  - destruct (f [e]); reflexivity.
Qed.

Lemma then_fail_heap p cb w : heap (then_fail p cb w) = heap w.
Proof.
  unfold then_fail, q_then, q_fail, call. destruct cb as [f|]; [|reflexivity].
  destruct p as [v|e]; cbn.
  - destruct (f [VNull; v]); cbn; [reflexivity|].
    destruct (f [e]); reflexivity.
  - destruct (f [e]); reflexivity.
Qed.

Lemma then_fail_sent p cb w : sent (then_fail p cb w) = sent w.
Proof.
  unfold then_fail, q_then, q_fail, call. destruct cb as [f|]; [|reflexivity].
  destruct p as [v|e]; cbn.
  - destruct (f [VNull; v]); cbn; [reflexivity|].
    destruct (f [e]); reflexivity.
  - destruct (f [e]); reflexivity.
Qed.

(** A callback that returns when it is handed a result is called once. *)
Lemma then_fail_once p (cb : callback) w :
  (forall v, p = Fulfilled v -> exists r, cb [VNull; v] = Return r) ->
  calls (then_fail p (Some cb) w)
  = calls w ++ [match p with
                | Fulfilled v => [VNull; v]
                | Rejected e => [e]
                end].
Proof.
  intros Hret. unfold then_fail, q_then, q_fail, call.
  destruct p as [v|e]; cbn.
  - destruct (Hret v eq_refl) as [r ->]. reflexivity.
  - destruct (cb [e]); reflexivity.
Qed.

(** What [prepare] does to the store: four objects are added, the first is
    the options object and the second its headers; the objects that were
    there are as they were. *)
Lemma prepare_frame c options h :
  fst (prepare c options h) = length h
  /\ length (snd (prepare c options h)) = (4 + length h)%nat
  /\ (forall l, (l < length h)%nat -> snd (prepare c options h) !! l = h !! l)
  /\ get_own (read (snd (prepare c options h)) (length h)) (js "headers")
     = Ref (S (length h)).
Proof.
  unfold prepare, alloc.
  destruct options as [url|l0]; cbv zeta;
  destruct (ToBoolean (key c)); cbn [fst snd];
    (split; [reflexivity|]); (split; [store_lengths|]);
    (split; [intros l Hl; store_lookup; reflexivity|]);
    rewrite ?read_write_ne by store_lengths;
    rewrite read_write by store_lengths;
    unfold get_own; rewrite lookup_set_prop; cbn [default from_option id];
    f_equal; store_lengths.
Qed.

(** The headers object that [prepare] builds, for a descriptor whose
    headers, if it has any, are an object of the store: the headers of the
    caller, one more property named headers that refers to the object of
    the three defaults, and the session header when there is a key. *)
Lemma prepare_headers c options h :
  let first := match options with
               | Path url => [(js "url", Val (VStr url))]
               | Descriptor l => read h l
               end in
  let overrides := get_own first (js "headers") in
  let merged :=
    defaults_from (defaults_from [] (source_object h overrides))
                  [(js "headers", Ref (3 + length h)%nat)] in
  (forall l, overrides = Ref l -> (l < length h)%nat) ->
  read (snd (prepare c options h)) (S (length h))
  = (if ToBoolean (key c)
     then set_prop (js "vine-session-id") (Val (key c)) merged
     else merged)
  /\ read (snd (prepare c options h)) (3 + length h)%nat
     = [(js "X-Vine-Client", Val (VStr X_VINE_CLIENT));
        (js "Accept-Language", Val (VStr ACCEPT_LANGUAGE));
        (js "User-Agent", Val (VStr USER_AGENT))].
Proof.
  intros first overrides merged Hwf.
  unfold prepare, alloc.
  destruct options as [url|l0]; cbv zeta.
  1: change (h ++ [[(js "url", Val (VStr url))]]) with (h ++ [first]).
  2: change (h ++ [read h l0]) with (h ++ [first]).
  all: clearbody first.
  all: set (h1 := h ++ [first]).
  all: assert (Ho : read h1 (length h) = first) by apply read_app_new.
  all: assert (L1 : length h1 = S (length h)) by (subst h1; store_lengths).
  all: assert (F1 : forall l, (l < length h)%nat -> read h1 l = read h l)
         by (intros; apply read_app_l; assumption).
  all: clearbody h1; rewrite Ho.
  all: set (h2 := write h1 (length h) (js "url") _).
  all: assert (L2 : length h2 = S (length h)) by (subst h2; store_lengths).
  all: assert (Ho2 : get_own (read h2 (length h)) (js "headers") = overrides)
         by (subst h2; rewrite read_write by lia; rewrite Ho; unfold get_own;
             rewrite lookup_set_prop_ne by reflexivity; reflexivity).
  all: assert (F2 : forall l, (l < length h)%nat -> read h2 l = read h l)
         by (intros l Hl; subst h2; rewrite read_write_ne by lia; auto).
  all: clearbody h2; rewrite L2.
  all: rewrite (read_app_l h2 [] (length h)) by lia; rewrite Ho2.
  all: match goal with
       | |- context [write ?a ?b (js "headers") (Ref (length ?r))] =>
           set (h6 := write a b (js "headers") (Ref (length r)))
       end.
  all: assert (L6 : length h6 = (4 + length h)%nat)
         by (subst h6; store_lengths).
  all: assert (Hd : read h6 (S (length h)) = []).
  1, 3: subst h6; rewrite read_write_ne by store_lengths;
        rewrite !read_app_l by store_lengths;
        rewrite <- L2; apply read_app_new.
  all: match goal with
       | |- context [source_object ?hh (Ref ?x)] =>
           assert (Hout : source_object hh (Ref x)
                          = [(js "headers", Ref (3 + length h)%nat)])
       end.
  1, 3: subst h6; cbn [source_object]; rewrite read_write by store_lengths;
        rewrite read_app_l by store_lengths; rewrite read_app_new;
        cbn [set_prop]; do 3 f_equal; store_lengths.
  all: assert (Hin : read h6 (3 + length h)%nat
                     = [(js "X-Vine-Client", Val (VStr X_VINE_CLIENT));
                        (js "Accept-Language", Val (VStr ACCEPT_LANGUAGE));
                        (js "User-Agent", Val (VStr USER_AGENT))]).
  1, 3: subst h6; rewrite read_write_ne by store_lengths;
        replace (3 + length h)%nat with (length ((h2 ++ [[]]) ++ [[]]))
          by store_lengths;
        apply read_app_new.
  all: assert (Hov : source_object h6 overrides = source_object h overrides).
  1, 3: destruct overrides as [v|l] eqn:Eo; [reflexivity|];
        cbn [source_object]; specialize (Hwf l eq_refl);
        subst h6; rewrite read_write_ne by store_lengths;
        rewrite !read_app_l by store_lengths; apply F2, Hwf.
  all: clearbody h6; rewrite Hd, Hout, Hov; fold merged.
  all: destruct (ToBoolean (key c)); cbn [snd]; split.
  all: store_read; try reflexivity.
  all: exact Hin.
Qed.

Lemma request_this net options cb w :
  this (snd (request net options cb w)) = this w.
Proof.
  unfold request. destruct (prepare _ _ _) as [o h]. cbn [snd].
  rewrite then_fail_this. reflexivity.
Qed.

Lemma request_heap net options cb w :
  heap (snd (request net options cb w))
  = snd (prepare (this w) options (heap w)).
Proof.
  unfold request. destruct (prepare _ _ _) as [o h]. cbn [snd].
  rewrite then_fail_heap. reflexivity.
Qed.

Lemma request_sent net options cb w :
  sent (snd (request net options cb w)) = sent w ++ [length (heap w)].
Proof.
  unfold request.
  pose proof (proj1 (prepare_frame (this w) options (heap w))) as Ho.
  destruct (prepare _ _ _) as [o h]. cbn [snd fst] in *.
  rewrite then_fail_sent. cbn [sent]. rewrite Ho. reflexivity.
Qed.

Lemma request_fst net options cb w :
  fst (request net options cb w)
  = respond (net (snd (prepare (this w) options (heap w)))
                 (fst (prepare (this w) options (heap w)))).
Proof. unfold request. destruct (prepare _ _ _). reflexivity. Qed.

(** The store of a request: the old objects, and the fresh options and
    headers objects. *)
Lemma request_frame net options cb w :
  (forall l, (l < length (heap w))%nat ->
     heap (snd (request net options cb w)) !! l = heap w !! l)
  /\ length (heap (snd (request net options cb w)))
     = (4 + length (heap w))%nat
  /\ get_own (read (heap (snd (request net options cb w))) (length (heap w)))
             (js "headers")
     = Ref (S (length (heap w))).
Proof.
  rewrite request_heap.
  destruct (prepare_frame (this w) options (heap w)) as (_ & ? & ? & ?).
  auto.
Qed.

(** [JSON.parse] never gives undefined. *)
Lemma parse_value_defined fuel :
  (forall s v rest,
      JSON.parse_value fuel s = JSON.Parsed v rest -> v <> VUndefined)
  /\ (forall s acc v rest,
        JSON.parse_members fuel s acc = JSON.Parsed v rest -> v <> VUndefined)
  /\ (forall s acc v rest,
        JSON.parse_elements fuel s acc = JSON.Parsed v rest -> v <> VUndefined).
Proof.
  induction fuel as [|fuel (IHv & IHm & IHe)];
    [repeat split; intros; discriminate|].
  split; [|split].
  - intros [|c s] v rest; cbn [JSON.parse_value]; [discriminate|].
    repeat match goal with
    | |- (if ?b then _ else _) = _ -> _ => destruct b
    | |- match skip JSON.ws ?s with _ => _ end = _ -> _ =>
        destruct (skip JSON.ws s)
    end; try discriminate;
    try (intros [= <- <-]; discriminate); eauto.
    + destruct (JSON.parse_string s); try discriminate.
      intros [= <- <-]; discriminate.
    + unfold JSON.keyword. destruct (chars _ _); try discriminate.
      intros [= <- <-]; discriminate.
    + unfold JSON.keyword. destruct (chars _ _); try discriminate.
      intros [= <- <-]; discriminate.
    + unfold JSON.keyword. destruct (chars _ _); try discriminate.
      intros [= <- <-]; discriminate.
    + destruct (JSON.parse_number _); try discriminate.
      intros [= <- <-]; discriminate.
  - intros [|c s] acc v rest; cbn [JSON.parse_members]; [discriminate|].
    destruct (c =? 34); [|discriminate].
    destruct (JSON.parse_string s) as [name s1| |]; try discriminate.
    destruct (skip JSON.ws s1) as [|c2 s2]; [discriminate|].
    destruct (c2 =? 58); [|discriminate].
    destruct (JSON.parse_value fuel (skip JSON.ws s2)) as [x s3| |];
      try discriminate.
    destruct (skip JSON.ws s3) as [|c4 s4]; [discriminate|].
    destruct (c4 =? 44); [eauto|].
    destruct (c4 =? 125); [|discriminate]. intros [= <- <-]; discriminate.
  - intros s acc v rest; cbn [JSON.parse_elements].
    destruct (JSON.parse_value fuel s) as [x s1| |]; try discriminate.
    destruct (skip JSON.ws s1) as [|c2 s2]; [discriminate|].
    destruct (c2 =? 44); [eauto|].
    destruct (c2 =? 93); [|discriminate]. intros [= <- <-]; discriminate.
Qed.

Lemma parse_defined text v : JSON.parse text = Return v -> v <> VUndefined.
Proof.
  unfold JSON.parse.
  destruct (JSON.parse_value _ _) as [x rest| |] eqn:Hp; try discriminate.
  destruct (skip JSON.ws rest); [|discriminate]. intros [= <-].
  eapply (proj1 (parse_value_defined _)), Hp.
Qed.

(** [JSON.parse] throws on malformed text only, its fuel is never used
    up: no value can be read, or something other than blanks follows
    it. *)
Lemma parse_throws text e :
  JSON.parse text = Throw e ->
  e = VError (js "SyntaxError") (SyntaxError_message text)
  /\ (JSON.parse_value (S (2 * length text)) (skip JSON.ws text)
      = JSON.Malformed
      \/ exists v rest,
           JSON.parse_value (S (2 * length text)) (skip JSON.ws text)
           = JSON.Parsed v rest /\ skip JSON.ws rest <> []).
Proof.
  unfold JSON.parse. pose proof (parse_value_enough text) as Hfuel.
  destruct (JSON.parse_value _ _) as [v rest| |] eqn:Hp; try congruence.
  - destruct (skip JSON.ws rest) as [|c r] eqn:Hsk; [discriminate|].
    intros [= <-]. split; [reflexivity|]. right. exists v, rest.
    rewrite Hsk. split; [reflexivity | discriminate].
  - intros [= <-]. auto.
Qed.

(** [login] and [logout] write the session through [authorize] only. *)
Lemma login_session net user password cb w :
  this (snd (login net user password cb w)) = this w
  \/ exists payload,
       this (snd (login net user password cb w)) = authorize payload.
Proof.
  unfold login.
  destruct (ToBoolean user); cbn [negb]; [|left; reflexivity].
  destruct (ToBoolean password); cbn [negb]; [|left; reflexivity].
  destruct (alloc _ (heap w)) as [d h1]. destruct (alloc _ h1) as [f h2].
  match goal with
  | |- context [request net ?o None ?w0] =>
      pose proof (request_this net o None w0) as Hthis;
      destruct (request net o None w0) as [req w1]
  end.
  cbn [snd with_heap this] in Hthis.
  destruct req as [v|e]; cbn [q_then authorize_bound snd];
    rewrite then_fail_this; [right; exists v; reflexivity | left; exact Hthis].
Qed.

Lemma logout_session net cb w :
  this (snd (logout net cb w)) = this w
  \/ exists payload, this (snd (logout net cb w)) = authorize payload.
Proof.
  unfold logout. destruct (alloc _ (heap w)) as [d h1].
  match goal with
  | |- context [request net ?o None ?w0] =>
      pose proof (request_this net o None w0) as Hthis;
      destruct (request net o None w0) as [req w1]
  end.
  cbn [snd with_heap this] in Hthis.
  destruct req as [v|e]; cbn [q_then authorize_bound snd];
    rewrite then_fail_this; [right; exists v; reflexivity | left; exact Hthis].
Qed.

(** The earlier snapshot: [logout] clears the session whatever the
    payload, and [login] clears it before the request is made. *)
Lemma legacy_logout_clears net w v :
  fst (Legacy.logout net w) = Fulfilled v ->
  this (snd (Legacy.logout net w)) = Legacy.initialize.
Proof.
  unfold Legacy.logout. destruct (alloc _ _) as [d h1].
  destruct (Legacy.request _ _ _) as [[x|e] w1]; cbn;
    [reflexivity | discriminate].
Qed.

Lemma legacy_login_reinitializes net user password w :
  match Legacy.login net user password w with
  | (Return (Rejected _), w') => this w' = Legacy.initialize
  | _ => True
  end.
Proof.
  unfold Legacy.login.
  destruct (ToBoolean user); cbn [negb]; [|exact I].
  destruct (ToBoolean password); cbn [negb]; [|exact I].
  destruct (alloc _ _) as [d h1]. destruct (alloc _ _) as [f h2].
  unfold Legacy.request. destruct (Legacy.prepare _ _ _) as [o h].
  destruct (Legacy.respond _) as [v|x]; cbn; [|reflexivity].
  unfold Legacy.authorize_bound. destruct (Get v (js "key")); cbn;
    [exact I | reflexivity].
Qed.

End ClientFacts.

(** ** Objects, options and headers *)

Lemma get_own_set_prop name name' x (o : object) :
  get_own (set_prop name x o) name'
  = if jsstring_eqb name' name then x else get_own o name'.
Proof.
  unfold get_own. destruct (jsstring_eqb name' name) eqn:E.
  - apply jsstring_eqb_eq in E. subst name'. rewrite lookup_set_prop.
    reflexivity.
  - rewrite lookup_set_prop_ne by exact E. reflexivity.
Qed.

Lemma is_undefined_eq x : is_undefined x = true -> x = Val VUndefined.
Proof. destruct x as [[]|]; try discriminate. reflexivity. Qed.

Lemma get_own_absent (o : object) name :
  name ∉ names o -> get_own o name = Val VUndefined.
Proof.
  unfold get_own. induction o as [|[k v] o IH]; [reflexivity|].
  change (names ((k, v) :: o)) with (k :: names o).
  rewrite not_elem_of_cons. cbn [lookup_prop]. intros [Hk Hn].
  destruct (jsstring_eqb name k) eqn:E.
  - apply jsstring_eqb_eq in E. congruence.
  - apply IH, Hn.
Qed.

Lemma get_own_cons k v (o : object) name :
  get_own ((k, v) :: o) name
  = if jsstring_eqb name k then v else get_own o name.
Proof. unfold get_own. cbn [lookup_prop]. destruct (jsstring_eqb name k); reflexivity. Qed.

Lemma lookup_prop_set_prop name name' x (o : object) :
  lookup_prop name' (set_prop name x o)
  = if jsstring_eqb name' name then Some x else lookup_prop name' o.
Proof.
  destruct (jsstring_eqb name' name) eqn:E.
  - apply jsstring_eqb_eq in E. subst name'. apply lookup_set_prop.
  - apply lookup_set_prop_ne, E.
Qed.

Lemma lookup_prop_absent (o : object) name :
  name ∉ names o -> lookup_prop name o = None.
Proof.
  induction o as [|[k v] o IH]; [reflexivity|].
  change (names ((k, v) :: o)) with (k :: names o).
  rewrite not_elem_of_cons. cbn [lookup_prop]. intros [Hk Hn].
  destruct (jsstring_eqb name k) eqn:E.
  - apply jsstring_eqb_eq in E. congruence.
  - apply IH, Hn.
Qed.

(** [_.defaults] from an object whose names are distinct: a name is
    taken from the source where the destination resolves to undefined. *)
Lemma defaults_from_lookup dst src name :
  NoDup (names src) ->
  lookup_prop name (defaults_from dst src)
  = match lookup_prop name src with
    | Some x => if resolves_undefined dst name then Some x
                else lookup_prop name dst
    | None => lookup_prop name dst
    end.
Proof.
  unfold defaults_from. revert dst.
  induction src as [|[k v] src IH]; intros dst Hnd; cbn [fold_left fst snd].
  - reflexivity.
  - change (names ((k, v) :: src)) with (k :: names src) in Hnd.
    apply NoDup_cons in Hnd as [Hk Hnd]. rewrite IH by exact Hnd.
    cbn [lookup_prop].
    destruct (jsstring_eqb name k) eqn:E.
    + apply jsstring_eqb_eq in E. subst k.
      rewrite (lookup_prop_absent src name) by exact Hk.
      destruct (resolves_undefined dst name) eqn:Ed; [|reflexivity].
      rewrite lookup_prop_set_prop, jsstring_eqb_refl. reflexivity.
    + destruct (resolves_undefined dst k); [|reflexivity].
      unfold resolves_undefined. rewrite !lookup_prop_set_prop, E.
      reflexivity.
Qed.

(** Names that are written out are compared by evaluation. *)
Ltac names_eqb :=
  repeat match goal with
  | |- context [jsstring_eqb (js ?a) (js ?b)] =>
      let r := eval vm_compute in (jsstring_eqb (js a) (js b)) in
      change (jsstring_eqb (js a) (js b)) with r
  end.

Ltac props :=
  cbv [set_prop get_own lookup_prop]; names_eqb;
  cbv beta iota; cbn [default from_option id slot_ToString ToString].

Section Dispatch.
Context `{Engine}.

(** The options object that [prepare] builds: a copy of the caller's,
    property by property, with the address put before the url and with
    headers of its own. *)
Lemma prepare_options c options h :
  let first := match options with
               | Path url => [(js "url", Val (VStr url))]
               | Descriptor l => read h l
               end in
  read (snd (prepare c options h)) (length h)
  = set_prop (js "headers") (Ref (S (length h)))
      (set_prop (js "url")
         (Val (VStr (API_ORIGIN ++ slot_ToString (get_own first (js "url")))))
         first).
Proof.
  intros first. unfold prepare, alloc.
  destruct options as [url|l0]; cbv zeta.
  1: change (h ++ [[(js "url", Val (VStr url))]]) with (h ++ [first]).
  2: change (h ++ [read h l0]) with (h ++ [first]).
  all: clearbody first.
  all: set (h1 := h ++ [first]).
  all: assert (Ho : read h1 (length h) = first) by apply read_app_new.
  all: assert (L1 : length h1 = S (length h)) by (subst h1; store_lengths).
  all: clearbody h1; rewrite Ho.
  all: set (h2 := write h1 (length h) (js "url") _).
  all: assert (L2 : length h2 = S (length h)) by (subst h2; store_lengths).
  all: assert (Ho2 : read h2 (length h)
                     = set_prop (js "url")
                         (Val (VStr (API_ORIGIN
                            ++ slot_ToString (get_own first (js "url")))))
                         first)
         by (subst h2; rewrite read_write by lia; rewrite Ho; reflexivity).
  all: clearbody h2; rewrite L2.
  all: destruct (ToBoolean (key c)); cbn [fst snd].
  all: rewrite ?read_write_ne by store_lengths.
  all: rewrite read_write by store_lengths.
  all: rewrite read_insert_ne by store_lengths.
  all: rewrite read_write_ne by store_lengths.
  all: rewrite !read_app_l by store_lengths.
  all: rewrite Ho2; reflexivity.
Qed.

(** What [request] hands to the transport, and what it answers with. *)
Lemma request_options net options cb w :
  let h := heap w in
  let first := match options with
               | Path url => [(js "url", Val (VStr url))]
               | Descriptor l => read h l
               end in
  let w' := snd (request net options cb w) in
  sent w' = sent w ++ [length h]
  /\ read (heap w') (length h)
     = set_prop (js "headers") (Ref (S (length h)))
         (set_prop (js "url")
            (Val (VStr (API_ORIGIN
                        ++ slot_ToString (get_own first (js "url")))))
            first)
  /\ this w' = this w
  /\ fst (request net options cb w) = respond (net (heap w') (length h)).
Proof.
  intros h first w'. subst w'.
  rewrite request_sent, request_this, request_fst, request_heap.
  rewrite (proj1 (prepare_frame (this w) options (heap w))).
  pose proof (prepare_options (this w) options (heap w)) as Ho.
  cbv zeta in Ho. auto.
Qed.

(** The headers that [prepare] builds, name by name. *)
Lemma prepare_headers_by_name c options h name :
  let first := match options with
               | Path url => [(js "url", Val (VStr url))]
               | Descriptor l => read h l
               end in
  let src := source_object h (get_own first (js "headers")) in
  (forall l, get_own first (js "headers") = Ref l -> (l < length h)%nat) ->
  NoDup (names src) ->
  lookup_prop name (read (snd (prepare c options h)) (S (length h)))
  = if ToBoolean (key c) && jsstring_eqb name (js "vine-session-id")
    then Some (Val (key c))
    else if jsstring_eqb name (js "headers")
         then match lookup_prop name src with
              | Some x => if is_undefined x
                          then Some (Ref (3 + length h)%nat) else Some x
              | None => Some (Ref (3 + length h)%nat)
              end
         else match lookup_prop name src with
              | Some x => if inherited name then None else Some x
              | None => None
              end.
Proof.
  intros first src Hwf Hnd.
  destruct (prepare_headers c options h Hwf) as [E _].
  fold first in E. fold src in E. rewrite E. clear E.
  assert (Hm : lookup_prop name (defaults_from (defaults_from [] src)
                          [(js "headers", Ref (3 + length h)%nat)])
               = if jsstring_eqb name (js "headers")
                 then match lookup_prop name src with
                      | Some x => if is_undefined x
                                  then Some (Ref (3 + length h)%nat)
                                  else Some x
                      | None => Some (Ref (3 + length h)%nat)
                      end
                 else match lookup_prop name src with
                      | Some x => if inherited name then None else Some x
                      | None => None
                      end).
  { rewrite defaults_from_lookup by exact (NoDup_singleton (js "headers")).
    cbn [lookup_prop]. unfold resolves_undefined.
    rewrite !defaults_from_lookup by exact Hnd.
    unfold resolves_undefined. cbn [lookup_prop].
    destruct (jsstring_eqb name (js "headers")) eqn:Eh.
    - apply jsstring_eqb_eq in Eh. subst name.
      change (inherited (js "headers")) with false. cbn [negb].
      destruct (lookup_prop (js "headers") src) as [x|]; [|reflexivity].
      destruct (is_undefined x); reflexivity.
    - destruct (lookup_prop name src) as [x|]; [|reflexivity].
      destruct (inherited name); reflexivity. }
  destruct (ToBoolean (key c)); cbn [andb]; [|exact Hm].
  rewrite lookup_prop_set_prop.
  destruct (jsstring_eqb name (js "vine-session-id")); [reflexivity | exact Hm].
Qed.

(** The first call of a callback hands it the outcome. *)
Lemma then_fail_first p (f : callback) w :
  exists more,
    calls (then_fail p (Some f) w)
    = calls w ++ [match p with
                  | Fulfilled v => [VNull; v]
                  | Rejected e => [e]
                  end] ++ more.
Proof.
  unfold then_fail, q_then, q_fail, call. destruct p as [v|e]; cbn.
  - destruct (f [VNull; v]) as [r|e]; cbn.
    + exists []. reflexivity.
    + destruct (f [e]); cbn; exists [[e]]; rewrite <- app_assoc; reflexivity.
  - destruct (f [e]); cbn; exists []; reflexivity.
Qed.

(** The calls a callback gets depend on the calls made before only. *)
Lemma then_fail_calls p cb w w' :
  calls w = calls w' ->
  calls (then_fail p cb w) = calls (then_fail p cb w').
Proof.
  intros E. unfold then_fail, q_then, q_fail, call.
  destruct cb as [f|]; [|exact E].
  destruct p as [v|e]; cbn.
  - destruct (f [VNull; v]); cbn; [congruence|].
    destruct (f [e]); cbn; congruence.
  - destruct (f [e]); cbn; congruence.
Qed.

Lemma request_calls net options cb w :
  calls (snd (request net options cb w))
  = calls (then_fail (fst (request net options cb w)) cb w).
Proof.
  unfold request. destruct (prepare _ _ _) as [o h]. cbn [fst snd].
  apply then_fail_calls. reflexivity.
Qed.

End Dispatch.

(** ** The steps of [login] and [logout] *)

Section Sessions.
Context `{Engine}.

(** The headers of a request whose caller gave none. *)
Lemma request_headers_default net options cb w name :
  let h := heap w in
  let first := match options with
               | Path url => [(js "url", Val (VStr url))]
               | Descriptor l => read h l
               end in
  get_own first (js "headers") = Val VUndefined ->
  get_own (read (heap (snd (request net options cb w))) (S (length h))) name
  = if ToBoolean (key (this w)) && jsstring_eqb name (js "vine-session-id")
    then Val (key (this w))
    else if jsstring_eqb name (js "headers") then Ref (3 + length h)%nat
         else Val VUndefined.
Proof.
  intros h first Hnone. rewrite request_heap.
  pose proof (prepare_headers_by_name (this w) options (heap w) name) as Hh.
  cbv zeta in Hh. fold h first in Hh. rewrite Hnone in Hh.
  specialize (Hh ltac:(discriminate) ltac:(constructor)).
  cbn [source_object lookup_prop] in Hh.
  transitivity (default (Val VUndefined)
                  (if ToBoolean (key (this w))
                      && jsstring_eqb name (js "vine-session-id")
                   then Some (Val (key (this w)))
                   else if jsstring_eqb name (js "headers")
                        then Some (Ref (3 + length h)%nat) else None));
    [exact (f_equal (default (Val VUndefined)) Hh)|].
  destruct (ToBoolean (key (this w)) && jsstring_eqb name (js "vine-session-id"));
    [reflexivity|].
  destruct (jsstring_eqb name (js "headers")); reflexivity.
Qed.

(** What follows the request in [login] and [logout]. *)
Lemma then_authorize req cb w1 :
  let promise := match req with
                 | Fulfilled v => Fulfilled (client_value (authorize v))
                 | Rejected e => Rejected e
                 end in
  let r := (let (promise, w2) := q_then req authorize_bound w1 in
            (promise, then_fail promise cb w2)) in
  fst r = promise
  /\ heap (snd r) = heap w1
  /\ sent (snd r) = sent w1
  /\ this (snd r) = match req with
                    | Fulfilled v => authorize v
                    | Rejected _ => this w1
                    end
  /\ calls (snd r) = calls (then_fail promise cb w1).
Proof.
  destruct req as [v|e]; cbn [q_then authorize_bound fst snd];
    rewrite then_fail_heap, then_fail_sent, then_fail_this;
    repeat split.
  all: apply then_fail_calls; reflexivity.
Qed.

(** The steps of [login] once the credentials are accepted. *)
Lemma login_steps net user password cb w :
  ToBoolean user = true ->
  ToBoolean password = true ->
  let len := length (heap w) in
  let r := login net user password cb w in
  let answer := respond (net (heap (snd r)) (2 + len)%nat) in
  let promise := match answer with
                 | Fulfilled v => Fulfilled (client_value (authorize v))
                 | Rejected e => Rejected e
                 end in
  sent (snd r) = sent w ++ [(2 + len)%nat]
  /\ read (heap (snd r)) (2 + len)%nat
     = [(js "method", Val (VStr (js "post")));
        (js "url", Val (VStr (API_ORIGIN ++ js "users/authenticate")));
        (js "form", Ref (S len));
        (js "headers", Ref (3 + len)%nat)]
  /\ read (heap (snd r)) (S len)
     = [(js "deviceToken",
         Val (VStr (sha256_hex (join3 (VStr DEVICE_TOKEN_SEED) user password))));
        (js "username", Val user);
        (js "password", Val password)]
  /\ get_own (read (heap (snd r)) (3 + len)%nat) (js "vine-session-id")
     = (if ToBoolean (key (this w)) then Val (key (this w))
        else Val VUndefined)
  /\ fst r = Return promise
  /\ this (snd r) = match answer with
                    | Fulfilled v => authorize v
                    | Rejected _ => this w
                    end
  /\ calls (snd r) = calls (then_fail promise cb w).
Proof.
  intros Hu Hp len r answer promise. subst promise answer r. unfold login.
  rewrite Hu, Hp. cbn [negb]. unfold alloc. cbv zeta iota.
  change (ToBoolean (VStr DEVICE_TOKEN)) with false. cbv iota.
  unfold createDeviceToken.
  match goal with
  | |- context [request net _ None (with_heap ?h w)] => set (h3 := h)
  end.
  assert (L3 : length h3 = (2 + len)%nat) by (subst h3 len; store_lengths).
  assert (R0 : read h3 len
               = [(js "method", Val (VStr (js "post")));
                  (js "url", Val (VStr (js "users/authenticate")));
                  (js "form", Ref (S len))]).
  { subst h3 len. rewrite read_write by store_lengths.
    rewrite read_app_l, read_app_new by store_lengths.
    rewrite length_app. cbn [length]. rewrite Nat.add_1_r. reflexivity. }
  assert (R1 : h3 !! S len
               = Some [(js "deviceToken",
                   Val (VStr (sha256_hex
                                (join3 (VStr DEVICE_TOKEN_SEED) user password))));
                  (js "username", Val user);
                  (js "password", Val password)]).
  { subst h3 len. rewrite write_lookup_ne by lia.
    replace (S (length (heap w))) with (length (heap w ++ [[(js "method", Val (VStr (js "post")));
                  (js "url", Val (VStr (js "users/authenticate")))]]))
      by store_lengths.
    apply list_lookup_middle. reflexivity. }
  clearbody h3.
  pose proof (request_options net (Descriptor len) None (with_heap h3 w))
    as (Hs & Hr & Ht & Hf).
  pose proof (request_frame net (Descriptor len) None (with_heap h3 w))
    as (Hold & _).
  pose proof (request_calls net (Descriptor len) None (with_heap h3 w)) as Hc.
  pose proof (request_headers_default net (Descriptor len) None
                (with_heap h3 w) (js "vine-session-id")) as Hh.
  cbv zeta in Hh.
  cbn [heap with_heap sent this calls fst snd then_fail] in Hs, Hr, Ht, Hf, Hold, Hc, Hh.
  rewrite L3 in Hs, Hr, Hf, Hold, Hh. rewrite R0 in Hr, Hh.
  specialize (Hh eq_refl).
  fold len.
  destruct (request net (Descriptor len) None (with_heap h3 w)) as [req w1].
  cbn [fst snd] in Hs, Hr, Ht, Hf, Hold, Hc, Hh.
  pose proof (then_authorize req cb w1) as (Tf & Th & Tse & Tt & Tc).
  cbv zeta in Tf, Th, Tse, Tt, Tc.
  destruct (q_then req authorize_bound w1) as [promise w2].
  cbn [fst snd] in Tf, Th, Tse, Tt, Tc |- *.
  rewrite Th, Tse, Tt, Tc, Tf, <- Hf.
  split; [exact Hs|]. split; [rewrite Hr; props; reflexivity|].
  split.
  { pose proof (Hold (S len) ltac:(lia)) as E.
    exact (f_equal (default []) (eq_trans E R1)). }
  split.
  { etransitivity; [exact Hh|]. names_eqb. rewrite andb_true_r.
    reflexivity. }
  split; [reflexivity|]. split; [rewrite Ht; reflexivity|].
  apply then_fail_calls. exact Hc.
Qed.

(** The calls a callback gets, in order. *)
Lemma then_fail_list p cb w :
  calls (then_fail p cb w)
  = calls w ++ match cb with
               | None => []
               | Some f =>
                   match p with
                   | Fulfilled v =>
                       match f [VNull; v] with
                       | Return _ => [[VNull; v]]
                       | Throw e => [[VNull; v]; [e]]
                       end
                   | Rejected e => [[e]]
                   end
               end.
Proof.
  unfold then_fail, q_then, q_fail, call.
  destruct cb as [f|]; [|rewrite app_nil_r; reflexivity].
  destruct p as [v|e]; cbn.
  - destruct (f [VNull; v]) as [r|x]; cbn; [reflexivity|].
    destruct (f [x]); cbn; rewrite <- app_assoc; reflexivity.
  - destruct (f [e]); reflexivity.
Qed.

(** A key, when the client holds one, is the session header of any
    request. *)
Lemma request_session_header net options cb w :
  let first := match options with
               | Path url => [(js "url", Val (VStr url))]
               | Descriptor l => read (heap w) l
               end in
  ToBoolean (key (this w)) = true ->
  (forall l, get_own first (js "headers") = Ref l ->
             (l < length (heap w))%nat) ->
  get_own (read (heap (snd (request net options cb w)))
                (S (length (heap w))))
          (js "vine-session-id")
  = Val (key (this w)).
Proof.
  intros first Hk Hwf. rewrite request_heap.
  destruct (prepare_headers (this w) options (heap w) Hwf) as [-> _].
  rewrite Hk, get_own_set_prop, jsstring_eqb_refl. reflexivity.
Qed.

Lemma get_prop_truthy v name :
  ToBoolean (get_prop v name) = true -> ToBoolean v = true.
Proof. destruct v; try discriminate; reflexivity. Qed.

(** A client made from the own properties of a client holds what that
    client holds. *)
Lemma authorize_client_value c : authorize (client_value c) = c.
Proof.
  destruct c as [k u n]. unfold authorize, and_get, client_value.
  cbn [ToBoolean get_prop key userId username].
  cbv [lookup_prop]. names_eqb. reflexivity.
Qed.


End Sessions.

(** ** The model at work *)

Example repair_two_ids :
  repair (jq "{'data':{'userId': 123456789012345678, 'id':5,'x':1}}")
  = jq "{'data':{'userId': '123456789012345678', 'id':'5','x':1}}".
Proof. vm_compute. reflexivity. Qed.

(** The colon must follow the name at once. *)
Example repair_wants_the_colon :
  repair (jq "{'tagId' : 5}") = jq "{'tagId' : 5}".
Proof. vm_compute. reflexivity. Qed.

Example parse_all_kinds :
  JSON.parse (jq " [1, -2.5e+3, 'aA\n', true, null, {'a':{'b':[[]]}, 'a':2}] ")
  = Return (VArr [VNum (js "1"); VNum (js "-2.5e+3");
                  VStr [97; 65; 10]; VBool true; VNull;
                  VObj [(js "a", VNum (js "2"))]]).
Proof. vm_compute. reflexivity. Qed.

Example parse_rejects :
  JSON.parse (jq "[1,]") = Throw (VError (js "SyntaxError")
                                         (js "Unexpected token in JSON"))
  /\ JSON.parse (jq "01") = Throw (VError (js "SyntaxError")
                                          (js "Unexpected token in JSON"))
  /\ JSON.parse (jq "{'a':1,}") = Throw (VError (js "SyntaxError")
                                               (js "Unexpected token in JSON"))
  /\ JSON.parse (jq "{'a':1} x") = Throw (VError (js "SyntaxError")
                                                (js "Unexpected token in JSON"))
  /\ JSON.parse [] = Throw (VError (js "SyntaxError")
                                   (js "Unexpected token in JSON")).
Proof. vm_compute. repeat split. Qed.

(** Envelopes (testable property 2 of the specification). *)
Example unwrap_data :
  respond {| error := VNull; body := VStr (jq "{'data':{'x':1}}") |}
  = Fulfilled (VObj [(js "x", VNum (js "1"))]).
Proof. vm_compute. reflexivity. Qed.

Example unwrap_large_id :
  respond {| error := VNull;
             body := VStr (jq "{'data':{'userId':123456789012345678}}") |}
  = Fulfilled (VObj [(js "userId", VStr (js "123456789012345678"))]).
Proof. vm_compute. reflexivity. Qed.

(** A failed exchange, and a body that parses to null. *)
Example transport_failure :
  respond {| error := VError (js "Error") (js "ECONNREFUSED");
             body := VUndefined |}
  = Rejected (VError (js "Error") (js "Error: ECONNREFUSED")).
Proof. vm_compute. reflexivity. Qed.

Example null_body :
  respond {| error := VNull; body := VStr (js "null") |}
  = Rejected (VError (js "Error")
                (js "TypeError: Cannot read property error")).
Proof. vm_compute. reflexivity. Qed.

(** A login that succeeds (testable property 4): the session is what the
    response carries, the identifier as a string. *)
Example login_success :
  this (snd (login (answers (jq "{'data':{'key':'k','userId':907,'username':'u'}}"))
                   (VStr (js "u")) (VStr (js "p")) None fresh_world))
  = {| key := VStr (js "k"); userId := VStr (js "907");
       username := VStr (js "u") |}.
Proof. vm_compute. reflexivity. Qed.

(** A logout that fails (testable property 5). *)
Example logout_failure :
  this (snd (logout (fails (VError (js "Error") (js "ETIMEDOUT"))) None
                    signed_in))
  = this signed_in.
Proof. vm_compute. reflexivity. Qed.

(** [authorize(undefined)], once or twice (testable property 6). *)
Example authorize_undefined :
  authorize VUndefined
  = {| key := VUndefined; userId := VUndefined; username := VUndefined |}.
Proof. vm_compute. reflexivity. Qed.

(** The session header (testable property 7): there with a credential,
    not there without. *)
Example session_header :
  get_own (read (heap (snd (request (answers (jq "{}")) (Path (js "users/me"))
                                    None signed_in))) 1%nat)
          (js "vine-session-id")
  = Val (VStr (js "k1"))
  /\ lookup_prop (js "vine-session-id")
       (read (heap (snd (request (answers (jq "{}")) (Path (js "users/me"))
                                 None fresh_world))) 1%nat)
     = None.
Proof. vm_compute. repeat split. Qed.

(** * The claims of the specification *)

(** C1.  [request] rewrites the body before it parses it, and the rewrite
    quotes every identifier.  Wherever one of the seven quoted identifier
    names followed by a colon ([k], a key of [id_keys]) occurs in a body,
    followed by any blanks and then by a numeric literal (a non-empty run
    of digits, of any length, that no further digit follows),
    [body.replace] puts out the same key and blanks, the same digits
    between double quotes, and goes on with the rest of the body, so that
    a comma after the digits stays where it was; the text before the
    occurrence is rewritten on its own.  A body in which none of the keys
    occurs is returned as it is.  What [request] hands to [JSON.parse],
    when the transport reports no error and the body is a string, is the
    rewritten text. *)
Theorem repair_quotes_ids `{Engine} :
  (forall pre k blanks digits rest,
      In k id_keys ->
      forallb space blanks = true ->
      forallb digit digits = true -> digits <> [] ->
      run digit rest = [] ->
      body_replace (VStr (pre ++ k ++ blanks ++ digits ++ rest))
      = Return (repair pre ++ k ++ blanks ++ [dq] ++ digits ++ [dq]
                ++ repair rest)
      /\ forall rest', rest = comma :: rest' ->
           body_replace (VStr rest) = Return (comma :: repair rest'))
  /\ (forall s, key_free s = true -> body_replace (VStr s) = Return s)
  /\ (forall net options cb w s,
        let o := fst (prepare (this w) options (heap w)) in
        let h := snd (prepare (this w) options (heap w)) in
        ToBoolean (error (net h o)) = false ->
        body (net h o) = VStr s ->
        body_replace (body (net h o)) = Return (repair s)
        /\ fst (request net options cb w) = unwrap (repair s)).
Proof.
  split; [|split].
  2: { intros s Hs. cbn [body_replace]. f_equal. apply repair_key_free, Hs. }
  2: { intros net options cb w s o h Herr Hbody. rewrite Hbody.
       split; [reflexivity|].
       rewrite request_fst. fold o h. unfold respond.
       rewrite Herr, Hbody. reflexivity. }
  intros pre k blanks digits rest Hin Hb Hd Hne Hrest. cbn [body_replace].
  split; [|intros rest' ->; f_equal; apply repair_comma].
  f_equal.
  destruct (id_keys_quote k Hin) as (c & t & Hk & Hc).
  rewrite Hk at 1. cbn [app]. rewrite repair_app by exact Hc.
  f_equal. change (dq :: c :: t ++ ?x) with ((dq :: c :: t) ++ x). rewrite <- Hk.
  rewrite repair_step, id_match_key by exact Hin.
  assert (Hsp : run space (digits ++ rest) = []).
  { destruct digits as [|d ds]; [congruence|]. simpl in Hd |- *.
    apply andb_true_iff in Hd as [Hd _]. rewrite (digit_not_space d Hd).
    reflexivity. }
  unfold finish.
  rewrite (run_all space), (skip_all space) by exact Hb.
  rewrite Hsp, (skip_none space) by exact Hsp.
  rewrite (run_all digit), (skip_all digit) by exact Hd.
  rewrite Hrest, (skip_none digit) by exact Hrest.
  rewrite !app_nil_r.
  destruct rest as [|x rest'].
  - cbn [chars]. unfold expand, VINE_ID_REPLACE.
    cbn [map concat capture Nat.eqb default from_option id app].
    repeat (rewrite <- app_assoc; cbn [app]). reflexivity.
  - cbn [chars]. destruct (N.eqb_spec comma x) as [<-|Hx];
      [rewrite repair_comma|]; unfold expand, VINE_ID_REPLACE;
      cbn [map concat capture Nat.eqb default from_option id app];
      repeat (rewrite <- app_assoc; cbn [app]); reflexivity.
Qed.

(** A user identifier of twenty-three digits, far above 2^53, keeps all
    its digits and its comma, and reaches the caller of [request] as a
    string; a body without identifiers is not touched. *)
Lemma repair_quotes_ids_witness :
  body_replace
    (VStr (jq "{'data':{'userId': 12345678901234567890123,'x':1}}"))
  = Return (jq "{'data':{'userId': '12345678901234567890123','x':1}}")
  /\ body_replace (VStr (jq "{'data':{'x':1}}"))
     = Return (jq "{'data':{'x':1}}")
  /\ fst (request
            (answers (jq "{'data':{'userId': 12345678901234567890123,'x':1}}"))
            (Path (js "users/me")) None fresh_world)
     = Fulfilled (VObj [(js "userId", VStr (js "12345678901234567890123"));
                        (js "x", VNum (js "1"))]).
Proof.
  destruct repair_quotes_ids as (Hocc & Hfree & Hreq). split; [|split].
  - destruct (Hocc (jq "{'data':{") (jq "'userId':") (js " ")
                   (js "12345678901234567890123") (jq ",'x':1}}"))
      as [E _].
    + unfold id_keys. simpl. auto 10.
    + reflexivity.
    + reflexivity.
    + discriminate.
    + reflexivity.
    + etransitivity; [exact E | vm_compute; reflexivity].
  - apply Hfree. reflexivity.
  - destruct (Hreq (answers (jq "{'data':{'userId': 12345678901234567890123,'x':1}}"))
                   (Path (js "users/me")) None fresh_world
                   (jq "{'data':{'userId': 12345678901234567890123,'x':1}}"))
      as [_ E].
    + reflexivity.
    + reflexivity.
    + etransitivity; [exact E | vm_compute; reflexivity].
Defined.

(** C2.  The default headers do not reach the request.  [request] hands
    [_.defaults] a source whose only property, named headers, holds the
    object of the three defaults.  So for every request of a path, on
    every client and store, the headers object of the options handed to
    the transport has that one property, followed by vine-session-id when
    the client holds a key, and has no X-Vine-Client, Accept-Language or
    User-Agent; these sit in the object the headers property refers to. *)
Theorem default_headers_are_nested `{Engine} net url cb w :
  let w' := snd (request net (Path url) cb w) in
  let o := length (heap w) in
  let d := S (length (heap w)) in
  let inner := (3 + length (heap w))%nat in
  sent w' = sent w ++ [o]
  /\ get_own (read (heap w') o) (js "headers") = Ref d
  /\ read (heap w') d
     = (if ToBoolean (key (this w))
        then [(js "headers", Ref inner);
              (js "vine-session-id", Val (key (this w)))]
        else [(js "headers", Ref inner)])
  /\ lookup_prop (js "X-Vine-Client") (read (heap w') d) = None
  /\ lookup_prop (js "Accept-Language") (read (heap w') d) = None
  /\ lookup_prop (js "User-Agent") (read (heap w') d) = None
  /\ read (heap w') inner
     = [(js "X-Vine-Client", Val (VStr X_VINE_CLIENT));
        (js "Accept-Language", Val (VStr ACCEPT_LANGUAGE));
        (js "User-Agent", Val (VStr USER_AGENT))].
Proof.
  intros w' o d inner.
  split; [apply request_sent|].
  subst w'. rewrite request_heap.
  destruct (prepare_frame (this w) (Path url) (heap w)) as (_ & _ & _ & Hhdr).
  destruct (prepare_headers (this w) (Path url) (heap w)) as [Hd Hin];
    [discriminate|].
  fold o in Hhdr. fold d in Hhdr, Hd. fold inner in Hd, Hin.
  split; [exact Hhdr|].
  assert (Hd' : read (snd (prepare (this w) (Path url) (heap w))) d
                = (if ToBoolean (key (this w))
                   then [(js "headers", Ref inner);
                         (js "vine-session-id", Val (key (this w)))]
                   else [(js "headers", Ref inner)]))
    by (rewrite Hd; destruct (ToBoolean (key (this w))); reflexivity).
  split; [exact Hd'|].
  rewrite Hd'. destruct (ToBoolean (key (this w))); repeat split; exact Hin.
Qed.

(** C3 (amended).  When the transport reports no error and the repaired
    body parses to an envelope other than null: if the error field of the
    envelope is truthy (for a string: not empty), the promise is rejected
    with an Error; its message is the string conversion of that value,
    which is the value itself when it is a string, and when the value has
    no string conversion (an object with a property toString of its own, or
    an array that holds one) the message is the text of the TypeError that
    the conversion throws; otherwise the promise is fulfilled with the data
    field, undefined when there is none. *)
Theorem envelope_unwrap `{Engine} r text data :
  ToBoolean (error r) = false ->
  body_replace (body r) = Return text ->
  JSON.parse text = Return data ->
  data <> VNull ->
  (ToBoolean (get_prop data (js "error")) = true ->
     (converts (get_prop data (js "error")) = true ->
        respond r
        = Rejected (VError (js "Error")
                      (ToString (get_prop data (js "error")))))
     /\ (converts (get_prop data (js "error")) = false ->
           respond r
           = Rejected (VError (js "Error")
                         (Error_toString (js "TypeError")
                            (ToPrimitive_message
                               (get_prop data (js "error"))))))
     /\ forall s, get_prop data (js "error") = VStr s ->
          respond r = Rejected (VError (js "Error") s))
  /\ (ToBoolean (get_prop data (js "error")) = false ->
        respond r = Fulfilled (get_prop data (js "data"))).
Proof.
  intros Herr Hbody Hparse Hnull.
  pose proof (parse_defined _ _ Hparse) as Hdef.
  unfold respond, unwrap. rewrite Herr, Hbody, Hparse.
  assert (Hget : forall name, Get data name = Return (get_prop data name))
    by (intros name; destruct data; try reflexivity; congruence).
  rewrite !Hget. split; intros He; rewrite He; [|reflexivity].
  unfold try_new_Error. split; [|split].
  - intros ->. rewrite (new_Error_truthy _ He). reflexivity.
  - intros ->. reflexivity.
  - intros s Hs. rewrite Hs. reflexivity.
Qed.

(** An error string is carried as it is; an error object with a property
    toString of its own is not converted; an envelope without data and
    without error fulfils the promise with undefined. *)
Lemma envelope_unwrap_witness :
  respond {| error := VNull;
             body := VStr (jq "{'data':null,'error':'bad'}") |}
  = Rejected (VError (js "Error") (js "bad"))
  /\ respond {| error := VNull;
                body := VStr (jq "{'error':{'toString':1}}") |}
     = Rejected (VError (js "Error")
                   (js "TypeError: Cannot convert object to primitive value"))
  /\ respond {| error := VNull; body := VStr (jq "{}") |}
     = Fulfilled VUndefined.
Proof.
  split; [|split].
  - destruct (envelope_unwrap
                {| error := VNull;
                   body := VStr (jq "{'data':null,'error':'bad'}") |}
                (jq "{'data':null,'error':'bad'}")
                (VObj [(js "data", VNull); (js "error", VStr (js "bad"))]))
      as [Hbad _].
    + reflexivity.
    + reflexivity.
    + vm_compute. reflexivity.
    + discriminate.
    + destruct (Hbad eq_refl) as (_ & _ & Hs). apply Hs. reflexivity.
  - destruct (envelope_unwrap
                {| error := VNull;
                   body := VStr (jq "{'error':{'toString':1}}") |}
                (jq "{'error':{'toString':1}}")
                (VObj [(js "error", VObj [(js "toString", VNum (js "1"))])]))
      as [Hbad _].
    + reflexivity.
    + reflexivity.
    + vm_compute. reflexivity.
    + discriminate.
    + destruct (Hbad eq_refl) as (_ & Hno & _). apply Hno. reflexivity.
  - apply (envelope_unwrap {| error := VNull; body := VStr (jq "{}") |}
             (jq "{}") (VObj [])).
    + reflexivity.
    + reflexivity.
    + vm_compute. reflexivity.
    + discriminate.
    + reflexivity.
Defined.

(** C3 as stated fails: a structured error value is not carried.  The
    envelopes with the error objects of code 1 and of code 2 are rejected
    with the same Error, whose message names neither. *)
Lemma envelope_error_not_verbatim :
  JSON.parse (repair (jq "{'error':{'code':1}}"))
  = Return (VObj [(js "error", VObj [(js "code", VNum (js "1"))])])
  /\ respond {| error := VNull; body := VStr (jq "{'error':{'code':1}}") |}
     = Rejected (VError (js "Error") (js "[object Object]"))
  /\ respond {| error := VNull; body := VStr (jq "{'error':{'code':2}}") |}
     = Rejected (VError (js "Error") (js "[object Object]")).
Proof. vm_compute. repeat split. Qed.

(** C4 (amended).  In the later snapshot a failed login leaves the session
    as it was: whether [login] throws at validation or its promise is
    rejected, the client holds the key, userId and username it held before
    the call.  In the earlier snapshot this holds of a failure at
    validation only: [login] clears the session before it makes the
    request, so after a rejected promise the three fields are null. *)
Theorem login_failure_keeps_session `{Engine} net user password cb w :
  match login net user password cb w with
  | (Throw _, w') => this w' = this w
  | (Return (Rejected _), w') => this w' = this w
  | (Return (Fulfilled _), _) => True
  end
  /\ match Legacy.login net user password w with
     | (Throw _, w') => this w' = this w
     | (Return (Rejected _), w') => this w' = Legacy.initialize
     | (Return (Fulfilled _), _) => True
     end.
Proof.
  split.
  - unfold login.
    destruct (ToBoolean user); cbn [negb]; [|reflexivity].
    destruct (ToBoolean password); cbn [negb]; [|reflexivity].
    destruct (alloc _ (heap w)) as [d h1].
    destruct (alloc _ h1) as [f h2].
    match goal with
    | |- context [request net ?o None ?w0] =>
        pose proof (request_this net o None w0) as Hthis;
        destruct (request net o None w0) as [req w1]
    end.
    cbn [snd with_heap this] in Hthis.
    destruct req as [v|e]; cbn [q_then authorize_bound]; [exact I|].
    rewrite then_fail_this. exact Hthis.
  - pose proof (legacy_login_reinitializes net user password w) as Hre.
    revert Hre. unfold Legacy.login.
    destruct (ToBoolean user); cbn [negb]; [|reflexivity].
    destruct (ToBoolean password); cbn [negb]; [|reflexivity].
    destruct (alloc _ _) as [d h1]. destruct (alloc _ _) as [f h2].
    destruct (Legacy.request _ _ _) as [req w1].
    destruct (q_then req Legacy.authorize_bound w1) as [[v|e] w2];
      intros Hre; [exact I | exact Hre].
Qed.

(** C4 as stated fails of the earlier snapshot: a client that holds a
    session logs in, the exchange fails, and the session is gone. *)
Lemma login_failure_clears_the_earlier_session :
  fst (Legacy.login (fails (VStr (js "offline"))) (VStr (js "ananas"))
         (VStr (js "secret")) signed_in)
  = Return (Rejected (VError (js "Error") (js "offline")))
  /\ this signed_in
     = {| key := VStr (js "k1"); userId := VStr (js "1");
          username := VStr (js "ananas") |}
  /\ this (snd (Legacy.login (fails (VStr (js "offline")))
                  (VStr (js "ananas")) (VStr (js "secret")) signed_in))
     = {| key := VNull; userId := VNull; username := VNull |}.
Proof. vm_compute. repeat split. Qed.

(** C5.  [logout] does not clear the session whatever the payload: it
    hands the payload of the response to [authorize].  When the DELETE
    request is fulfilled the session becomes [authorize] of its payload
    (when it is rejected the session stays as it was); so when the
    response carries a key, a userId and a username, the promise of
    [logout] is fulfilled and the client holds these three afterwards. *)
Theorem logout_takes_the_payload `{Engine} :
  (forall net cb w,
      let d := alloc [(js "method", Val (VStr (js "delete")));
                      (js "url", Val (VStr (js "users/authenticate")))]
                     (heap w) in
      match fst (request net (Descriptor (fst d)) None
                         (with_heap (snd d) w)) with
      | Fulfilled payload =>
          fst (logout net cb w) = Fulfilled (client_value (authorize payload))
          /\ this (snd (logout net cb w)) = authorize payload
      | Rejected e =>
          fst (logout net cb w) = Rejected e
          /\ this (snd (logout net cb w)) = this w
      end)
  /\ this (snd (logout
                  (answers (jq "{'data':{'key':'k2','userId':2,'username':'other'}}"))
                  None signed_in))
     = {| key := VStr (js "k2"); userId := VStr (js "2");
          username := VStr (js "other") |}
  /\ fst (logout
            (answers (jq "{'data':{'key':'k2','userId':2,'username':'other'}}"))
            None signed_in)
     = Fulfilled (VObj [(js "key", VStr (js "k2"));
                        (js "userId", VStr (js "2"));
                        (js "username", VStr (js "other"))]).
Proof.
  split; [|vm_compute; split; reflexivity].
  intros net cb w. lazy beta iota zeta delta [logout alloc fst snd].
  match goal with
  | |- context [request net ?o None ?w0] =>
      pose proof (request_this net o None w0) as Hthis;
      destruct (request net o None w0) as [req w1]
  end.
  cbn [snd with_heap this] in Hthis.
  destruct req as [v|e]; cbn [q_then authorize_bound fst snd];
    (split; [reflexivity|]); rewrite then_fail_this;
    [reflexivity | exact Hthis].
Qed.



(** C7.  [login] validates before anything else: with a falsy username or
    password it throws an Error at once, whose message names the username
    when that is missing and the password otherwise; the client, the store
    and the list of transport calls are as before. *)
Theorem login_validates_first `{Engine} net user password cb w :
  ToBoolean user = false \/ ToBoolean password = false ->
  login net user password cb w =
  (Throw (VError (js "Error")
            (if ToBoolean user
             then js "Invalid credentials. Missing password."
             else js "Invalid credentials. Missing username.")), w)
  /\ sent (snd (login net user password cb w)) = sent w.
Proof.
  intros Hmiss. unfold login.
  destruct (ToBoolean user); cbn [negb].
  - destruct Hmiss as [Hu|Hp]; [discriminate|]. rewrite Hp. cbn [negb].
    split; reflexivity.
  - split; reflexivity.
Qed.

(** [login('', 'pw')] on a fresh client: the transport is not called. *)
Lemma login_validates_first_witness :
  login (answers (jq "{'data':{'key':'k'}}")) (VStr []) (VStr (js "pw")) None
        fresh_world
  = (Throw (VError (js "Error") (js "Invalid credentials. Missing username.")),
     fresh_world)
  /\ sent (snd (login (answers (jq "{'data':{'key':'k'}}")) (VStr [])
                      (VStr (js "pw")) None fresh_world)) = [].
Proof.
  apply (login_validates_first (answers (jq "{'data':{'key':'k'}}"))
           (VStr []) (VStr (js "pw")) None fresh_world).
  left. reflexivity.
Defined.

(** C8.  A callback can be called twice.  [request] calls the callback
    with (null, value) when its promise is fulfilled and with the error
    when it is rejected; but when the callback throws on the call with
    (null, value), the promise that [then] made is rejected and [fail]
    calls the callback again, with what it threw.  So for a fulfilled
    request answered with the data 1 and a callback that throws on
    success, two calls are recorded. *)
Theorem throwing_callback_called_twice `{Engine} :
  (forall net options (cb : callback) w,
      calls (snd (request net options (Some cb) w))
      = calls w ++
        match fst (request net options (Some cb) w) with
        | Fulfilled v =>
            match cb [VNull; v] with
            | Return _ => [[VNull; v]]
            | Throw e => [[VNull; v]; [e]]
            end
        | Rejected e => [[e]]
        end)
  /\ fst (request (answers (jq "{'data':1}")) (Path (js "users/me"))
                  (Some throws_on_success) fresh_world)
     = Fulfilled (VNum (js "1"))
  /\ calls (snd (request (answers (jq "{'data':1}")) (Path (js "users/me"))
                         (Some throws_on_success) fresh_world))
     = [[VNull; VNum (js "1")]; [VStr (js "boom")]].
Proof.
  split; [|vm_compute; split; reflexivity].
  intros net options cb w. unfold request.
  destruct (prepare _ _ _) as [o h]. cbn [fst snd].
  unfold then_fail, q_then, q_fail, call.
  destruct (respond _) as [v|e]; cbn.
  - destruct (cb [VNull; v]) as [r|x]; cbn.
    + reflexivity.
    + destruct (cb [x]); cbn; rewrite <- app_assoc; reflexivity.
  - destruct (cb [e]); reflexivity.
Qed.

(** C9.  [request] writes to no object of the caller.  Every object that
    was in the store before the call, the descriptor and its headers among
    them, is the same after it; the options object handed to the transport
    and its headers object are new objects.  So a later write to any of
    the caller's objects changes neither of them, and a second request gets
    an options object and a headers object of its own and leaves those of
    the first as they are. *)
Theorem request_leaves_caller_objects `{Engine} net options cb w :
  let w' := snd (request net options cb w) in
  let o := length (heap w) in
  let d := S (length (heap w)) in
  (forall l, (l < length (heap w))%nat -> heap w' !! l = heap w !! l)
  /\ sent w' = sent w ++ [o]
  /\ get_own (read (heap w') o) (js "headers") = Ref d
  /\ (o < length (heap w'))%nat /\ (d < length (heap w'))%nat
  /\ (forall l name x, (l < length (heap w))%nat ->
        read (write (heap w') l name x) o = read (heap w') o
        /\ read (write (heap w') l name x) d = read (heap w') d)
  /\ (forall options2 cb2,
        let w'' := snd (request net options2 cb2 w') in
        let o2 := length (heap w') in
        let d2 := S (length (heap w')) in
        sent w'' = sent w ++ [o; o2]
        /\ get_own (read (heap w'') o2) (js "headers") = Ref d2
        /\ o2 <> o /\ d2 <> d
        /\ read (heap w'') o = read (heap w') o
        /\ read (heap w'') d = read (heap w') d).
Proof.
  intros w' o d.
  destruct (request_frame net options cb w) as (Hold & Hlen & Hhdr).
  fold w' in Hold, Hlen, Hhdr. fold o in Hhdr. fold d in Hhdr.
  split; [exact Hold|]. split; [apply request_sent|]. split; [exact Hhdr|].
  split; [subst o; lia|]. split; [subst d; lia|]. split.
  - intros l name x Hl. split; apply read_write_ne; subst o d; lia.
  - intros options2 cb2 w'' o2 d2.
    destruct (request_frame net options2 cb2 w') as (Hold2 & Hlen2 & Hhdr2).
    fold w'' in Hold2, Hlen2, Hhdr2. fold o2 in Hhdr2. fold d2 in Hhdr2.
    split.
    { subst w''. rewrite request_sent. fold o2. subst w'.
      rewrite request_sent. fold o. rewrite <- app_assoc. reflexivity. }
    split; [exact Hhdr2|].
    split; [subst o2 o; lia|]. split; [subst d2 d; lia|].
    unfold read. rewrite !Hold2 by (subst o d; lia). split; reflexivity.
Qed.

(** A descriptor (object 0) with a headers object (object 1): after the
    request both are as the caller made them, and writing a header to the
    caller's object afterwards leaves the headers in flight (object 3)
    alone. *)
Lemma request_leaves_caller_objects_witness :
  heap (snd (request (answers (jq "{'data':{}}")) (Descriptor 0%nat) None
          {| this := Vineapple VUndefined;
             heap := [[(js "url", Val (VStr (js "users/me")));
                       (js "headers", Ref 1%nat)];
                      [(js "User-Agent", Val (VStr (js "mine")))]];
             sent := []; calls := [] |})) !! 1%nat
  = Some [(js "User-Agent", Val (VStr (js "mine")))]
  /\ read (write
       (heap (snd (request (answers (jq "{'data':{}}")) (Descriptor 0%nat) None
          {| this := Vineapple VUndefined;
             heap := [[(js "url", Val (VStr (js "users/me")));
                       (js "headers", Ref 1%nat)];
                      [(js "User-Agent", Val (VStr (js "mine")))]];
             sent := []; calls := [] |})))
       1%nat (js "User-Agent") (Val (VStr (js "changed")))) 3%nat
     = [(js "User-Agent", Val (VStr (js "mine"))); (js "headers", Ref 5%nat)].
Proof.
  destruct (request_leaves_caller_objects
              (answers (jq "{'data':{}}")) (Descriptor 0%nat) None
              {| this := Vineapple VUndefined;
                 heap := [[(js "url", Val (VStr (js "users/me")));
                           (js "headers", Ref 1%nat)];
                          [(js "User-Agent", Val (VStr (js "mine")))]];
                 sent := []; calls := [] |})
    as (Hold & _ & _ & _ & _ & Hwrite & _).
  split.
  - etransitivity; [apply (Hold 1%nat); simpl; lia | reflexivity].
  - destruct (Hwrite 1%nat (js "User-Agent") (Val (VStr (js "changed"))))
      as [_ Hd]; [simpl; lia|].
    etransitivity; [exact Hd | vm_compute; reflexivity].
Defined.

(** C10.  The repair can break a valid body.  The text of the object whose
    data holds a userId that is null parses as it is; the pattern matches
    at the userId key with no digits, so the rewrite puts two double quotes
    before the null; what comes out is malformed, and the promise is
    rejected with the Error made from the SyntaxError where, without the
    repair, it would have been fulfilled. *)
Theorem repair_breaks_null_id `{Engine} :
  exists text,
    text = jq "{'data':{'userId': null}}"
    /\ JSON.parse text
       = Return (VObj [(js "data", VObj [(js "userId", VNull)])])
    /\ id_match (jq "'userId': null}}")
       = Some (jq "null}}", [(2%nat, []); (1%nat, jq "'userId': ")])
    /\ repair text = jq "{'data':{'userId': ''null}}"
    /\ JSON.parse_value (S (2 * length (repair text)))
                        (skip JSON.ws (repair text))
       = JSON.Malformed
    /\ respond {| error := VNull; body := VStr text |}
       = Rejected (new_Error (VError (js "SyntaxError")
                                     (SyntaxError_message (repair text))))
    /\ forall options cb w,
         fst (request (answers text) options cb w)
         = Rejected (new_Error (VError (js "SyntaxError")
                                       (SyntaxError_message (repair text)))).
Proof.
  assert (Hres : respond {| error := VNull;
                            body := VStr (jq "{'data':{'userId': null}}") |}
                 = Rejected (new_Error (VError (js "SyntaxError")
                     (SyntaxError_message
                        (repair (jq "{'data':{'userId': null}}")))))).
  { unfold respond, unwrap. cbn [error body ToBoolean body_replace].
    replace (JSON.parse (repair (jq "{'data':{'userId': null}}")))
      with (@Throw jsval (VError (js "SyntaxError")
              (SyntaxError_message (repair (jq "{'data':{'userId': null}}")))))
      by (unfold JSON.parse;
          replace (JSON.parse_value _ _) with (@JSON.Malformed jsval)
            by (vm_compute; reflexivity);
          reflexivity).
    reflexivity. }
  eexists. split; [reflexivity|].
  split; [vm_compute; reflexivity|].
  split; [vm_compute; reflexivity|].
  split; [vm_compute; reflexivity|].
  split; [vm_compute; reflexivity|].
  split; [exact Hres|].
  intros options cb w. rewrite request_fst. exact Hres.
Qed.

(** * Further properties of the code

    Properties of the parts of the two snapshots that the specification
    does not speak of, or speaks of in less detail: the shape of the rewrite,
    what a request hands to the transport, how an answer settles the
    promise, the methods of the API, and the earlier snapshot. *)

(** ** More on the repair *)

(** A key followed by blanks and by digits, none or more. *)
Lemma repair_at_key pre k blanks digits rest :
  In k id_keys ->
  forallb space blanks = true ->
  forallb digit digits = true ->
  run space (digits ++ rest) = [] ->
  run digit rest = [] ->
  repair (pre ++ k ++ blanks ++ digits ++ rest)
  = repair pre ++ k ++ blanks ++ [dq] ++ digits ++ [dq] ++ repair rest.
Proof.
  intros Hin Hb Hd Hsp Hrest.
  destruct (id_keys_quote k Hin) as (c & t & Hk & Hc).
  rewrite Hk at 1. cbn [app]. rewrite repair_app by exact Hc.
  f_equal. change (dq :: c :: t ++ ?x) with ((dq :: c :: t) ++ x). rewrite <- Hk.
  rewrite repair_step, id_match_key by exact Hin.
  unfold finish.
  rewrite (run_all space), (skip_all space) by exact Hb.
  rewrite Hsp, (skip_none space) by exact Hsp.
  rewrite (run_all digit), (skip_all digit) by exact Hd.
  rewrite Hrest, (skip_none digit) by exact Hrest.
  rewrite !app_nil_r.
  destruct rest as [|x rest'].
  - cbn [chars]. unfold expand, VINE_ID_REPLACE.
    cbn [map concat capture Nat.eqb default from_option id app].
    repeat (rewrite <- app_assoc; cbn [app]). reflexivity.
  - cbn [chars]. destruct (N.eqb_spec comma x) as [<-|Hx];
      [rewrite repair_comma|]; unfold expand, VINE_ID_REPLACE;
      cbn [map concat capture Nat.eqb default from_option id app];
      repeat (rewrite <- app_assoc; cbn [app]); reflexivity.
Qed.

(** X1.  A key that no digit follows gets an empty pair of quotes. *)
Theorem repair_quotes_nothing pre k blanks rest :
  In k id_keys ->
  forallb space blanks = true ->
  run space rest = [] ->
  run digit rest = [] ->
  repair (pre ++ k ++ blanks ++ rest)
  = repair pre ++ k ++ blanks ++ [dq; dq] ++ repair rest.
Proof.
  intros Hin Hb Hsp Hd.
  apply (repair_at_key pre k blanks [] rest Hin Hb eq_refl Hsp Hd).
Qed.

Lemma repair_quotes_nothing_witness :
  repair (jq "{'id': 'abc', 'userId':-7}")
  = jq "{'id': '''abc', 'userId':''-7}".
Proof.
  etransitivity.
  - apply (repair_quotes_nothing (jq "{") (jq "'id':") (js " ")
             (jq "'abc', 'userId':-7}")).
    + unfold id_keys. simpl. auto 10.
    + reflexivity.
    + reflexivity.
    + reflexivity.
  - vm_compute. reflexivity.
Defined.

(** What a match takes from the text and what is put in its place. *)
Lemma finish_parts k s0 t caps :
  finish k s0 = Some (t, caps) ->
  exists c,
    (c = [] \/ c = [comma])
    /\ s0 = run space s0 ++ run digit (skip space s0) ++ c ++ t
    /\ expand VINE_ID_REPLACE caps
       = k ++ run space s0 ++ [dq] ++ run digit (skip space s0) ++ [dq] ++ c.
Proof.
  unfold finish.
  pose proof (run_skip space s0) as E1.
  pose proof (run_skip digit (skip space s0)) as E2.
  destruct (chars [comma] (skip digit (skip space s0))) as [s3|] eqn:Hc;
    intros [= <- <-].
  - apply chars_Some in Hc. exists [comma]. split; [auto|]. split.
    + rewrite <- Hc, E2, E1. reflexivity.
    + unfold expand, VINE_ID_REPLACE.
      cbn [map concat capture Nat.eqb default from_option id app].
      repeat (rewrite <- app_assoc; cbn [app]). reflexivity.
  - exists []. split; [auto|]. split.
    + cbn [app]. rewrite E2, E1. reflexivity.
    + unfold expand, VINE_ID_REPLACE.
      cbn [map concat capture Nat.eqb default from_option id app].
      repeat (rewrite <- app_assoc; cbn [app]). reflexivity.
Qed.

Lemma unquoted_app a b : unquoted (a ++ b) = unquoted a ++ unquoted b.
Proof. apply filter_app. Qed.

Lemma id_match_parts s t caps :
  id_match s = Some (t, caps) ->
  exists taken,
    s = taken ++ t /\ taken <> []
    /\ unquoted (expand VINE_ID_REPLACE caps) = unquoted taken
    /\ length (expand VINE_ID_REPLACE caps) = (2 + length taken)%nat.
Proof.
  unfold id_match. destruct (strip_first id_keys s) as [[k s0]|] eqn:Hs;
    [|discriminate].
  apply strip_first_Some in Hs as [Hin ->]. intros Hf.
  apply finish_parts in Hf as (c & Hc & Hs0 & Hex).
  exists (k ++ run space s0 ++ run digit (skip space s0) ++ c).
  split; [rewrite <- !app_assoc; congruence|]. split.
  { apply id_keys_nonempty in Hin. destruct k; [congruence | discriminate]. }
  rewrite Hex. split.
  - rewrite !unquoted_app. reflexivity.
  - rewrite !length_app. cbn [length]. lia.
Qed.

(** X2.  The rewrite only puts in double quotes. *)
Theorem repair_only_adds_quotes s :
  unquoted (repair s) = unquoted s
  /\ (length s <= length (repair s))%nat
  /\ (repair s = s <-> key_free s = true).
Proof.
  assert (Hall : unquoted (repair s) = unquoted s
                 /\ (length s <= length (repair s))%nat
                 /\ (key_free s = false -> (length s < length (repair s))%nat)).
  { remember (length s) as n eqn:Hn. revert s Hn.
    induction n as [n IH] using lt_wf_ind. intros s Hn.
    rewrite repair_step.
    destruct (id_match s) as [[t caps]|] eqn:Hm.
    - pose proof (id_match_shorter _ _ _ Hm) as Hlt.
      apply id_match_parts in Hm as (taken & -> & Hne & Hu & Hl).
      destruct (IH (length t) ltac:(lia) t eq_refl) as (IHu & IHl & _).
      rewrite !unquoted_app, Hu, IHu, !length_app, Hl.
      rewrite length_app in Hn. split; [reflexivity|]. split; [lia|]. intros _. lia.
    - destruct s as [|c s']; simpl in Hn.
      { split; [reflexivity|]. split; [simpl; lia | discriminate]. }
      destruct (IH (length s') ltac:(lia) s' eq_refl) as (IHu & IHl & IHk).
      split.
      { change (c :: repair s') with ([c] ++ repair s').
        change (c :: s') with ([c] ++ s').
        rewrite !unquoted_app, IHu. reflexivity. }
      split; [simpl; lia|].
      cbn [key_free]. unfold id_match in Hm.
      destruct (strip_first id_keys (c :: s')) as [[k s0]|] eqn:Hs.
      + pose proof (finish_is_Some k s0) as [x Hx]. congruence.
      + intros Hk. specialize (IHk Hk). simpl. lia. }
  destruct Hall as (Hu & Hl & Hk).
  split; [exact Hu|]. split; [exact Hl|]. split.
  - intros E. destruct (key_free s) eqn:Hf; [reflexivity|].
    specialize (Hk eq_refl). rewrite E in Hk. lia.
  - apply repair_key_free.
Qed.

(** ** What a request hands to the transport *)


(** X4.  The headers of a request, name by name, when the caller's
    headers are an object with distinct names (or there are none).  The
    key of the client, when it has one, is the session header whatever the
    caller put under that name.  Under the name headers is what the caller
    defined for it, and otherwise the object of the three defaults.  Any
    other name holds what the caller gave it, unless it is the name of a
    property of Object.prototype (constructor, toString, ...): such a
    header is dropped, as the new headers object already resolves the name.
    A name the caller left out is not a header. *)
Theorem request_merges_headers `{Engine} net options cb w name :
  let h := heap w in
  let first := match options with
               | Path url => [(js "url", Val (VStr url))]
               | Descriptor l => read h l
               end in
  let src := source_object h (get_own first (js "headers")) in
  (forall l, get_own first (js "headers") = Ref l -> (l < length h)%nat) ->
  NoDup (names src) ->
  lookup_prop name
    (read (heap (snd (request net options cb w))) (S (length h)))
  = if ToBoolean (key (this w)) && jsstring_eqb name (js "vine-session-id")
    then Some (Val (key (this w)))
    else if jsstring_eqb name (js "headers")
         then match lookup_prop name src with
              | Some x => if is_undefined x
                          then Some (Ref (3 + length h)%nat) else Some x
              | None => Some (Ref (3 + length h)%nat)
              end
         else match lookup_prop name src with
              | Some x => if inherited name then None else Some x
              | None => None
              end.
Proof.
  intros h first src Hwf Hnd.
  pose proof (prepare_headers_by_name (this w) options (heap w) name Hwf Hnd)
    as E.
  rewrite <- (request_heap net options cb w) in E. exact E.
Qed.

(** A caller of a client that holds the key k1 sets a user agent, a header
    named constructor and a session header of its own: the first goes out,
    the second is dropped and the third gives way to the key. *)
Lemma request_merges_headers_witness :
  let w := {| this := this signed_in;
              heap := [[(js "url", Val (VStr (js "users/me")));
                        (js "headers", Ref 1%nat)];
                       [(js "User-Agent", Val (VStr (js "mine")));
                        (js "constructor", Val (VStr (js "x")));
                        (js "vine-session-id", Val (VStr (js "other")))]];
              sent := []; calls := [] |} in
  let sent_headers :=
    read (heap (snd (request (answers (jq "{'data':{}}")) (Descriptor 0%nat)
                       None w))) 3%nat in
  lookup_prop (js "User-Agent") sent_headers = Some (Val (VStr (js "mine")))
  /\ lookup_prop (js "constructor") sent_headers = None
  /\ lookup_prop (js "vine-session-id") sent_headers
     = Some (Val (VStr (js "k1"))).
Proof.
  intros w sent_headers.
  assert (Hwf : forall l, get_own (read (heap w) 0%nat) (js "headers") = Ref l
                          -> (l < length (heap w))%nat)
    by (intros l [= <-]; simpl; lia).
  assert (Hnd : NoDup (names (source_object (heap w)
                                (get_own (read (heap w) 0%nat)
                                         (js "headers"))))).
  { change (NoDup [js "User-Agent"; js "constructor"; js "vine-session-id"]).
    repeat (apply NoDup_cons_2;
            [rewrite ?not_elem_of_cons; repeat split;
             [discriminate..|apply not_elem_of_nil]|]).
    apply NoDup_nil_2. }
  split; [|split].
  - etransitivity.
    + apply (request_merges_headers (answers (jq "{'data':{}}"))
               (Descriptor 0%nat) None w (js "User-Agent") Hwf Hnd).
    + vm_compute. reflexivity.
  - etransitivity.
    + apply (request_merges_headers (answers (jq "{'data':{}}"))
               (Descriptor 0%nat) None w (js "constructor") Hwf Hnd).
    + vm_compute. reflexivity.
  - etransitivity.
    + apply (request_merges_headers (answers (jq "{'data':{}}"))
               (Descriptor 0%nat) None w (js "vine-session-id") Hwf Hnd).
    + vm_compute. reflexivity.
Defined.

(** ** More on the answer *)

Lemma parse_string_plain l rest :
  forallb plain l = true ->
  JSON.parse_string (l ++ dq :: rest) = JSON.Parsed l rest.
Proof.
  induction l as [|c l IH]; intros Hl.
  - reflexivity.
  - cbn [forallb] in Hl. apply andb_true_iff in Hl as [Hc Hl].
    unfold plain in Hc.
    apply andb_true_iff in Hc as [Hc H3]. apply andb_true_iff in Hc as [H1 H2].
    apply negb_true_iff in H1, H2, H3.
    cbn [app JSON.parse_string]. rewrite H1, H2, H3, (IH Hl). reflexivity.
Qed.

Lemma digit_plain c : digit c = true -> plain c = true.
Proof.
  unfold digit, plain. intros [H1 H2]%andb_true_iff.
  apply N.leb_le in H1, H2.
  rewrite !andb_true_iff, !negb_true_iff, !N.eqb_neq, N.ltb_ge. lia.
Qed.

Lemma digits_plain l : forallb digit l = true -> forallb plain l = true.
Proof.
  rewrite !forallb_forall. intros Hl c Hc. apply digit_plain, Hl, Hc.
Qed.

(** A number without sign, fraction and exponent, before a closing
    brace. *)
Lemma parse_number_digits d ds rest :
  (49 <=? d) && (d <=? 57) = true ->
  forallb digit ds = true ->
  JSON.parse_number (d :: ds ++ 125 :: rest)
  = JSON.Parsed (d :: ds) (125 :: rest).
Proof.
  intros Hd Hds.
  assert (Hdig : digit d = true).
  { unfold digit. apply andb_true_iff in Hd as [H1 H2].
    apply N.leb_le in H1, H2. apply andb_true_iff.
    rewrite !N.leb_le. lia. }
  assert (H45 : (d =? 45) = false).
  { apply andb_true_iff in Hd as [H1 _]. apply N.leb_le in H1.
    apply N.eqb_neq. lia. }
  assert (H48 : (d =? 48) = false).
  { apply andb_true_iff in Hd as [H1 _]. apply N.leb_le in H1.
    apply N.eqb_neq. lia. }
  assert (Hskip : skip digit (d :: ds ++ 125 :: rest) = 125 :: rest).
  { change (d :: ds ++ 125 :: rest) with ((d :: ds) ++ 125 :: rest).
    rewrite skip_all by (cbn [forallb]; rewrite Hdig, Hds; reflexivity).
    reflexivity. }
  unfold JSON.parse_number. rewrite H45, H48. unfold JSON.digits1.
  rewrite Hskip. cbn [run]. rewrite Hdig.
  cbn [N.eqb Pos.eqb orb].
  change (d :: ds ++ 125 :: rest) with ((d :: ds) ++ 125 :: rest).
  rewrite take_prefix. reflexivity.
Qed.

(** The envelope of an object with one member. *)
Lemma parse_member name f text v :
  forallb plain name = true ->
  JSON.parse_value f (text ++ jq "}}") = JSON.Parsed v (jq "}}") ->
  JSON.parse_value (4 + f)
    (jq "{'data':{'" ++ name ++ jq "':" ++ text ++ jq "}}")
  = JSON.Parsed (VObj [(js "data", VObj [(name, v)])]) [].
Proof.
  intros Hname Hv.
  let r := eval vm_compute in (jq "{'data':{'") in
    change (jq "{'data':{'") with r.
  let r := eval vm_compute in (jq "':") in change (jq "':") with r.
  cbn -[set_prop jq]. rewrite (parse_string_plain name) by exact Hname.
  cbn -[set_prop jq].
  assert (Hws : skip JSON.ws (text ++ jq "}}") = text ++ jq "}}").
  { destruct text as [|c text]; [reflexivity|].
    destruct f as [|f]; [discriminate Hv|].
    cbn [app skip]. destruct (JSON.ws c) eqn:Hc; [|reflexivity].
    exfalso. revert Hv. cbn [app JSON.parse_value].
    unfold JSON.ws in Hc.
    repeat (apply orb_true_iff in Hc as [Hc|Hc]);
      apply N.eqb_eq in Hc; subst c; discriminate. }
  rewrite Hws, Hv. cbn. reflexivity.
Qed.

Lemma parse_envelope `{Engine} name text v :
  forallb plain name = true ->
  (forall n, JSON.parse_value (S n) (text ++ jq "}}")
             = JSON.Parsed v (jq "}}")) ->
  JSON.parse (jq "{'data':{'" ++ name ++ jq "':" ++ text ++ jq "}}")
  = Return (VObj [(js "data", VObj [(name, v)])]).
Proof.
  intros Hname Hv. unfold JSON.parse.
  assert (Hsk : skip JSON.ws (jq "{'data':{'" ++ name ++ jq "':" ++ text
                              ++ jq "}}")
                = jq "{'data':{'" ++ name ++ jq "':" ++ text ++ jq "}}")
    by reflexivity.
  rewrite Hsk.
  match goal with
  | |- context [JSON.parse_value (S (2 * ?len))] =>
      assert (Hfuel : (S (2 * len) = 4 + S (2 * len - 4))%nat)
        by (rewrite length_app; change (length (jq "{'data':{'")) with 10%nat;
            lia);
      rewrite Hfuel; clear Hfuel
  end.
  rewrite (parse_member name _ text v Hname (Hv _)). reflexivity.
Qed.

(** The envelope of an object with one member, a string. *)
Lemma parse_string_member `{Engine} name l :
  forallb plain name = true ->
  forallb plain l = true ->
  JSON.parse (jq "{'data':{'" ++ name ++ jq "':'" ++ l ++ jq "'}}")
  = Return (VObj [(js "data", VObj [(name, VStr l)])]).
Proof.
  intros Hname Hl.
  pose proof (parse_envelope name (dq :: l ++ [dq]) (VStr l) Hname) as E.
  change (jq "':'") with (jq "':" ++ [dq]).
  change (jq "'}}") with (dq :: jq "}}").
  repeat (rewrite <- ?app_assoc in E; cbn [app] in E).
  repeat (rewrite <- ?app_assoc; cbn [app]).
  apply E. intros n. cbn [JSON.parse_value N.eqb Pos.eqb].
  rewrite (parse_string_plain l) by exact Hl. reflexivity.
Qed.

(** The envelope of an object with one member, a number. *)
Lemma parse_number_member `{Engine} name d ds :
  forallb plain name = true ->
  (49 <=? d) && (d <=? 57) = true ->
  forallb digit ds = true ->
  JSON.parse (jq "{'data':{'" ++ name ++ jq "':" ++ d :: ds ++ jq "}}")
  = Return (VObj [(js "data", VObj [(name, VNum (d :: ds))])]).
Proof.
  intros Hname Hd Hds.
  apply (parse_envelope name (d :: ds) (VNum (d :: ds)) Hname).
  intros n.
  assert (H1 : (d =? 123) = false /\ (d =? 91) = false /\ (d =? 34) = false
               /\ (d =? 116) = false /\ (d =? 102) = false
               /\ (d =? 110) = false).
  { pose proof Hd as Hd'.
    apply andb_true_iff in Hd' as [H1 H2]. apply N.leb_le in H1, H2.
    rewrite !N.eqb_neq. lia. }
  destruct H1 as (E1 & E2 & E3 & E4 & E5 & E6).
  cbn [app JSON.parse_value]. rewrite E1, E2, E3, E4, E5, E6.
  change (jq "}}") with [125; 125].
  rewrite (parse_number_digits d ds [125]) by assumption. reflexivity.
Qed.

Lemma id_names_plain name : In name id_names -> forallb plain name = true.
Proof.
  unfold id_names. cbn [map In]. intros Hin.
  repeat (destruct Hin as [<-|Hin]; [reflexivity|]). destruct Hin.
Qed.

(** X5.  An identifier of any length reaches the caller with its digits:
    the body whose data hold one of the seven names with a run of digits is
    answered by the object that holds the digits as a string. *)
Theorem large_id_arrives_as_text `{Engine} name digits :
  In name id_names ->
  digits <> [] ->
  forallb digit digits = true ->
  respond {| error := VNull;
             body := VStr (jq "{'data':{'" ++ name ++ jq "':" ++ digits
                           ++ jq "}}") |}
  = Fulfilled (VObj [(name, VStr digits)]).
Proof.
  intros Hin Hne Hd.
  assert (Hrep : repair (jq "{'data':{'" ++ name ++ jq "':" ++ digits
                         ++ jq "}}")
                 = jq "{'data':{'" ++ name ++ jq "':'" ++ digits
                   ++ jq "'}}").
  { pose proof (repair_at_key (jq "{'data':{") (dq :: name ++ jq "':") []
                  digits (jq "}}")) as E.
    repeat (rewrite <- ?app_assoc in E; cbn [app] in E).
    change (jq "{'data':{'" ++ name ++ jq "':" ++ digits ++ jq "}}")
      with (jq "{'data':{" ++ dq :: name ++ jq "':" ++ digits ++ jq "}}").
    rewrite E; clear E.
    - reflexivity.
    - unfold id_names, id_keys in *. cbn [map In] in *.
      repeat (destruct Hin as [<-|Hin]; [auto 10|]). destruct Hin.
    - reflexivity.
    - exact Hd.
    - destruct digits as [|c digits]; [congruence|].
      cbn [forallb] in Hd. apply andb_true_iff in Hd as [Hc _].
      cbn [app run]. rewrite (digit_not_space c Hc). reflexivity.
    - reflexivity. }
  unfold respond, unwrap. cbn [error body ToBoolean body_replace].
  rewrite Hrep.
  rewrite (parse_string_member name digits (id_names_plain _ Hin)
             (digits_plain _ Hd)).
  cbn [Get get_prop]. cbv [lookup_prop]. names_eqb.
  reflexivity.
Qed.

Lemma large_id_arrives_as_text_witness :
  respond {| error := VNull;
             body := VStr (jq "{'data':{'postId':1234567890123456789012}}") |}
  = Fulfilled (VObj [(js "postId", VStr (js "1234567890123456789012"))]).
Proof.
  apply (large_id_arrives_as_text (js "postId")
           (js "1234567890123456789012")).
  - unfold id_names. simpl. auto 10.
  - discriminate.
  - reflexivity.
Defined.

(** X6.  A promise is rejected with an Error object and nothing else,
    and its message tells which of six things happened: the transport
    reported an error; the body was not a string; the text, once rewritten,
    was not JSON; it was the JSON text null; the envelope held a truthy
    error that converts to a string; or it held one that does not (an
    object with a property toString of its own, or an array that holds
    one), and building the Error threw.  What [replace], [JSON.parse], the
    property access or the conversion threw is not passed on: its name and
    message become the message.  The error of the transport is taken to be
    one that converts, as an Error object, a string or null does. *)
Theorem rejections_name_their_cause `{Engine} r e :
  converts (error r) = true ->
  respond r = Rejected e ->
  (ToBoolean (error r) = true
   /\ e = VError (js "Error") (ToString (error r)))
  \/ (ToBoolean (error r) = false
      /\ (forall s, body r <> VStr s)
      /\ e = VError (js "Error")
               (Error_toString (js "TypeError")
                  (TypeError_message (body r) (js "replace"))))
  \/ (exists s,
        ToBoolean (error r) = false /\ body r = VStr s
        /\ ((exists x, JSON.parse (repair s) = Throw x)
            /\ e = VError (js "Error")
                     (Error_toString (js "SyntaxError")
                        (SyntaxError_message (repair s)))
            \/ JSON.parse (repair s) = Return VNull
               /\ e = VError (js "Error")
                        (Error_toString (js "TypeError")
                           (TypeError_message VNull (js "error")))
            \/ exists data,
                 JSON.parse (repair s) = Return data
                 /\ ToBoolean (get_prop data (js "error")) = true
                 /\ (converts (get_prop data (js "error")) = true
                     /\ e = VError (js "Error")
                              (ToString (get_prop data (js "error")))
                     \/ converts (get_prop data (js "error")) = false
                        /\ e = VError (js "Error")
                                 (Error_toString (js "TypeError")
                                    (ToPrimitive_message
                                       (get_prop data (js "error"))))))).
Proof.
  intros _. unfold respond, unwrap. destruct (ToBoolean (error r)) eqn:Herr.
  { intros [= <-]. left. split; [reflexivity|]. apply new_Error_truthy, Herr. }
  destruct (body r) as [| |b|lit|s|items|props|n m] eqn:Hbody;
    cbn [body_replace].
  1-4, 6-8: intros [= <-]; right; left;
    (split; [reflexivity|]); (split; [discriminate|]); reflexivity.
  intros Hr. right. right. exists s. split; [reflexivity|].
  split; [reflexivity|]. revert Hr.
  destruct (JSON.parse (repair s)) as [data|x] eqn:Hparse.
  - pose proof (parse_defined _ _ Hparse) as Hdef.
    destruct data as [| |b|lit|t|items|props|n m]; try congruence;
      cbn [Get].
    2-7: match goal with
         | |- context [ToBoolean ?v] => destruct (ToBoolean v) eqn:He
         end; [|discriminate];
         unfold try_new_Error;
         match goal with
         | |- context [converts ?v] => destruct (converts v) eqn:Hc
         end;
         intros [= <-]; right; right; eexists; (split; [reflexivity|]);
         (split; [exact He|]);
         [left; split; [exact Hc | apply new_Error_truthy, He]
         |right; split; [exact Hc | reflexivity]].
    intros [= <-]. right. left. split; reflexivity.
  - intros [= <-]. left. split; [eauto|].
    apply parse_throws in Hparse as [-> _]. reflexivity.
Qed.

(** The JSON text null is not an envelope. *)
Lemma rejections_name_their_cause_witness :
  exists s,
    body {| error := VNull; body := VStr (js "null") |} = VStr s
    /\ JSON.parse (repair s) = Return VNull.
Proof.
  destruct (rejections_name_their_cause
              {| error := VNull; body := VStr (js "null") |}
              (VError (js "Error")
                 (js "TypeError: Cannot read property error")) eq_refl)
    as [[Ht _]|[(_ & Hb & _)
                |(s & _ & Hs & [[[x Hx] _]|[[Hp _]|(d & Hp & He & _)]])]].
  - vm_compute. reflexivity.
  - discriminate Ht.
  - exfalso. apply (Hb (js "null")). reflexivity.
  - exfalso. injection Hs as <-. vm_compute in Hx. discriminate Hx.
  - exists s. split; [exact Hs | exact Hp].
  - exfalso. injection Hs as <-. vm_compute in Hp. injection Hp as <-.
    vm_compute in He. discriminate He.
Defined.

(** X7.  A promise is fulfilled only with the data member of an
    envelope: the transport reported no error, the body is a string, the
    rewritten text is the JSON text of a value other than null whose error
    is falsy, and the promise holds the property data of that value,
    undefined when there is none. *)
Theorem fulfilment_is_the_data `{Engine} r v :
  respond r = Fulfilled v ->
  exists s data,
    ToBoolean (error r) = false
    /\ body r = VStr s
    /\ JSON.parse (repair s) = Return data
    /\ data <> VNull
    /\ ToBoolean (get_prop data (js "error")) = false
    /\ v = get_prop data (js "data").
Proof.
  unfold respond, unwrap.
  destruct (ToBoolean (error r)) eqn:Herr; [discriminate|].
  destruct (body r) as [| |b|lit|s|items|props|n m] eqn:Hbody;
    cbn [body_replace]; try discriminate.
  destruct (JSON.parse (repair s)) as [data|x] eqn:Hparse; [|discriminate].
  pose proof (parse_defined _ _ Hparse) as Hdef.
  destruct data as [| |b|lit|t|items|props|n m]; try congruence;
    cbn [Get]; try discriminate.
  all: match goal with
       | |- context [ToBoolean ?x] => destruct (ToBoolean x) eqn:He
       end; [unfold try_new_Error; destruct (converts _); discriminate|];
       intros [= <-]; do 2 eexists;
       split; [reflexivity|]; split; [reflexivity|]; split; [exact Hparse|];
       split; [discriminate|]; split; [exact He | reflexivity].
Qed.

Lemma fulfilment_is_the_data_witness :
  exists s data,
    ToBoolean (error {| error := VNull; body := VStr (jq "{'data':[1]}") |})
    = false
    /\ body {| error := VNull; body := VStr (jq "{'data':[1]}") |} = VStr s
    /\ JSON.parse (repair s) = Return data
    /\ data <> VNull
    /\ ToBoolean (get_prop data (js "error")) = false
    /\ VArr [VNum (js "1")] = get_prop data (js "data").
Proof.
  apply (fulfilment_is_the_data
           {| error := VNull; body := VStr (jq "{'data':[1]}") |}
           (VArr [VNum (js "1")])).
  vm_compute. reflexivity.
Defined.

(** ** The methods of the API *)

Section Methods.
Context `{Engine}.

Lemma with_heap_same w : with_heap (heap w) w = w.
Proof. destruct w. reflexivity. Qed.

(** A method that is given its options. *)
Lemma listing_given u net x cb w :
  let len := length (heap w) in
  let r := Api.listing (Return u) net (NotFunction x) cb w in
  sent (snd r) = sent w ++ [S len]
  /\ read (heap (snd r)) (S len)
     = [(js "url", Val (VStr (API_ORIGIN ++ u))); (js "qs", x);
        (js "headers", Ref (2 + len)%nat)]
  /\ this (snd r) = this w
  /\ fst r = Return (respond (net (heap (snd r)) (S len))).
Proof.
  intros len r. subst r.
  unfold Api.listing, Api.shift, Api.returned, alloc. cbv zeta iota.
  match goal with
  | |- context [request net ?o cb ?w0] =>
      destruct (request_options net o cb w0) as (Hs & Hr & Ht & Hf)
  end.
  cbn [heap with_heap sent this] in Hs, Hr, Ht, Hf.
  rewrite read_app_new in Hr.
  rewrite length_app in Hs, Hr, Hf. cbn [length] in Hs, Hr, Hf.
  replace (length (heap w) + 1)%nat with (S len) in Hs, Hr, Hf
    by (subst len; lia).
  cbn [fst snd]. rewrite Hf. repeat split; assumption.
Qed.

(** A method that is given a callback where its options go. *)
Lemma listing_shifted u net f cb w :
  let len := length (heap w) in
  let r := Api.listing (Return u) net (IsFunction f) cb w in
  let answer := respond (net (heap (snd r)) (2 + len)%nat) in
  sent (snd r) = sent w ++ [(2 + len)%nat]
  /\ read (heap (snd r)) (2 + len)%nat
     = [(js "url", Val (VStr (API_ORIGIN ++ u))); (js "qs", Ref len);
        (js "headers", Ref (3 + len)%nat)]
  /\ read (heap (snd r)) len = []
  /\ fst r = Return answer
  /\ calls (snd r)
     = calls w ++ match answer with
                  | Fulfilled v =>
                      match f [VNull; v] with
                      | Return _ => [[VNull; v]]
                      | Throw e => [[VNull; v]; [e]]
                      end
                  | Rejected e => [[e]]
                  end.
Proof.
  intros len r answer. subst answer r.
  unfold Api.listing, Api.shift, Api.returned, alloc. cbv zeta iota.
  match goal with
  | |- context [request net ?o (Some f) ?w0] =>
      destruct (request_options net o (Some f) w0) as (Hs & Hr & Ht & Hf);
      destruct (request_frame net o (Some f) w0) as (Hold & _);
      pose proof (request_calls net o (Some f) w0) as Hc;
      set (r := request net o (Some f) w0) in *
  end.
  cbn [heap with_heap sent this calls] in Hs, Hr, Ht, Hf, Hold.
  rewrite read_app_new in Hr.
  rewrite !length_app in Hs, Hr, Hf, Hold. cbn [length] in Hs, Hr, Hf, Hold.
  replace (length (heap w) + 1 + 1)%nat with (2 + len)%nat in Hs, Hr, Hf, Hold
    by (subst len; lia).
  cbn [fst snd]. rewrite <- Hf.
  split; [exact Hs|]. split; [rewrite Hr; props; reflexivity|].
  split.
  { pose proof (Hold len ltac:(lia)) as E.
    rewrite lookup_app_l in E by (rewrite length_app; cbn [length]; lia).
    subst len. rewrite (list_lookup_middle (heap w) [] []) in E by reflexivity.
    exact (f_equal (default []) E). }
  split; [reflexivity|].
  rewrite Hc, then_fail_list. reflexivity.
Qed.

(** A method that asks for a path. *)
Lemma path_requested u net cb w :
  let len := length (heap w) in
  let r := Api.at_path (Return u) net cb w in
  sent (snd r) = sent w ++ [len]
  /\ read (heap (snd r)) len
     = [(js "url", Val (VStr (API_ORIGIN ++ u)));
        (js "headers", Ref (S len))]
  /\ fst r = Return (respond (net (heap (snd r)) len)).
Proof.
  intros len r. subst r. unfold Api.at_path, Api.returned. cbn [fst snd].
  destruct (request_options net (Path u) cb w) as (Hs & Hr & Ht & Hf).
  rewrite Hf. repeat split; assumption.
Qed.

Lemma method_requested method u net cb w :
  let len := length (heap w) in
  let r := Api.with_method method (Return u) net cb w in
  sent (snd r) = sent w ++ [S len]
  /\ read (heap (snd r)) (S len)
     = [(js "method", Val (VStr method));
        (js "url", Val (VStr (API_ORIGIN ++ u)));
        (js "headers", Ref (2 + len)%nat)]
  /\ fst r = Return (respond (net (heap (snd r)) (S len))).
Proof.
  intros len r. subst r.
  unfold Api.with_method, Api.returned, alloc. cbv zeta iota.
  match goal with
  | |- context [request net ?o cb ?w0] =>
      destruct (request_options net o cb w0) as (Hs & Hr & Ht & Hf)
  end.
  cbn [heap with_heap sent this] in Hs, Hr, Ht, Hf.
  rewrite read_app_new in Hr.
  rewrite length_app in Hs, Hr, Hf. cbn [length] in Hs, Hr, Hf.
  replace (length (heap w) + 1)%nat with (S len) in Hs, Hr, Hf
    by (subst len; lia).
  cbn [fst snd]. rewrite Hf. repeat split; assumption.
Qed.

End Methods.

(** X8.  Every method that takes options sends one request: the address
    followed by the path of the method, with the caller's options, whatever
    they are, as the query string, no HTTP method and headers of its own;
    the promise is the answer to it.  The identifier or the query is put
    into the path as [util.format] prints it for [%s]: a string as it is,
    anything else as Node prints it. *)
Theorem listings_pass_options `{Engine} (id query : jsval) (i q : jsstring) :
  percent_s id = Return i ->
  percent_s query = Return q ->
  Forall
    (fun mp : (transport -> options_or_callback -> option callback -> world
               -> completion settled * world) * jsstring =>
       forall net (x : slot) cb w,
         let len := length (heap w) in
         let r := fst mp net (NotFunction x) cb w in
         sent (snd r) = sent w ++ [S len]
         /\ read (heap (snd r)) (S len)
            = [(js "url", Val (VStr (API_ORIGIN ++ snd mp))); (js "qs", x);
               (js "headers", Ref (2 + len)%nat)]
         /\ this (snd r) = this w
         /\ fst r = Return (respond (net (heap (snd r)) (S len))))
    [ (Api.graph, js "timelines/graph");
      (fun net => Api.user net id, js "timelines/users/" ++ i);
      (fun net => Api.likes net id,
       js "timelines/users/" ++ i ++ js "/likes");
      (fun net => Api.followers net id, js "users/" ++ i ++ js "/followers");
      (fun net => Api.following net id, js "users/" ++ i ++ js "/following");
      (fun net => Api.searchTags net query, js "tags/search/" ++ q);
      (fun net => Api.searchUsers net query, js "users/search/" ++ q);
      (Api.popular, js "timelines/popular");
      (Api.promoted, js "timelines/promoted");
      (fun net => Api.tag net id, js "timelines/tags/" ++ i);
      (fun net => Api.venue net id, js "timelines/venues/" ++ i) ].
Proof.
  intros Hi Hq.
  repeat apply Forall_cons_2; try apply Forall_nil_2.
  all: intros net x cb w; cbn [fst snd].
  all: unfold Api.graph, Api.user, Api.likes, Api.followers, Api.following,
         Api.searchTags, Api.searchUsers, Api.popular, Api.promoted, Api.tag,
         Api.venue, format.
  all: rewrite ?Hi, ?Hq, ?app_nil_r; apply listing_given.
Qed.

(** The timeline of the user 7, with options that are left undefined. *)
Lemma listings_pass_options_witness :
  read (heap (snd (Api.user (answers (jq "{'data':{}}")) (VStr (js "7"))
                     (NotFunction (Val VUndefined)) None fresh_world)))
       1%nat
  = [(js "url",
      Val (VStr (js "https://api.vineapp.com/timelines/users/7")));
     (js "qs", Val VUndefined); (js "headers", Ref 2%nat)].
Proof.
  pose proof (listings_pass_options (VStr (js "7")) (VStr (js "cats"))
                (js "7") (js "cats") eq_refl eq_refl) as F.
  apply Forall_cons in F as [_ F]. apply Forall_cons in F as [Huser _].
  destruct (Huser (answers (jq "{'data':{}}")) (Val VUndefined) None
                  fresh_world) as (_ & Hr & _).
  exact Hr.
Defined.

(** X9.  A function in the place of the options is taken for the
    callback and the argument in the place of the callback is not looked
    at: the query string is a new empty object, and the function is called
    with the outcome, null and the data or the error, and once more with
    what it threw if it throws when it is handed the data; what was given
    as the callback makes no difference to the result. *)
Theorem listings_shift_the_callback `{Engine} (id query : jsval)
    (i q : jsstring) :
  percent_s id = Return i ->
  percent_s query = Return q ->
  Forall
    (fun mp : (transport -> options_or_callback -> option callback -> world
               -> completion settled * world) * jsstring =>
       forall net (f : callback) cb w,
         let len := length (heap w) in
         let r := fst mp net (IsFunction f) cb w in
         let answer := respond (net (heap (snd r)) (2 + len)%nat) in
         sent (snd r) = sent w ++ [(2 + len)%nat]
         /\ read (heap (snd r)) (2 + len)%nat
            = [(js "url", Val (VStr (API_ORIGIN ++ snd mp)));
               (js "qs", Ref len); (js "headers", Ref (3 + len)%nat)]
         /\ read (heap (snd r)) len = []
         /\ fst r = Return answer
         /\ calls (snd r)
            = calls w ++ match answer with
                         | Fulfilled v =>
                             match f [VNull; v] with
                             | Return _ => [[VNull; v]]
                             | Throw e => [[VNull; v]; [e]]
                             end
                         | Rejected e => [[e]]
                         end
         /\ r = fst mp net (IsFunction f) None w
         /\ r = fst mp net (NotFunction (Ref len)) (Some f)
                  (with_heap (heap w ++ [[]]) w))
    [ (Api.graph, js "timelines/graph");
      (fun net => Api.user net id, js "timelines/users/" ++ i);
      (fun net => Api.likes net id,
       js "timelines/users/" ++ i ++ js "/likes");
      (fun net => Api.followers net id, js "users/" ++ i ++ js "/followers");
      (fun net => Api.following net id, js "users/" ++ i ++ js "/following");
      (fun net => Api.searchTags net query, js "tags/search/" ++ q);
      (fun net => Api.searchUsers net query, js "users/search/" ++ q);
      (Api.popular, js "timelines/popular");
      (Api.promoted, js "timelines/promoted");
      (fun net => Api.tag net id, js "timelines/tags/" ++ i);
      (fun net => Api.venue net id, js "timelines/venues/" ++ i) ].
Proof.
  intros Hi Hq.
  repeat apply Forall_cons_2; try apply Forall_nil_2.
  all: intros net f cb w; cbn [fst snd].
  all: unfold Api.graph, Api.user, Api.likes, Api.followers, Api.following,
         Api.searchTags, Api.searchUsers, Api.popular, Api.promoted, Api.tag,
         Api.venue, format.
  all: rewrite ?Hi, ?Hq, ?app_nil_r.
  all: match goal with
       | |- context [Api.listing (Return ?u)] =>
           pose proof (listing_shifted u net f cb w) as L
       end; cbv zeta in L |- *.
  all: destruct L as (L1 & L2 & L3 & L4 & L5).
  all: repeat (split; [eassumption|]).
  all: split; reflexivity.
Qed.

(** A function that throws when it is handed the data stands where the
    options go, and a function that never throws where the callback goes:
    the two calls recorded are calls of the first. *)
Lemma listings_shift_the_callback_witness :
  calls (snd (Api.popular (answers (jq "{'data':1}"))
                (IsFunction throws_on_success)
                (Some (fun _ => Return VUndefined)) fresh_world))
  = [[VNull; VNum (js "1")]; [VStr (js "boom")]].
Proof.
  pose proof (listings_shift_the_callback (VStr (js "7")) (VStr (js "cats"))
                (js "7") (js "cats") eq_refl eq_refl) as F.
  do 7 (apply Forall_cons in F as [_ F]). apply Forall_cons in F as [Hpop _].
  destruct (Hpop (answers (jq "{'data':1}")) throws_on_success
                 (Some (fun _ => Return VUndefined)) fresh_world)
    as (_ & _ & _ & _ & Hc & _).
  etransitivity; [exact Hc | vm_compute; reflexivity].
Defined.

(** X10.  The methods without options ask for their path and nothing
    else; [notifications] formats the user id the client holds at the
    time of the call, without a look at it, so that a client that holds
    none asks for the notifications of the user undefined. *)
Theorem paths_requested `{Engine} (id : jsval) (i : jsstring) :
  percent_s id = Return i ->
  Forall
    (fun mp : (transport -> option callback -> world
               -> completion settled * world) * jsstring =>
       forall net cb w,
         let len := length (heap w) in
         let r := fst mp net cb w in
         sent (snd r) = sent w ++ [len]
         /\ read (heap (snd r)) len
            = [(js "url", Val (VStr (API_ORIGIN ++ snd mp)));
               (js "headers", Ref (S len))]
         /\ fst r = Return (respond (net (heap (snd r)) len)))
    [ (Api.me, js "users/me");
      (fun net => Api.profile net id, js "users/profiles/" ++ i);
      (fun net => Api.twitter net id,
       js "users/" ++ i ++ js "/following/suggested/twitter") ]
  /\ (forall net cb w u,
        percent_s (userId (this w)) = Return u ->
        let len := length (heap w) in
        let r := Api.notifications net cb w in
        sent (snd r) = sent w ++ [len]
        /\ read (heap (snd r)) len
           = [(js "url",
               Val (VStr (API_ORIGIN ++ js "users/" ++ u
                          ++ js "/pendingNotificationsCount")));
              (js "headers", Ref (S len))]
        /\ fst r = Return (respond (net (heap (snd r)) len)))
  /\ (forall net cb w,
        userId (this w) = VUndefined ->
        read (heap (snd (Api.notifications net cb w))) (length (heap w))
        = [(js "url",
            Val (VStr (API_ORIGIN
                       ++ js "users/undefined/pendingNotificationsCount")));
           (js "headers", Ref (S (length (heap w))))]).
Proof.
  intros Hi. split; [|split].
  - repeat apply Forall_cons_2; try apply Forall_nil_2.
    all: intros net cb w; cbn [fst snd].
    all: unfold Api.me, Api.profile, Api.twitter, format.
    all: rewrite ?Hi, ?app_nil_r; apply path_requested.
  - intros net cb w u Hu. unfold Api.notifications, format. rewrite Hu.
    apply path_requested.
  - intros net cb w Hu. unfold Api.notifications, format. rewrite Hu.
    cbn [percent_s].
    destruct (path_requested
                (js "users/" ++ js "undefined"
                 ++ js "/pendingNotificationsCount") net cb w)
      as (_ & Hr & _).
    exact Hr.
Qed.

(** The profile of the user 7, and the notifications of a client that
    never logged in. *)
Lemma paths_requested_witness :
  read (heap (snd (Api.profile (answers (jq "{'data':{}}")) (VStr (js "7"))
                     None fresh_world))) 0%nat
  = [(js "url",
      Val (VStr (js "https://api.vineapp.com/users/profiles/7")));
     (js "headers", Ref 1%nat)]
  /\ read (heap (snd (Api.notifications (answers (jq "{'data':{}}")) None
                        fresh_world))) 0%nat
     = [(js "url",
         Val (VStr (js "https://api.vineapp.com/users/undefined/pendingNotificationsCount")));
        (js "headers", Ref 1%nat)].
Proof.
  destruct (paths_requested (VStr (js "7")) (js "7") eq_refl)
    as (F & _ & Hnone).
  apply Forall_cons in F as [_ F]. apply Forall_cons in F as [Hprofile _].
  split.
  - destruct (Hprofile (answers (jq "{'data':{}}")) None fresh_world)
      as (_ & Hr & _).
    exact Hr.
  - apply (Hnone (answers (jq "{'data':{}}")) None fresh_world). reflexivity.
Defined.

(** X11.  [like] posts to the likes of a post and [unlike] deletes
    there; the request has no query string and no form.  The identifier
    of the post is put into the path as [util.format] prints it. *)
Theorem like_and_unlike `{Engine} (id : jsval) (i : jsstring) :
  percent_s id = Return i ->
  Forall
    (fun mp : (transport -> option callback -> world
               -> completion settled * world) * jsstring =>
       forall net cb w,
         let len := length (heap w) in
         let r := fst mp net cb w in
         sent (snd r) = sent w ++ [S len]
         /\ read (heap (snd r)) (S len)
            = [(js "method", Val (VStr (snd mp)));
               (js "url",
                Val (VStr (API_ORIGIN ++ js "posts/" ++ i ++ js "/likes")));
               (js "headers", Ref (2 + len)%nat)]
         /\ fst r = Return (respond (net (heap (snd r)) (S len))))
    [ (fun net => Api.like net id, js "post");
      (fun net => Api.unlike net id, js "delete") ].
Proof.
  intros Hi.
  repeat apply Forall_cons_2; try apply Forall_nil_2.
  all: intros net cb w; cbn [fst snd].
  all: unfold Api.like, Api.unlike, format.
  all: rewrite Hi; apply method_requested.
Qed.

Lemma like_and_unlike_witness :
  read (heap (snd (Api.unlike (answers (jq "{'data':{}}")) (VStr (js "42"))
                     None fresh_world))) 1%nat
  = [(js "method", Val (VStr (js "delete")));
     (js "url", Val (VStr (js "https://api.vineapp.com/posts/42/likes")));
     (js "headers", Ref 2%nat)].
Proof.
  pose proof (like_and_unlike (VStr (js "42")) (js "42") eq_refl) as F.
  apply Forall_cons in F as [_ F]. apply Forall_cons in F as [Hun _].
  destruct (Hun (answers (jq "{'data':{}}")) None fresh_world)
    as (_ & Hr & _).
  exact Hr.
Defined.

(** ** Logging in and out *)



(** X13.  The promise of [login] is fulfilled with the client itself
    once [authorize] has taken the payload of the answer, whatever the
    payload holds; a rejection passes through.  The callback is handed the
    same outcome in the style of Node. *)
Theorem login_resolves_with_the_client `{Engine} net user password cb w :
  ToBoolean user = true ->
  ToBoolean password = true ->
  let r := login net user password cb w in
  let answer := respond (net (heap (snd r)) (2 + length (heap w))%nat) in
  let promise := match answer with
                 | Fulfilled v => Fulfilled (client_value (authorize v))
                 | Rejected e => Rejected e
                 end in
  fst r = Return promise
  /\ (forall v, answer = Fulfilled v ->
        this (snd r) = authorize v
        /\ promise = Fulfilled (client_value (this (snd r))))
  /\ calls (snd r)
     = calls w ++ match cb with
                  | None => []
                  | Some f =>
                      match promise with
                      | Fulfilled c =>
                          match f [VNull; c] with
                          | Return _ => [[VNull; c]]
                          | Throw e => [[VNull; c]; [e]]
                          end
                      | Rejected e => [[e]]
                      end
                  end.
Proof.
  intros Hu Hp r answer promise.
  destruct (login_steps net user password cb w Hu Hp)
    as (_ & _ & _ & _ & Hf & Ht & Hc).
  fold r answer in Hf, Ht, Hc. fold promise in Hf, Hc.
  split; [exact Hf|]. split.
  - intros v Hv. rewrite Ht. subst promise. rewrite Hv. auto.
  - rewrite Hc. apply then_fail_list.
Qed.

Lemma login_resolves_with_the_client_witness :
  login (answers (jq "{'data':{'username':'ananas','userId':7,'key':'k'}}"))
        (VStr (js "ananas")) (VStr (js "secret")) None fresh_world
  = (Return (Fulfilled (VObj [(js "key", VStr (js "k"));
                              (js "userId", VStr (js "7"));
                              (js "username", VStr (js "ananas"))])),
     snd (login (answers (jq "{'data':{'username':'ananas','userId':7,'key':'k'}}"))
                (VStr (js "ananas")) (VStr (js "secret")) None fresh_world)).
Proof.
  destruct (login_resolves_with_the_client
              (answers (jq "{'data':{'username':'ananas','userId':7,'key':'k'}}"))
              (VStr (js "ananas")) (VStr (js "secret")) None fresh_world)
    as (Hf & _).
  - reflexivity.
  - reflexivity.
  - apply injective_projections; [exact Hf | reflexivity].
Defined.

(** X14.  [Vineapple.login] logs in with a client of its own: no session
    header goes out, whatever the clients around hold, and when the request
    is rejected that client holds nothing. *)
Theorem static_login_starts_fresh `{Engine} net user password cb w :
  ToBoolean user = true ->
  ToBoolean password = true ->
  let r := Api.static_login net user password cb w in
  let answer := respond (net (heap (snd r)) (2 + length (heap w))%nat) in
  sent (snd r) = sent w ++ [(2 + length (heap w))%nat]
  /\ get_own (read (heap (snd r)) (3 + length (heap w))%nat)
             (js "vine-session-id")
     = Val VUndefined
  /\ this (snd r)
     = match answer with
       | Fulfilled v => authorize v
       | Rejected _ =>
           {| key := VUndefined; userId := VUndefined;
              username := VUndefined |}
       end.
Proof.
  intros Hu Hp r answer. subst answer r. unfold Api.static_login.
  destruct (login_steps net user password cb
              (with_this (Vineapple VUndefined) w) Hu Hp)
    as (Hs & _ & _ & Hh & _ & Ht & _).
  cbn [heap with_this sent this] in Hs, Hh, Ht.
  auto.
Qed.

Lemma static_login_starts_fresh_witness :
  this (snd (Api.static_login (fails (VStr (js "offline")))
               (VStr (js "ananas")) (VStr (js "secret")) None signed_in))
  = {| key := VUndefined; userId := VUndefined; username := VUndefined |}.
Proof.
  destruct (static_login_starts_fresh (fails (VStr (js "offline")))
              (VStr (js "ananas")) (VStr (js "secret")) None signed_in)
    as (_ & _ & Ht).
  - reflexivity.
  - reflexivity.
  - exact Ht.
Defined.

(** X15.  [logout] sends one request: a DELETE to users/authenticate
    without form or query string; its headers hold the key when the client
    has one, and nothing else but the nested defaults. *)
Theorem logout_sends_delete `{Engine} net cb w :
  let len := length (heap w) in
  let r := logout net cb w in
  sent (snd r) = sent w ++ [S len]
  /\ read (heap (snd r)) (S len)
     = [(js "method", Val (VStr (js "delete")));
        (js "url", Val (VStr (API_ORIGIN ++ js "users/authenticate")));
        (js "headers", Ref (2 + len)%nat)]
  /\ forall name,
       get_own (read (heap (snd r)) (2 + len)%nat) name
       = if ToBoolean (key (this w))
            && jsstring_eqb name (js "vine-session-id")
         then Val (key (this w))
         else if jsstring_eqb name (js "headers") then Ref (4 + len)%nat
              else Val VUndefined.
Proof.
  intros len r. subst r. unfold logout, alloc. cbv zeta iota.
  match goal with
  | |- context [request net _ None (with_heap ?h w)] => set (h1 := h)
  end.
  assert (L1 : length h1 = S len) by (subst h1 len; store_lengths).
  assert (R0 : read h1 len
               = [(js "method", Val (VStr (js "delete")));
                  (js "url", Val (VStr (js "users/authenticate")))])
    by (subst h1 len; apply read_app_new).
  clearbody h1.
  pose proof (request_options net (Descriptor len) None (with_heap h1 w))
    as (Hs & Hr & Ht & Hf).
  pose proof (fun name =>
                request_headers_default net (Descriptor len) None
                  (with_heap h1 w) name) as Hh.
  cbv zeta in Hh.
  cbn [heap with_heap sent this calls fst snd] in Hs, Hr, Ht, Hf, Hh.
  rewrite L1 in Hs, Hr, Hf, Hh. rewrite R0 in Hr, Hh.
  fold len.
  destruct (request net (Descriptor len) None (with_heap h1 w)) as [req w1].
  cbn [fst snd] in Hs, Hr, Ht, Hf, Hh.
  pose proof (then_authorize req cb w1) as (Tf & Th & Tse & Tt & Tc).
  cbv zeta in Tf, Th, Tse, Tt, Tc.
  destruct (q_then req authorize_bound w1) as [promise w2].
  cbn [fst snd] in Tf, Th, Tse, Tt, Tc |- *.
  rewrite Th, Tse.
  split; [exact Hs|]. split; [rewrite Hr; props; reflexivity|].
  intros name. exact (Hh name eq_refl).
Qed.

(** X16.  The value [login] resolves with restores the session: a client
    created from it holds what the client that logged in holds. *)
Theorem create_restores_the_session `{Engine} net user password cb w c :
  fst (login net user password cb w) = Return (Fulfilled c) ->
  Api.create c = this (snd (login net user password cb w)).
Proof.
  intros Hc.
  assert (Hu : ToBoolean user = true).
  { revert Hc. unfold login. destruct (ToBoolean user); [reflexivity|].
    discriminate. }
  assert (Hp : ToBoolean password = true).
  { revert Hc. unfold login. rewrite Hu. cbn [negb].
    destruct (ToBoolean password); [reflexivity | discriminate]. }
  destruct (login_steps net user password cb w Hu Hp)
    as (_ & _ & _ & _ & Hf & Ht & _).
  rewrite Hf in Hc. rewrite Ht.
  destruct (respond _) as [v|e]; [|discriminate Hc].
  injection Hc as <-. apply authorize_client_value.
Qed.

Lemma create_restores_the_session_witness :
  Api.create (VObj [(js "key", VStr (js "k"));
                    (js "userId", VStr (js "7"));
                    (js "username", VStr (js "ananas"))])
  = this (snd (login
                 (answers (jq "{'data':{'username':'ananas','userId':7,'key':'k'}}"))
                 (VStr (js "ananas")) (VStr (js "secret")) None fresh_world)).
Proof.
  apply (create_restores_the_session
           (answers (jq "{'data':{'username':'ananas','userId':7,'key':'k'}}"))
           (VStr (js "ananas")) (VStr (js "secret")) None fresh_world).
  vm_compute. reflexivity.
Defined.

(** X17.  After a login whose answer holds a truthy key, every request
    of the client carries that key as its session header, whatever the
    caller's headers say. *)
Theorem key_goes_out_after_login `{Engine} net user password cb w v
    net2 options cb2 :
  ToBoolean user = true ->
  ToBoolean password = true ->
  let w1 := snd (login net user password cb w) in
  let first := match options with
               | Path url => [(js "url", Val (VStr url))]
               | Descriptor l => read (heap w1) l
               end in
  respond (net (heap w1) (2 + length (heap w))%nat) = Fulfilled v ->
  ToBoolean (get_prop v (js "key")) = true ->
  (forall l, get_own first (js "headers") = Ref l ->
             (l < length (heap w1))%nat) ->
  get_own (read (heap (snd (request net2 options cb2 w1)))
                (S (length (heap w1))))
          (js "vine-session-id")
  = Val (get_prop v (js "key")).
Proof.
  intros Hu Hp w1 first Hv Hk Hwf.
  destruct (login_steps net user password cb w Hu Hp)
    as (_ & _ & _ & _ & _ & Ht & _).
  fold w1 in Ht. rewrite Hv in Ht.
  assert (Hkey : key (this w1) = get_prop v (js "key")).
  { rewrite Ht. unfold authorize, and_get. cbn [key].
    rewrite (get_prop_truthy _ _ Hk). reflexivity. }
  rewrite <- Hkey. apply request_session_header; [|exact Hwf].
  rewrite Hkey. exact Hk.
Qed.

Lemma key_goes_out_after_login_witness :
  get_own
    (read (heap (snd (request (fails (VStr (js "offline")))
                        (Path (js "users/me")) None
                        (snd (login (answers (jq "{'data':{'key':'k'}}"))
                                (VStr (js "ananas")) (VStr (js "secret"))
                                None fresh_world)))))
          7%nat)
    (js "vine-session-id")
  = Val (VStr (js "k")).
Proof.
  apply (key_goes_out_after_login (answers (jq "{'data':{'key':'k'}}"))
           (VStr (js "ananas")) (VStr (js "secret")) None fresh_world
           (VObj [(js "key", VStr (js "k"))])
           (fails (VStr (js "offline"))) (Path (js "users/me")) None).
  - reflexivity.
  - reflexivity.
  - vm_compute. reflexivity.
  - reflexivity.
  - intros l Hl. discriminate Hl.
Defined.

(** ** The earlier snapshot *)

Section LegacyFacts.
Context `{Engine}.

Lemma legacy_prepare_fst c options h :
  fst (Legacy.prepare c options h) = length h.
Proof.
  unfold Legacy.prepare, alloc.
  destruct options; cbv zeta; destruct (ToBoolean (key c)); reflexivity.
Qed.

Lemma legacy_request_parts net options w :
  let r := Legacy.request net options w in
  sent (snd r) = sent w ++ [length (heap w)]
  /\ this (snd r) = this w
  /\ fst r = Legacy.respond (net (heap (snd r)) (length (heap w))).
Proof.
  intros r. subst r. unfold Legacy.request.
  pose proof (legacy_prepare_fst (this w) options (heap w)) as Ho.
  destruct (Legacy.prepare _ _ _) as [o h]. cbn [fst snd] in *.
  subst o. auto.
Qed.

End LegacyFacts.

(** X18.  In the earlier snapshot [login] clears the session before the
    request is made: a login that fails leaves the client without a session,
    and so does an answer without a payload, for which the promise is
    rejected with the TypeError that reading its key throws; a payload other
    than undefined and null becomes the session, and the promise is
    fulfilled with the client. *)
Theorem legacy_login_outcome `{Engine} net user password w :
  ToBoolean user = true ->
  ToBoolean password = true ->
  let r := Legacy.login net user password w in
  let answer :=
    Legacy.respond (net (heap (snd r)) (2 + length (heap w))%nat) in
  sent (snd r) = sent w ++ [(2 + length (heap w))%nat]
  /\ match answer with
     | Rejected e =>
         fst r = Return (Rejected e) /\ this (snd r) = Legacy.initialize
     | Fulfilled VUndefined =>
         fst r = Return (Rejected (new_TypeError VUndefined (js "key")))
         /\ this (snd r) = Legacy.initialize
     | Fulfilled VNull =>
         fst r = Return (Rejected (new_TypeError VNull (js "key")))
         /\ this (snd r) = Legacy.initialize
     | Fulfilled v =>
         fst r = Return (Fulfilled (client_value (this (snd r))))
         /\ this (snd r) = {| key := get_prop v (js "key");
                              userId := get_prop v (js "userId");
                              username := get_prop v (js "username") |}
     end.
Proof.
  intros Hu Hp r answer. subst answer r. unfold Legacy.login.
  rewrite Hu, Hp. cbn [negb]. unfold alloc. cbv zeta iota.
  match goal with
  | |- context [Legacy.request net ?o ?w0] =>
      pose proof (legacy_request_parts net o w0) as (Hs & Ht & Hf);
      destruct (Legacy.request net o w0) as [req w1]
  end.
  cbn [heap with_heap with_this sent this fst snd] in Hs, Ht, Hf.
  rewrite write_length, !length_app in Hs, Hf. cbn [length] in Hs, Hf.
  replace (length (heap w) + 1 + 1)%nat with (2 + length (heap w))%nat
    in Hs, Hf by lia.
  assert (Hh : forall p w2, q_then req Legacy.authorize_bound w1 = (p, w2) ->
                 heap w2 = heap w1 /\ sent w2 = sent w1).
  { intros p w2. unfold q_then, Legacy.authorize_bound.
    destruct req as [v|e]; [|intros [= <- <-]; auto].
    destruct (Get v (js "key")); intros [= <- <-]; auto. }
  destruct (q_then req Legacy.authorize_bound w1) as [p w2] eqn:Hq.
  destruct (Hh p w2 eq_refl) as [Eh Es]. cbn [fst snd].
  rewrite Eh, Es, <- Hf. split; [exact Hs|].
  unfold q_then, Legacy.authorize_bound in Hq.
  destruct req as [v|e]; [|injection Hq as <- <-; auto].
  destruct v; cbn [Get] in Hq; injection Hq as <- <-; auto.
Qed.

(** An answer without data. *)
Lemma legacy_login_outcome_witness :
  fst (Legacy.login (answers (jq "{}")) (VStr (js "ananas"))
         (VStr (js "secret")) signed_in)
  = Return (Rejected (VError (js "TypeError") (js "Cannot read property key")))
  /\ this (snd (Legacy.login (answers (jq "{}")) (VStr (js "ananas"))
                  (VStr (js "secret")) signed_in))
     = {| key := VNull; userId := VNull; username := VNull |}.
Proof.
  destruct (legacy_login_outcome (answers (jq "{}")) (VStr (js "ananas"))
              (VStr (js "secret")) signed_in) as [_ Hout].
  - reflexivity.
  - reflexivity.
  - exact Hout.
Defined.

(** X19.  In the earlier snapshot [logout] sends one request; when it
    is fulfilled the session is cleared, whatever the payload, and the
    promise is fulfilled with the client; when it is rejected the session
    stays and the rejection is passed on. *)
Theorem legacy_logout_outcome `{Engine} net w :
  let r := Legacy.logout net w in
  let answer := Legacy.respond (net (heap (snd r)) (S (length (heap w)))) in
  sent (snd r) = sent w ++ [S (length (heap w))]
  /\ match answer with
     | Fulfilled _ =>
         fst r = Fulfilled (client_value Legacy.initialize)
         /\ this (snd r) = Legacy.initialize
     | Rejected e => fst r = Rejected e /\ this (snd r) = this w
     end.
Proof.
  intros r answer. subst answer r. unfold Legacy.logout, alloc.
  cbv zeta iota.
  match goal with
  | |- context [Legacy.request net ?o ?w0] =>
      pose proof (legacy_request_parts net o w0) as (Hs & Ht & Hf);
      destruct (Legacy.request net o w0) as [req w1]
  end.
  cbn [heap with_heap sent this fst snd] in Hs, Ht, Hf.
  rewrite length_app in Hs, Hf. cbn [length] in Hs, Hf.
  rewrite Nat.add_1_r in Hs, Hf.
  destruct req as [v|e]; cbn [q_then Legacy.initialize_bound fst snd
                              with_this heap sent this];
    rewrite <- Hf; auto.
Qed.

(** ** Requests of the earlier snapshot *)

Section LegacyHeaders.
Context `{Engine}.

(** The headers object that [prepare] of the earlier snapshot builds. *)
Lemma legacy_prepare_headers c options h :
  let first := match options with
               | Path url => [(js "url", Val (VStr url))]
               | Descriptor l => read h l
               end in
  let overrides := get_own first (js "headers") in
  let merged :=
    defaults_from (defaults_from [] (source_object h overrides))
                  [(js "headers", Ref (3 + length h)%nat)] in
  (forall l, overrides = Ref l -> (l < length h)%nat) ->
  read (snd (Legacy.prepare c options h)) (S (length h))
  = (if ToBoolean (key c)
     then set_prop (js "vine-session-id") (Val (key c)) merged
     else merged)
  /\ read (snd (Legacy.prepare c options h)) (3 + length h)%nat
     = [(js "User-Agent", Val (VStr Legacy.USER_AGENT));
        (js "Accept-Language", Val (VStr Legacy.ACCEPT_LANGUAGE))].
Proof.
  intros first overrides merged Hwf.
  unfold Legacy.prepare, alloc.
  destruct options as [url|l0]; cbv zeta.
  1: change (h ++ [[(js "url", Val (VStr url))]]) with (h ++ [first]).
  2: change (h ++ [read h l0]) with (h ++ [first]).
  all: clearbody first.
  all: set (h1 := h ++ [first]).
  all: assert (Ho : read h1 (length h) = first) by apply read_app_new.
  all: assert (L1 : length h1 = S (length h)) by (subst h1; store_lengths).
  all: assert (F1 : forall l, (l < length h)%nat -> read h1 l = read h l)
         by (intros; apply read_app_l; assumption).
  all: clearbody h1; rewrite Ho.
  all: set (h2 := write h1 (length h) (js "url") _).
  all: assert (L2 : length h2 = S (length h)) by (subst h2; store_lengths).
  all: assert (Ho2 : get_own (read h2 (length h)) (js "headers") = overrides)
         by (subst h2; rewrite read_write by lia; rewrite Ho; unfold get_own;
             rewrite lookup_set_prop_ne by reflexivity; reflexivity).
  all: assert (F2 : forall l, (l < length h)%nat -> read h2 l = read h l)
         by (intros l Hl; subst h2; rewrite read_write_ne by lia; auto).
  all: clearbody h2; rewrite L2.
  all: rewrite (read_app_l h2 [] (length h)) by lia; rewrite Ho2.
  all: match goal with
       | |- context [write ?a ?b (js "headers") (Ref (length ?r))] =>
           set (h6 := write a b (js "headers") (Ref (length r)))
       end.
  all: assert (L6 : length h6 = (4 + length h)%nat)
         by (subst h6; store_lengths).
  all: assert (Hd : read h6 (S (length h)) = []).
  1, 3: subst h6; rewrite read_write_ne by store_lengths;
        rewrite !read_app_l by store_lengths;
        rewrite <- L2; apply read_app_new.
  all: match goal with
       | |- context [source_object ?hh (Ref ?x)] =>
           assert (Hout : source_object hh (Ref x)
                          = [(js "headers", Ref (3 + length h)%nat)])
       end.
  1, 3: subst h6; cbn [source_object]; rewrite read_write by store_lengths;
        rewrite read_app_l by store_lengths; rewrite read_app_new;
        cbn [set_prop]; do 3 f_equal; store_lengths.
  all: assert (Hin : read h6 (3 + length h)%nat
                     = [(js "User-Agent", Val (VStr Legacy.USER_AGENT));
                        (js "Accept-Language",
                         Val (VStr Legacy.ACCEPT_LANGUAGE))]).
  1, 3: subst h6; rewrite read_write_ne by store_lengths;
        replace (3 + length h)%nat with (length ((h2 ++ [[]]) ++ [[]]))
          by store_lengths;
        apply read_app_new.
  all: assert (Hov : source_object h6 overrides = source_object h overrides).
  1, 3: destruct overrides as [v|l] eqn:Eo; [reflexivity|];
        cbn [source_object]; specialize (Hwf l eq_refl);
        subst h6; rewrite read_write_ne by store_lengths;
        rewrite !read_app_l by store_lengths; apply F2, Hwf.
  all: clearbody h6; rewrite Hd, Hout, Hov; fold merged.
  all: destruct (ToBoolean (key c)); cbn [snd]; split.
  all: store_read; try reflexivity.
  all: exact Hin.
Qed.


Lemma legacy_prepare_frame c options h :
  fst (Legacy.prepare c options h) = length h
  /\ length (snd (Legacy.prepare c options h)) = (4 + length h)%nat
  /\ (forall l, (l < length h)%nat -> snd (Legacy.prepare c options h) !! l = h !! l)
  /\ get_own (read (snd (Legacy.prepare c options h)) (length h)) (js "headers")
     = Ref (S (length h)).
Proof.
  unfold Legacy.prepare, alloc.
  destruct options as [url|l0]; cbv zeta;
  destruct (ToBoolean (key c)); cbn [fst snd];
    (split; [reflexivity|]); (split; [store_lengths|]);
    (split; [intros l Hl; store_lookup; reflexivity|]);
    rewrite ?read_write_ne by store_lengths;
    rewrite read_write by store_lengths;
    unfold get_own; rewrite lookup_set_prop; cbn [default from_option id];
    f_equal; store_lengths.
Qed.


Lemma legacy_prepare_options c options h :
  let first := match options with
               | Path url => [(js "url", Val (VStr url))]
               | Descriptor l => read h l
               end in
  read (snd (Legacy.prepare c options h)) (length h)
  = set_prop (js "headers") (Ref (S (length h)))
      (set_prop (js "url")
         (Val (VStr (API_ORIGIN ++ slot_ToString (get_own first (js "url")))))
         first).
Proof.
  intros first. unfold Legacy.prepare, alloc.
  destruct options as [url|l0]; cbv zeta.
  1: change (h ++ [[(js "url", Val (VStr url))]]) with (h ++ [first]).
  2: change (h ++ [read h l0]) with (h ++ [first]).
  all: clearbody first.
  all: set (h1 := h ++ [first]).
  all: assert (Ho : read h1 (length h) = first) by apply read_app_new.
  all: assert (L1 : length h1 = S (length h)) by (subst h1; store_lengths).
  all: clearbody h1; rewrite Ho.
  all: set (h2 := write h1 (length h) (js "url") _).
  all: assert (L2 : length h2 = S (length h)) by (subst h2; store_lengths).
  all: assert (Ho2 : read h2 (length h)
                     = set_prop (js "url")
                         (Val (VStr (API_ORIGIN
                            ++ slot_ToString (get_own first (js "url")))))
                         first)
         by (subst h2; rewrite read_write by lia; rewrite Ho; reflexivity).
  all: clearbody h2; rewrite L2.
  all: destruct (ToBoolean (key c)); cbn [fst snd].
  all: rewrite ?read_write_ne by store_lengths.
  all: rewrite read_write by store_lengths.
  all: rewrite read_insert_ne by store_lengths.
  all: rewrite read_write_ne by store_lengths.
  all: rewrite !read_app_l by store_lengths.
  all: rewrite Ho2; reflexivity.
Qed.


Lemma legacy_request_heap net options w :
  heap (snd (Legacy.request net options w))
  = snd (Legacy.prepare (this w) options (heap w)).
Proof. unfold Legacy.request. destruct (Legacy.prepare _ _ _). reflexivity. Qed.

End LegacyHeaders.

(** X20.  The earlier snapshot prepares a request in the same way: a
    path becomes an options object with the address before it and headers
    of its own, which hold the key when the client has one and, under the
    name headers, the object of the two defaults of that snapshot; no
    User-Agent and no Accept-Language is among the headers themselves. *)
Theorem legacy_request_headers `{Engine} net url w :
  let r := Legacy.request net (Path url) w in
  let len := length (heap w) in
  sent (snd r) = sent w ++ [len]
  /\ read (heap (snd r)) len
     = [(js "url", Val (VStr (API_ORIGIN ++ url)));
        (js "headers", Ref (S len))]
  /\ read (heap (snd r)) (S len)
     = (if ToBoolean (key (this w))
        then [(js "headers", Ref (3 + len)%nat);
              (js "vine-session-id", Val (key (this w)))]
        else [(js "headers", Ref (3 + len)%nat)])
  /\ read (heap (snd r)) (3 + len)%nat
     = [(js "User-Agent", Val (VStr Legacy.USER_AGENT));
        (js "Accept-Language", Val (VStr Legacy.ACCEPT_LANGUAGE))]
  /\ fst r = Legacy.respond (net (heap (snd r)) len).
Proof.
  intros r len. subst r.
  destruct (legacy_request_parts net (Path url) w) as (Hs & _ & Hf).
  split; [exact Hs|]. rewrite legacy_request_heap in *.
  pose proof (legacy_prepare_options (this w) (Path url) (heap w)) as Ho.
  destruct (legacy_prepare_headers (this w) (Path url) (heap w))
    as [Hd Hin]; [discriminate|].
  cbv zeta in Ho. fold len in Ho, Hd, Hin.
  split; [rewrite Ho; props; reflexivity|].
  split; [rewrite Hd; destruct (ToBoolean (key (this w))); reflexivity|].
  split; [exact Hin | exact Hf].
Qed.

(** X21.  [login] of the earlier snapshot sends the user name and the
    password, without a device token, in a POST to users/authenticate; as
    the session is cleared first, no key goes out with it, whatever the
    client held. *)
Theorem legacy_login_request `{Engine} net user password w :
  ToBoolean user = true ->
  ToBoolean password = true ->
  let len := length (heap w) in
  let r := Legacy.login net user password w in
  sent (snd r) = sent w ++ [(2 + len)%nat]
  /\ read (heap (snd r)) (2 + len)%nat
     = [(js "method", Val (VStr (js "post")));
        (js "url", Val (VStr (API_ORIGIN ++ js "users/authenticate")));
        (js "form", Ref (S len));
        (js "headers", Ref (3 + len)%nat)]
  /\ read (heap (snd r)) (S len)
     = [(js "username", Val user); (js "password", Val password)]
  /\ read (heap (snd r)) (3 + len)%nat
     = [(js "headers", Ref (5 + len)%nat)].
Proof.
  intros Hu Hp len r. subst r. unfold Legacy.login.
  rewrite Hu, Hp. cbn [negb]. unfold alloc. cbv zeta iota.
  cbn [heap with_this].
  match goal with
  | |- context [Legacy.request net _ (with_heap ?h _)] => set (h3 := h)
  end.
  assert (L3 : length h3 = (2 + len)%nat) by (subst h3 len; store_lengths).
  assert (R0 : read h3 len
               = [(js "method", Val (VStr (js "post")));
                  (js "url", Val (VStr (js "users/authenticate")));
                  (js "form", Ref (S len))]).
  { subst h3 len. rewrite read_write by store_lengths.
    rewrite read_app_l, read_app_new by store_lengths.
    rewrite length_app. cbn [length]. rewrite Nat.add_1_r. reflexivity. }
  assert (R1 : h3 !! S len
               = Some [(js "username", Val user);
                       (js "password", Val password)]).
  { subst h3 len. rewrite write_lookup_ne by lia.
    replace (S (length (heap w)))
      with (length (heap w ++ [[(js "method", Val (VStr (js "post")));
                   (js "url", Val (VStr (js "users/authenticate")))]]))
      by store_lengths.
    apply list_lookup_middle. reflexivity. }
  clearbody h3. fold len.
  set (w0 := with_heap h3 (with_this Legacy.initialize w)).
  destruct (legacy_request_parts net (Descriptor len) w0) as (Hs & _ & _).
  pose proof (legacy_request_heap net (Descriptor len) w0) as Hheap.
  pose proof (legacy_prepare_options (this w0) (Descriptor len) (heap w0))
    as Ho.
  destruct (legacy_prepare_frame (this w0) (Descriptor len) (heap w0))
    as (_ & _ & Hold & _).
  destruct (legacy_prepare_headers (this w0) (Descriptor len) (heap w0))
    as [Hd _].
  { cbn [heap with_heap w0]. rewrite R0. discriminate. }
  cbv zeta in Ho. rewrite <- Hheap in Ho, Hold, Hd.
  subst w0. cbn [heap with_heap with_this sent this] in Hs, Ho, Hold, Hd.
  rewrite L3 in Hs, Ho, Hold, Hd. rewrite R0 in Ho, Hd.
  destruct (Legacy.request net (Descriptor len) _) as [req w1].
  cbn [fst snd] in Hs, Ho, Hold, Hd.
  assert (Hq : heap (snd (q_then req Legacy.authorize_bound w1)) = heap w1
               /\ sent (snd (q_then req Legacy.authorize_bound w1)) = sent w1).
  { unfold q_then, Legacy.authorize_bound. destruct req as [v|e]; [|auto].
    destruct (Get v (js "key")); auto. }
  destruct (q_then req Legacy.authorize_bound w1) as [p w2].
  cbv beta iota. cbn [fst snd] in Hq |- *. destruct Hq as [-> ->].
  split; [exact Hs|]. split; [rewrite Ho; props; reflexivity|].
  split.
  { pose proof (Hold (S len) ltac:(lia)) as E.
    exact (f_equal (default []) (eq_trans E R1)). }
  etransitivity; [exact Hd|]. reflexivity.
Qed.

(** A client built from cached settings logs in: the key k1 stays
    behind. *)
Lemma legacy_login_request_witness :
  read (heap (snd (Legacy.login (fails (VStr (js "offline")))
                     (VStr (js "ananas")) (VStr (js "secret")) signed_in)))
       3%nat
  = [(js "headers", Ref 5%nat)].
Proof.
  destruct (legacy_login_request (fails (VStr (js "offline")))
              (VStr (js "ananas")) (VStr (js "secret")) signed_in)
    as (_ & _ & _ & Hh).
  - reflexivity.
  - reflexivity.
  - exact Hh.
Defined.

(** ** The rewrite of the earlier snapshot *)

(** Nothing follows the two quantifiers of the pattern: a match takes the
    key, all the blanks and all the digits. *)
Lemma legacy_match s :
  match_here Legacy.USER_ID_SEARCH s
  = match chars (jq "'userId':") s with
    | Some s0 =>
        Some (skip digit (skip space s0),
              [(2%nat, run digit (skip space s0)); (1%nat, run space s0)])
    | None => None
    end.
Proof.
  unfold match_here, Legacy.USER_ID_SEARCH. cbn [exec].
  destruct (chars (jq "'userId':") s) as [s0|]; [|reflexivity].
  assert (Hin : forall s1 (caps : captures),
             star digit s1
               (fun s' => Some (s', (2%nat, take (length s1 - length s') s1)
                                    :: caps))
             = Some (skip digit s1, (2%nat, run digit s1) :: caps)).
  { intros s1 caps. rewrite star_total by eauto.
    pose proof (take_run digit [] s1) as T. cbn [app] in T. rewrite T.
    reflexivity. }
  rewrite star_total by (intros s'; rewrite Hin; eauto).
  pose proof (take_run space [] s0) as T. cbn [app] in T.
  rewrite Hin, T. reflexivity.
Qed.

Lemma legacy_step s :
  replace Legacy.USER_ID_SEARCH Legacy.USER_ID_REPLACE s
  = match chars (jq "'userId':") s with
    | Some s0 =>
        jq "'userId':" ++ run space s0 ++ [dq]
        ++ run digit (skip space s0) ++ [dq]
        ++ replace Legacy.USER_ID_SEARCH Legacy.USER_ID_REPLACE
             (skip digit (skip space s0))
    | None =>
        match s with
        | [] => []
        | c :: s' =>
            c :: replace Legacy.USER_ID_SEARCH Legacy.USER_ID_REPLACE s'
        end
    end.
Proof.
  assert (E : forall x,
             replace Legacy.USER_ID_SEARCH Legacy.USER_ID_REPLACE x
             = replace_from (S (length x)) Legacy.USER_ID_SEARCH
                 Legacy.USER_ID_REPLACE x) by reflexivity.
  rewrite (E s), replace_from_S, legacy_match.
  destruct (chars (jq "'userId':") s) as [s0|] eqn:Hc.
  - apply chars_Some in Hc. subst s.
    pose proof (skip_length space s0). 
    pose proof (skip_length digit (skip space s0)).
    destruct (Nat.ltb_spec (length (skip digit (skip space s0)))
                (length (jq "'userId':" ++ s0))) as [_|Hge].
    2: { rewrite length_app in Hge.
         change (length (jq "'userId':")) with 9%nat in Hge. lia. }
    unfold expand, Legacy.USER_ID_REPLACE.
    cbn [map concat capture Nat.eqb default from_option id].
    rewrite app_nil_r, <- !app_assoc. do 5 f_equal.
    rewrite E. apply replace_from_fuel; [|lia].
    rewrite length_app. change (length (jq "'userId':")) with 9%nat. lia.
  - destruct s as [|c s']; reflexivity.
Qed.

(** Text without a double quote is copied. *)
Lemma legacy_copies l rest :
  forallb digit l = true ->
  replace Legacy.USER_ID_SEARCH Legacy.USER_ID_REPLACE (l ++ rest)
  = l ++ replace Legacy.USER_ID_SEARCH Legacy.USER_ID_REPLACE rest.
Proof.
  induction l as [|c l IH]; [reflexivity|].
  cbn [forallb]. intros [Hc Hl]%andb_true_iff.
  rewrite legacy_step. cbn [app].
  assert (Hq : chars (jq "'userId':") (c :: l ++ rest) = None).
  { change (jq "'userId':") with (dq :: jq "userId':"). cbn [chars].
    destruct (N.eqb_spec dq c) as [<-|_]; [discriminate Hc | reflexivity]. }
  rewrite Hq, (IH Hl). reflexivity.
Qed.

Lemma legacy_cons c s :
  chars (jq "'userId':") (c :: s) = None ->
  replace Legacy.USER_ID_SEARCH Legacy.USER_ID_REPLACE (c :: s)
  = c :: replace Legacy.USER_ID_SEARCH Legacy.USER_ID_REPLACE s.
Proof. intros Hc. rewrite legacy_step, Hc. reflexivity. Qed.

(** X22.  The earlier snapshot rewrites userId only: of the seven
    identifier names, userId reaches the caller with its digits as a
    string, and the other six as a JSON number, which JavaScript rounds to
    a double. *)
Theorem legacy_quotes_userId_only `{Engine} name d ds :
  In name id_names ->
  (49 <=? d) && (d <=? 57) = true ->
  forallb digit ds = true ->
  Legacy.respond
    {| error := VNull;
       body := VStr (jq "{'data':{'" ++ name ++ jq "':" ++ d :: ds
                     ++ jq "}}") |}
  = Fulfilled (VObj [(name, if jsstring_eqb name (js "userId")
                            then VStr (d :: ds) else VNum (d :: ds))]).
Proof.
  intros Hin Hd Hds.
  assert (Hdig : forallb digit (d :: ds) = true).
  { cbn [forallb]. rewrite Hds, andb_true_r. unfold digit.
    apply andb_true_iff in Hd as [H1 H2]. apply N.leb_le in H1, H2.
    apply andb_true_iff. rewrite !N.leb_le. lia. }
  pose proof (id_names_plain _ Hin) as Hname.
  unfold Legacy.respond, unwrap. cbn [error body ToBoolean].
  assert (Hend : replace Legacy.USER_ID_SEARCH Legacy.USER_ID_REPLACE (jq "}}")
                 = jq "}}") by reflexivity.
  assert (Hrep :
    replace Legacy.USER_ID_SEARCH Legacy.USER_ID_REPLACE
      (jq "{'data':{'" ++ name ++ jq "':" ++ d :: ds ++ jq "}}")
    = if jsstring_eqb name (js "userId")
      then jq "{'data':{'" ++ name ++ jq "':'" ++ (d :: ds) ++ jq "'}}"
      else jq "{'data':{'" ++ name ++ jq "':" ++ d :: ds ++ jq "}}").
  { unfold id_names in Hin. cbn [map In] in Hin.
    repeat (destruct Hin as [<-|Hin]; [|]); [..|destruct Hin].
    all: names_eqb; cbv iota.
    all: let r := eval vm_compute in (jq "{'data':{'") in
           change (jq "{'data':{'") with r.
    all: let r := eval vm_compute in (jq "':") in change (jq "':") with r.
    all: let r := eval vm_compute in (jq "':'") in change (jq "':'") with r.
    all: repeat match goal with
         | |- context [js ?x] =>
             let r := eval vm_compute in (js x) in change (js x) with r
         end.
    all: cbn [app].
    all: repeat (rewrite legacy_cons by reflexivity; f_equal).
    5: { rewrite legacy_step.
         let k := eval vm_compute in (jq "'userId':") in
           change (jq "'userId':") with k.
         cbn [chars N.eqb Pos.eqb].
         assert (Hsp : space d = false)
           by (apply digit_not_space; cbn [forallb] in Hdig;
               apply andb_true_iff in Hdig as [-> _]; reflexivity).
         assert (Hrs : run space (d :: ds ++ jq "}}") = [])
           by (cbn [run]; rewrite Hsp; reflexivity).
         assert (Hss : skip space (d :: ds ++ jq "}}") = d :: ds ++ jq "}}")
           by (cbn [skip]; rewrite Hsp; reflexivity).
         assert (Hrd : run digit (d :: ds ++ jq "}}") = d :: ds)
           by (change (d :: ds ++ jq "}}") with ((d :: ds) ++ jq "}}");
               rewrite run_all by exact Hdig; apply app_nil_r).
         assert (Hsd : skip digit (d :: ds ++ jq "}}") = jq "}}")
           by (change (d :: ds ++ jq "}}") with ((d :: ds) ++ jq "}}");
               rewrite skip_all by exact Hdig; reflexivity).
         rewrite Hrs, Hss, Hrd, Hsd, Hend. cbn [app].
         reflexivity. }
    all: change (d :: ds ++ jq "}}") with ((d :: ds) ++ jq "}}").
    all: rewrite legacy_copies by exact Hdig.
    all: rewrite Hend; reflexivity. }
  rewrite Hrep. clear Hrep.
  destruct (jsstring_eqb name (js "userId")).
  - rewrite (parse_string_member name (d :: ds) Hname (digits_plain _ Hdig)).
    cbn [Get get_prop]. cbv [lookup_prop]. names_eqb. reflexivity.
  - rewrite (parse_number_member name d ds Hname Hd Hds).
    cbn [Get get_prop]. cbv [lookup_prop]. names_eqb. reflexivity.
Qed.

Lemma legacy_quotes_userId_only_witness :
  Legacy.respond
    {| error := VNull;
       body := VStr (jq "{'data':{'postId':1234567890123456789012}}") |}
  = Fulfilled (VObj [(js "postId", VNum (js "1234567890123456789012"))]).
Proof.
  apply (legacy_quotes_userId_only (js "postId") 49
           (js "234567890123456789012")).
  - unfold id_names. simpl. auto 10.
  - reflexivity.
  - reflexivity.
Defined.
